(** * legal_patterns: a shallow embedding of [legal_patterns.py]

    The module is a set of lookup tables, compiled regular expressions and
    seven pure helper functions over Python [str] values.

    - A [str] is a sequence of Unicode code points: [list N].
    - The character classes of the interpreter ([str.isspace], the [\w] and
      [\d] classes of [re], [str.lower]) are written out for the code points
      below 256; above that, only whitespace is a fixed finite set, and the
      rest of the Unicode database is a parameter ([ucd]) of the development.
    - Operations that can raise ([d[k]], [m.group(n)], [xs[i]], [int(s)])
      return a [result]. *)

From Stdlib Require Import String Ascii.
From Stdlib Require Import List Arith NArith Bool Lia.
Import ListNotations.
Local Open Scope N_scope.
Local Open Scope list_scope.

(** ** Strings and exceptions *)

Abbreviation char := N (only parsing).
Abbreviation str := (list N) (only parsing).

(** An ASCII literal as a [str]. *)
Definition lit (s : string) : str :=
  map N_of_ascii (list_ascii_of_string s).

Inductive exn := KeyError | IndexError | ValueError.

Inductive result (A : Type) :=
| Ok (a : A)
| Raise (e : exn).
Arguments Ok {A} a.
Arguments Raise {A} e.

Definition bind {A B} (m : result A) (f : A -> result B) : result B :=
  match m with
  | Ok a => f a
  | Raise e => Raise e
  end.

Notation "x <- m ;; k" := (bind m (fun x => k))
  (at level 61, m at next level, right associativity).

Definition returns {A} (m : result A) : Prop := exists a, m = Ok a.

Definition str_eqb (a b : str) : bool :=
  if list_eq_dec N.eq_dec a b then true else false.

(** ** The Unicode database *)

(** What the interpreter's Unicode tables say above U+00FF: membership in
    [\w], the value of a decimal digit ([\d], [int]), and the lowercase
    mapping of a code point in its context (text before, reversed, and text
    after). *)
Record ucd := {
  word_hi : char -> bool;
  decimal_hi : char -> option N;
  lower_hi : str -> char -> str -> str
}.

(** A database that knows nothing above U+00FF. *)
Definition latin1_only : ucd :=
  {| word_hi := fun _ => false;
     decimal_hi := fun _ => None;
     lower_hi := fun _ c _ => [c] |}.

Definition between (lo hi c : char) : bool := (lo <=? c) && (c <=? hi).

(** [str.isspace], which is also [\s] of [re] and what [str.strip] and
    [str.split] without argument use. *)
Definition isspace (c : char) : bool :=
  between 9 13 c || between 28 32 c || (c =? 133) || (c =? 160) ||
  (c =? 5760) || between 8192 8202 c || (c =? 8232) || (c =? 8233) ||
  (c =? 8239) || (c =? 8287) || (c =? 12288).

Definition word_latin1 (c : char) : bool :=
  between 48 57 c || between 65 90 c || (c =? 95) || between 97 122 c ||
  (c =? 170) || (c =? 178) || (c =? 179) || (c =? 181) || (c =? 185) ||
  (c =? 186) || between 188 190 c || between 192 214 c ||
  between 216 246 c || between 248 255 c.

Definition lower_latin1 (c : char) : char :=
  if between 65 90 c || between 192 214 c || between 216 222 c
  then c + 32 else c.

Section Unicode.

Variable U : ucd.

(** [\w]: alphanumeric or underscore. *)
Definition isword (c : char) : bool :=
  if c <? 256 then word_latin1 c else word_hi U c.

(** The value of a decimal digit, [None] for any other code point. *)
Definition decimal (c : char) : option N :=
  if c <? 256 then (if between 48 57 c then Some (c - 48) else None)
  else decimal_hi U c.

(** [\d]. *)
Definition isdecimal (c : char) : bool :=
  match decimal c with Some _ => true | None => false end.

(** ** String methods *)

(** [s.lower()]. *)
Fixpoint lower_from (pre s : str) : str :=
  match s with
  | [] => []
  | c :: t =>
      (if c <? 256 then [lower_latin1 c] else lower_hi U pre c t)
        ++ lower_from (c :: pre) t
  end.

Definition lower (s : str) : str := lower_from [] s.

Fixpoint lstrip (s : str) : str :=
  match s with
  | c :: t => if isspace c then lstrip t else s
  | [] => []
  end.

Definition rstrip (s : str) : str := rev (lstrip (rev s)).

(** [s.strip()]. *)
Definition strip (s : str) : str := rstrip (lstrip s).

Fixpoint startswith (p s : str) : bool :=
  match p, s with
  | [], _ => true
  | a :: p', b :: s' => (a =? b) && startswith p' s'
  | _ :: _, [] => false
  end.

(** [sub in s]. *)
Fixpoint contains (sub s : str) : bool :=
  startswith sub s ||
  match s with
  | [] => false
  | _ :: t => contains sub t
  end.

(** [s.split(sep, 1)] for a non-empty [sep]: the text before the first
    occurrence of [sep] and the text after it, or [s] alone. *)
Fixpoint split_first (sep : str) (acc s : str) : list str :=
  if startswith sep s then [rev acc; skipn (length sep) s]
  else match s with
       | [] => [rev acc]
       | c :: t => split_first sep (c :: acc) t
       end.

Definition split1 (sep s : str) : list str := split_first sep [] s.

(** [s.split(c)] for a one-character separator. *)
Fixpoint split_char (c : char) (acc s : str) : list str :=
  match s with
  | [] => [rev acc]
  | x :: t => if x =? c then rev acc :: split_char c [] t
              else split_char c (x :: acc) t
  end.

(** [s.split()]: the maximal runs of non-whitespace. *)
Fixpoint split_ws (acc s : str) : list str :=
  match s with
  | [] => match acc with [] => [] | _ => [rev acc] end
  | x :: t =>
      if isspace x
      then match acc with [] => split_ws [] t | _ => rev acc :: split_ws [] t end
      else split_ws (x :: acc) t
  end.

Definition split (s : str) : list str := split_ws [] s.

(** [sep.join(parts)]. *)
Fixpoint join (sep : str) (parts : list str) : str :=
  match parts with
  | [] => []
  | [p] => p
  | p :: ps => p ++ sep ++ join sep ps
  end.

(** [xs[i]]. *)
Definition index {A} (xs : list A) (i : nat) : result A :=
  match nth_error xs i with
  | Some x => Ok x
  | None => Raise IndexError
  end.

(** The number of digits that [int] accepts:
    [sys.get_int_max_str_digits()], which is 4300 unless the interpreter is
    told otherwise. *)
Definition int_max_str_digits : nat := 4300.

(** [int(s)] on a run of decimal digits. The builtin also accepts
    surrounding whitespace, a sign and underscores; every other text raises
    [ValueError], and so does this function on all it does not read.
    Integers are unbounded, but a run of more than [int_max_str_digits]
    digits is refused with [ValueError] before it is read. *)
Fixpoint int_from (acc : N) (s : str) : result N :=
  match s with
  | [] => Ok acc
  | c :: t => match decimal c with
              | Some d => int_from (10 * acc + d) t
              | None => Raise ValueError
              end
  end.

Definition int (s : str) : result N :=
  match s with
  | [] => Raise ValueError
  | _ => if (int_max_str_digits <? length s)%nat then Raise ValueError
         else int_from 0 s
  end.

(** ** Dictionaries: association lists in insertion order *)

Definition dict (V : Type) := list (str * V).

Fixpoint dict_get {V} (d : dict V) (k : str) : option V :=
  match d with
  | [] => None
  | (k', v) :: d' => if str_eqb k k' then Some v else dict_get d' k
  end.

(** [k in d]. *)
Definition dict_in {V} (d : dict V) (k : str) : bool :=
  match dict_get d k with Some _ => true | None => false end.

(** [d[k]]. *)
Definition dict_item {V} (d : dict V) (k : str) : result V :=
  match dict_get d k with
  | Some v => Ok v
  | None => Raise KeyError
  end.

(** ** Regular expressions

    The fragment of [re] syntax that the patterns of [LegalPatterns] and of
    [clean_legal_text] are written in. Every quantifier there applies to a
    single character class. *)

Inductive citem :=
| CChar (c : char)            (* a literal character *)
| CRange (lo hi : char)       (* [lo-hi] *)
| CSpace                      (* \s *)
| CDigit.                     (* \d *)

Definition cset := list citem.

Inductive regex :=
| RChar (c : char)            (* a literal character *)
| RSet (cs : cset)            (* [...] or a class escape *)
| RBol                        (* ^ *)
| REol                        (* $ *)
| RWordB                      (* \b *)
| REmpty
| RSeq (a b : regex)
| RAlt (a b : regex)          (* a|b *)
| RGroup (n : nat) (a : regex)  (* the n-th capturing group *)
| RStar (cs : cset)           (* cs* *)
| RPlus (cs : cset)           (* cs+ *)
| RPlusLazy (cs : cset).      (* cs+? *)

Definition citem_mem (i : citem) (c : char) : bool :=
  match i with
  | CChar x => c =? x
  | CRange lo hi => between lo hi c
  | CSpace => isspace c
  | CDigit => isdecimal c
  end.

Definition cset_mem (cs : cset) (c : char) : bool :=
  existsb (fun i => citem_mem i c) cs.

Definition head_word (s : str) : bool :=
  match s with
  | c :: _ => isword c
  | [] => false
  end.

(** [\b] between the text before (reversed) and the text after. *)
Definition boundary (pre rest : str) : bool :=
  xorb (head_word pre) (head_word rest).

(** [$] without [re.MULTILINE]: the end of the text, or just before a
    newline that ends it. *)
Definition at_eol (rest : str) : bool :=
  match rest with
  | [] => true
  | [c] => c =? 10
  | _ => false
  end.

Definition caps := list (nat * str).

(** A position of the matcher: the text already read, reversed, the text
    still to read, and the groups captured so far. *)
Definition mstate := (str * str * caps)%type.

(** The text read between the positions [pre] and [pre']. *)
Definition consumed (pre pre' : str) : str :=
  rev (firstn (length pre' - length pre) pre').

Section Loops.
Variable cs : cset.
Variable k : str -> str -> option mstate.

(** Greedy [cs*]: as many as possible first, then one fewer. *)
Fixpoint star_greedy (pre rest : str) : option mstate :=
  match rest with
  | c :: t =>
      if cset_mem cs c
      then match star_greedy (c :: pre) t with
           | Some m => Some m
           | None => k pre rest
           end
      else k pre rest
  | [] => k pre rest
  end.

Definition plus_greedy (pre rest : str) : option mstate :=
  match rest with
  | c :: t => if cset_mem cs c then star_greedy (c :: pre) t else None
  | [] => None
  end.

(** Lazy [cs*?]: as few as possible first, then one more. *)
Fixpoint star_lazy (pre rest : str) : option mstate :=
  match k pre rest with
  | Some m => Some m
  | None =>
      match rest with
      | c :: t => if cset_mem cs c then star_lazy (c :: pre) t else None
      | [] => None
      end
  end.

Definition plus_lazy (pre rest : str) : option mstate :=
  match rest with
  | c :: t => if cset_mem cs c then star_lazy (c :: pre) t else None
  | [] => None
  end.
End Loops.

(** The backtracking matcher, with its continuation: alternatives are tried
    in the order of the pattern and the first that lets the rest of the
    pattern succeed is taken. *)
Fixpoint exec (r : regex) (pre rest : str) (g : caps)
         (k : str -> str -> caps -> option mstate) : option mstate :=
  match r with
  | RChar c =>
      match rest with
      | x :: t => if x =? c then k (x :: pre) t g else None
      | [] => None
      end
  | RSet cs =>
      match rest with
      | x :: t => if cset_mem cs x then k (x :: pre) t g else None
      | [] => None
      end
  | RBol => match pre with [] => k pre rest g | _ :: _ => None end
  | REol => if at_eol rest then k pre rest g else None
  | RWordB => if boundary pre rest then k pre rest g else None
  | REmpty => k pre rest g
  | RSeq a b => exec a pre rest g (fun p r g' => exec b p r g' k)
  | RAlt a b =>
      match exec a pre rest g k with
      | Some m => Some m
      | None => exec b pre rest g k
      end
  | RGroup n a =>
      exec a pre rest g (fun p r g' => k p r ((n, consumed pre p) :: g'))
  | RStar cs => star_greedy cs (fun p r => k p r g) pre rest
  | RPlus cs => plus_greedy cs (fun p r => k p r g) pre rest
  | RPlusLazy cs => plus_lazy cs (fun p r => k p r g) pre rest
  end.

Definition accept : str -> str -> caps -> option mstate :=
  fun p r g => Some (p, r, g).

(** A match at the position [(pre, rest)]. With [advance] an empty match is
    refused, as the scanner does right after an empty match. *)
Definition match_at (r : regex) (advance : bool) (pre rest : str)
  : option mstate :=
  exec r pre rest []
       (fun p r' g =>
          if advance && Nat.eqb (length p) (length pre) then None
          else accept p r' g).

(** [pattern.match(s)]. *)
Definition re_match (r : regex) (s : str) : option mstate :=
  match_at r false [] s.

Fixpoint search_from (r : regex) (pre rest : str) : option mstate :=
  match match_at r false pre rest with
  | Some m => Some m
  | None =>
      match rest with
      | c :: t => search_from r (c :: pre) t
      | [] => None
      end
  end.

(** [pattern.search(s)]. *)
Definition re_search (r : regex) (s : str) : option mstate :=
  search_from r [] s.

(** [m.group(n)] for a group that took part in the match. *)
Definition group (m : mstate) (n : nat) : result str :=
  match find (fun e => Nat.eqb (fst e) n) (snd m) with
  | Some e => Ok (snd e)
  | None => Raise IndexError
  end.

(** The length of the match found at a position. *)
Definition match_len (r : regex) (advance : bool) (pre rest : str)
  : option nat :=
  match match_at r advance pre rest with
  | Some (p, _, _) => Some (length p - length pre)%nat
  | None => None
  end.

(** [re.sub(pattern, repl, s)] for a replacement text without group
    references: the leftmost matches, left to right, without overlap.
    [skip] counts the characters of the current match still to be passed
    over. An empty match is replaced too, and the scan then looks for a
    non-empty match at the same place before it copies a character. *)
Fixpoint sub_from (r : regex) (repl : str) (skip : nat) (pre rest : str)
  : str :=
  match skip with
  | S n =>
      match rest with
      | c :: t => sub_from r repl n (c :: pre) t
      | [] => []
      end
  | O =>
      match match_len r false pre rest with
      | Some (S n) =>
          repl ++ match rest with
                  | c :: t => sub_from r repl n (c :: pre) t
                  | [] => []
                  end
      | Some O =>
          repl ++
          match match_len r true pre rest with
          | Some (S n) =>
              repl ++ match rest with
                      | c :: t => sub_from r repl n (c :: pre) t
                      | [] => []
                      end
          | _ =>
              match rest with
              | c :: t => c :: sub_from r repl O (c :: pre) t
              | [] => []
              end
          end
      | None =>
          match rest with
          | c :: t => c :: sub_from r repl O (c :: pre) t
          | [] => []
          end
      end
  end.

Definition re_sub (r : regex) (repl s : str) : str :=
  sub_from r repl O [] s.

(** Pattern syntax: a sequence, a choice, a literal text. *)
Fixpoint seq (rs : list regex) : regex :=
  match rs with
  | [] => REmpty
  | r :: rs' => RSeq r (seq rs')
  end.

Fixpoint alt (rs : list regex) : regex :=
  match rs with
  | [] => RSet []
  | [r] => r
  | r :: rs' => RAlt r (alt rs')
  end.

Definition text (s : str) : regex := seq (map RChar s).

End Unicode.

Definition ch (a : ascii) : char := N_of_ascii a.

(** The section sign, U+00A7. *)
Definition sect : char := 167.

(** ** Pattern syntax under flags *)

(** The characters that a pattern character below U+0080 matches under
    [re.IGNORECASE]: both cases of a letter and the code points above
    U+007F whose case mapping is that letter (U+0130 and U+0131 for "i",
    U+212A for "k", U+017F for "s"). *)
Definition icase (c : char) : cset :=
  if between 65 90 c || between 97 122 c then
    let u := if between 97 122 c then c - 32 else c in
    CChar u :: CChar (u + 32) ::
    (if u =? 73 then [CChar 304; CChar 305]
     else if u =? 75 then [CChar 8490]
     else if u =? 83 then [CChar 383]
     else [])
  else [CChar c].

(** A literal text under [re.IGNORECASE]. *)
Definition itext (s : str) : regex := seq (map (fun c => RSet (icase c)) s).

(** [.] without [re.DOTALL]: any code point but the newline. *)
Definition dot : cset := [CRange 0 9; CRange 11 1114111].

(** ** The tables *)

Definition COURT_ABBREVIATIONS : dict str :=
  [ (lit "S. Ct.", lit "Supreme Court");
    (lit "U.S.", lit "United States Supreme Court");
    (lit "1st Cir.", lit "First Circuit");
    (lit "2d Cir.", lit "Second Circuit");
    (lit "3d Cir.", lit "Third Circuit");
    (lit "4th Cir.", lit "Fourth Circuit");
    (lit "5th Cir.", lit "Fifth Circuit");
    (lit "6th Cir.", lit "Sixth Circuit");
    (lit "7th Cir.", lit "Seventh Circuit");
    (lit "8th Cir.", lit "Eighth Circuit");
    (lit "9th Cir.", lit "Ninth Circuit");
    (lit "10th Cir.", lit "Tenth Circuit");
    (lit "11th Cir.", lit "Eleventh Circuit");
    (lit "D.C. Cir.", lit "D.C. Circuit");
    (lit "Fed. Cir.", lit "Federal Circuit");
    (lit "D.", lit "District");
    (lit "E.D.", lit "Eastern District");
    (lit "W.D.", lit "Western District");
    (lit "N.D.", lit "Northern District");
    (lit "S.D.", lit "Southern District");
    (lit "C.D.", lit "Central District");
    (lit "M.D.", lit "Middle District");
    (lit "Sup. Ct.", lit "Supreme Court");
    (lit "App.", lit "Appellate");
    (lit "App. Div.", lit "Appellate Division");
    (lit "Ct. App.", lit "Court of Appeals");
    (lit "Super. Ct.", lit "Superior Court") ].

Definition DOCUMENT_TYPES : dict (list str) :=
  [ (lit "contract", map lit ["agreement"; "contract"; "covenant"; "deed"; "lease"]%string);
    (lit "motion", map lit ["motion"; "petition"; "application"; "request"]%string);
    (lit "brief", map lit ["brief"; "memorandum"; "memo"]%string);
    (lit "complaint", map lit ["complaint"; "petition"; "claim"]%string);
    (lit "order", map lit ["order"; "judgment"; "decree"; "ruling"; "decision"]%string);
    (lit "opinion", map lit ["opinion"; "decision"; "judgment"]%string);
    (lit "statute", map lit ["statute"; "act"; "code"; "law"]%string);
    (lit "regulation", map lit ["regulation"; "rule"; "cfr"; "administrative"]%string) ].

(** ** The patterns *)

Module LegalPatterns.

(** [^\s*\[(\d+)\]\s*] *)
Definition PARAGRAPH_NUMBER : regex :=
  seq [ RBol; RStar [CSpace]; RChar (ch "[");
        RGroup 1 (RPlus [CDigit]);
        RChar (ch "]"); RStar [CSpace] ].

(** [SECTION_NUMBER] repeats a group and [FOOTNOTE_REFERENCE] uses [\w];
    neither is in the fragment above, and they are not embedded. *)

(** [[IVXLCDM]] with [re.IGNORECASE] *)
Definition roman : cset := flat_map icase (lit "IVXLCDM").

(** [^\s*Article\s+([IVXLCDM]+|\d+)\s*] with [re.IGNORECASE] *)
Definition ARTICLE_NUMBER : regex :=
  seq [ RBol; RStar [CSpace]; itext (lit "Article"); RPlus [CSpace];
        RGroup 1 (alt [RPlus roman; RPlus [CDigit]]);
        RStar [CSpace] ].

(** [^\s*\^(\d+)\s*(.+)] *)
Definition FOOTNOTE_TEXT : regex :=
  seq [ RBol; RStar [CSpace]; RChar (ch "^");
        RGroup 1 (RPlus [CDigit]); RStar [CSpace];
        RGroup 2 (RPlus dot) ].

(** The month names of [LEGAL_DATE], and the abbreviations that may take a
    period, both in the order of the pattern. *)
Definition MONTHS : list string :=
  ["January"; "February"; "March"; "April"; "May"; "June"; "July";
   "August"; "September"; "October"; "November"; "December"]%string.

Definition MONTH_ABBREVIATIONS : list string :=
  ["Jan"; "Feb"; "Mar"; "Apr"; "May"; "Jun"; "Jul"; "Aug"; "Sep"; "Sept";
   "Oct"; "Nov"; "Dec"]%string.

(** An abbreviated month with its optional period, as in [Jan\.?]. *)
Definition abbreviated (m : string) : regex :=
  seq [text (lit m); alt [RChar (ch "."); REmpty]].

(** [\d{4}] *)
Definition year : regex :=
  seq [RSet [CDigit]; RSet [CDigit]; RSet [CDigit]; RSet [CDigit]].

(** [\b(?:January|...|December|Jan\.?|...|Dec\.?)\s+\d{1,2},?\s+\d{4}\b] *)
Definition LEGAL_DATE : regex :=
  seq [ RWordB;
        alt (map (fun m => text (lit m)) MONTHS ++
             map abbreviated MONTH_ABBREVIATIONS);
        RPlus [CSpace];
        RSet [CDigit]; alt [RSet [CDigit]; REmpty];
        alt [RChar (ch ","); REmpty];
        RPlus [CSpace]; year; RWordB ].

(** [^\s*(?:Page\s+)?(\d+)\s*$] with [re.IGNORECASE] *)
Definition PAGE_NUMBER : regex :=
  seq [ RBol; RStar [CSpace];
        alt [ seq [itext (lit "Page"); RPlus [CSpace]]; REmpty ];
        RGroup 1 (RPlus [CDigit]); RStar [CSpace]; REol ].

(** [\bpp?\.\s*(\d+)(?:\s*-\s*(\d+))?\b] *)
Definition PAGE_RANGE : regex :=
  seq [ RWordB; RChar (ch "p"); alt [RChar (ch "p"); REmpty];
        RChar (ch "."); RStar [CSpace];
        RGroup 1 (RPlus [CDigit]);
        alt [ seq [ RStar [CSpace]; RChar (ch "-"); RStar [CSpace];
                    RGroup 2 (RPlus [CDigit]) ];
              REmpty ];
        RWordB ].

(** [\b(?:Inc\.|LLC|L\.L\.C\.|Corp\.|Corporation|Company|Co\.)\b] *)
Definition CORPORATION : regex :=
  seq [ RWordB;
        alt [ text (lit "Inc."); text (lit "LLC"); text (lit "L.L.C.");
              text (lit "Corp."); text (lit "Corporation");
              text (lit "Company"); text (lit "Co.") ];
        RWordB ].

(** [[A-Za-z\s,\.]] *)
Definition name_chars : cset :=
  [ CRange (ch "A") (ch "Z"); CRange (ch "a") (ch "z"); CSpace;
    CChar (ch ","); CChar (ch ".") ].

(** [[A-Z][A-Za-z\s,\.]+?] *)
Definition name : regex :=
  seq [ RSet [CRange (ch "A") (ch "Z")]; RPlusLazy name_chars ].

(** [^([A-Z][A-Za-z\s,\.]+?)\s+v\.\s+([A-Z][A-Za-z\s,\.]+?)(?:\s*,|$)] *)
Definition PARTY_NAME : regex :=
  seq [ RBol; RGroup 1 name;
        RPlus [CSpace]; text (lit "v."); RPlus [CSpace];
        RGroup 2 name;
        alt [ seq [RStar [CSpace]; RChar (ch ",")]; REol ] ].

End LegalPatterns.

(** ** The functions *)

Section Functions.

Variable U : ucd.

(** The inner loop of [extract_document_type]: does a keyword of the list
    occur in the lowered text? *)
Fixpoint keyword_found (text_lower : str) (keywords : list str) : bool :=
  match keywords with
  | [] => false
  | keyword :: rest =>
      if contains keyword text_lower then true
      else keyword_found text_lower rest
  end.

(** The outer loop: the first document type with a keyword in the text. *)
Fixpoint scan_types (text_lower : str) (types : dict (list str))
  : option str :=
  match types with
  | [] => None
  | (doc_type, keywords) :: rest =>
      if keyword_found text_lower keywords then Some doc_type
      else scan_types text_lower rest
  end.

Definition extract_document_type (text : str) : str :=
  let text_lower := lower U text in
  match scan_types text_lower DOCUMENT_TYPES with
  | Some doc_type => doc_type
  | None => lit "unknown"
  end.

(** The loop of [normalize_court_name] over the parts of the input. *)
Fixpoint expand_parts (todo parts : list str) : result (list str) :=
  match todo with
  | [] => Ok parts
  | part :: rest =>
      if dict_in COURT_ABBREVIATIONS part
      then full <- dict_item COURT_ABBREVIATIONS part ;;
           expand_parts rest (parts ++ [full])
      else expand_parts rest (parts ++ [part])
  end.

Definition normalize_court_name (court_abbr : str) : result str :=
  if dict_in COURT_ABBREVIATIONS court_abbr
  then dict_item COURT_ABBREVIATIONS court_abbr
  else parts <- expand_parts (split court_abbr) [] ;;
       Ok (join (lit " ") parts).

Definition extract_party_names (case_name : str) : result (str * str) :=
  match re_match U LegalPatterns.PARTY_NAME case_name with
  | Some m =>
      g1 <- group m 1 ;;
      g2 <- group m 2 ;;
      Ok (strip g1, strip g2)
  | None =>
      if contains (lit " v. ") case_name
      then let parts := split1 (lit " v. ") case_name in
           p0 <- index parts 0 ;;
           p1 <- index parts 1 ;;
           Ok (strip p0, strip p1)
      else Ok (case_name, [])
  end.

Definition format_legal_date (date_str : str) : str := strip date_str.

Definition is_legal_entity (text : str) : bool :=
  match re_search U LegalPatterns.CORPORATION text with
  | Some _ => true
  | None => false
  end.

(** The loop of [extract_paragraph_numbers] over the lines. *)
Fixpoint collect_numbers (lines : list str) (numbers : list N)
  : result (list N) :=
  match lines with
  | [] => Ok numbers
  | line :: rest =>
      match re_match U LegalPatterns.PARAGRAPH_NUMBER line with
      | Some m =>
          g <- group m 1 ;;
          n <- int U g ;;
          collect_numbers rest (numbers ++ [n])
      | None => collect_numbers rest numbers
      end
  end.

Definition extract_paragraph_numbers (text : str) : result (list N) :=
  collect_numbers (split_char 10 [] text) [].

(** The [replacements] of [clean_legal_text], in the order of the dict. *)
Definition replacements : list (regex * str) :=
  [ (seq [RWordB; RChar (ch "l"); RWordB], lit "1");
    (seq [RWordB; RChar (ch "O"); RWordB], lit "0");
    (text [sect; sect], [sect]);
    (seq [RPlus [CSpace]; RChar (ch ".")], lit ".");
    (seq [RPlus [CSpace]; RChar (ch ",")], lit ",") ].

Definition clean_legal_text (text : str) : str :=
  let text := re_sub U (RPlus [CSpace]) (lit " ") text in
  let text :=
    fold_left (fun text pr => re_sub U (fst pr) (snd pr) text)
              replacements text in
  strip text.

End Functions.

(** ** What a pattern matches

    The declarative reading of a pattern: [den r pre rest g pre' rest' g']
    says that [r] can read the text between the two positions, leaving the
    captures [g']. The matcher finds a match exactly when one exists. *)

Section Denotation.

Variable U : ucd.

Definition stay (pre rest : str) (g : caps) (pre' rest' : str) (g' : caps)
  : Prop :=
  pre' = pre /\ rest' = rest /\ g' = g.

Definition reads (cs : cset) (w pre rest : str) (g : caps)
           (pre' rest' : str) (g' : caps) : Prop :=
  forallb (cset_mem U cs) w = true /\
  rest = w ++ rest' /\ pre' = rev w ++ pre /\ g' = g.

Fixpoint den (r : regex) (pre rest : str) (g : caps)
         (pre' rest' : str) (g' : caps) : Prop :=
  match r with
  | RChar c => rest = c :: rest' /\ pre' = c :: pre /\ g' = g
  | RSet cs =>
      exists x, cset_mem U cs x = true /\
                rest = x :: rest' /\ pre' = x :: pre /\ g' = g
  | RBol => pre = [] /\ stay pre rest g pre' rest' g'
  | REol => at_eol rest = true /\ stay pre rest g pre' rest' g'
  | RWordB => boundary U pre rest = true /\ stay pre rest g pre' rest' g'
  | REmpty => stay pre rest g pre' rest' g'
  | RSeq a b =>
      exists p r g1, den a pre rest g p r g1 /\ den b p r g1 pre' rest' g'
  | RAlt a b => den a pre rest g pre' rest' g' \/ den b pre rest g pre' rest' g'
  | RGroup n a =>
      exists g1, den a pre rest g pre' rest' g1 /\
                 g' = (n, consumed pre pre') :: g1
  | RStar cs => exists w, reads cs w pre rest g pre' rest' g'
  | RPlus cs => exists w, w <> [] /\ reads cs w pre rest g pre' rest' g'
  | RPlusLazy cs => exists w, w <> [] /\ reads cs w pre rest g pre' rest' g'
  end.

End Denotation.

(** * The specification's words

    Definitions that follow the specification, to be compared with the
    functions above. *)

Section Specification.

Variable U : ucd.

(** Does the text start with whitespace? *)
Definition head_space (s : str) : bool :=
  match s with
  | c :: _ => isspace c
  | [] => false
  end.


(** What the fallback of [normalize_court_name] does with one token. *)
Definition expand (tok : str) : str :=
  match dict_get COURT_ABBREVIATIONS tok with
  | Some full => full
  | None => tok
  end.

(** Splitting on whitespace, in the words of the specification: the tokens
    are the maximal runs of non-whitespace, in order. *)
Inductive tokens : str -> list str -> Prop :=
| tokens_none ws :
    forallb isspace ws = true -> tokens ws []
| tokens_one ws tok rest toks :
    forallb isspace ws = true ->
    tok <> [] -> existsb isspace tok = false ->
    (rest = [] \/ head_space rest = true) ->
    tokens rest toks ->
    tokens (ws ++ tok ++ rest) (tok :: toks).

(** The classifier in the words of the specification: the first type of
    the table, in its order, one of whose keywords occurs in the lowered
    text. *)
Definition spec_document_type (t : str) : str :=
  match find (fun e => existsb (fun kw => contains kw (lower U t)) (snd e))
             DOCUMENT_TYPES with
  | Some e => fst e
  | None => lit "unknown"
  end.

(** A run of decimal digits read as an integer, in positional notation:
    the digits are taken from the last one, each worth ten times the one
    after it. [None] if a character is not a digit. *)
Fixpoint place_value (digits_from_last : str) : option N :=
  match digits_from_last with
  | [] => Some 0
  | c :: t => match decimal U c, place_value t with
              | Some d, Some n => Some (d + 10 * n)
              | _, _ => None
              end
  end.

Definition decimal_value (ds : str) : option N := place_value (rev ds).

(** A numbered line, in the words of the specification: optional
    whitespace, an opening bracket, one or more digits, a closing bracket;
    [n] is the digits read as an integer. *)
Definition numbered (line : str) (n : N) : Prop :=
  exists ws ds rest,
    line = ws ++ ch "[" :: ds ++ ch "]" :: rest /\
    forallb isspace ws = true /\ ds <> [] /\
    forallb (isdecimal U) ds = true /\ decimal_value ds = Some n.

(** A line of that form whose run of digits is longer than [int]
    accepts. *)
Definition oversized (line : str) : Prop :=
  exists ws ds rest,
    line = ws ++ ch "[" :: ds ++ ch "]" :: rest /\
    forallb isspace ws = true /\
    forallb (isdecimal U) ds = true /\
    (int_max_str_digits < length ds)%nat.

(** The numbers of the numbered lines, in line order. *)
Inductive collected : list str -> list N -> Prop :=
| collected_nil : collected [] []
| collected_hit line n lines ns :
    numbered line n -> collected lines ns ->
    collected (line :: lines) (n :: ns)
| collected_miss line lines ns :
    (forall n, ~ numbered line n) -> collected lines ns ->
    collected (line :: lines) ns.

(** A party name of the case-name pattern: a capital letter, then one or
    more letters, whitespace, commas or periods. *)
Definition name_char (c : char) : bool :=
  between (ch "A") (ch "Z") c || between (ch "a") (ch "z") c ||
  isspace c || (c =? ch ",") || (c =? ch ".").

Definition is_name (w : str) : Prop :=
  exists c w', w = c :: w' /\ between (ch "A") (ch "Z") c = true /\
               w' <> [] /\ forallb name_char w' = true.

(** One or more whitespace characters. *)
Definition spaces1 (ws : str) : Prop :=
  ws <> [] /\ forallb isspace ws = true.

(** What ends the case name: the end of the text (or a newline that ends
    it), or optional whitespace and a comma. *)
Definition terminated (tail : str) : Prop :=
  at_eol tail = true \/
  exists ws rest, tail = ws ++ ch "," :: rest /\ forallb isspace ws = true.

(** The text is a case name with the parties [g1] and [g2]: the two names
    around "v." set off by whitespace on both sides. *)
Definition party_shape (s g1 g2 : str) : Prop :=
  exists ws1 ws2 tail,
    s = g1 ++ ws1 ++ lit "v." ++ ws2 ++ g2 ++ tail /\
    is_name g1 /\ is_name g2 /\ spaces1 ws1 /\ spaces1 ws2 /\
    terminated tail.

(** The reading that the pattern captures: the shortest first name that
    any reading has and, with it, the shortest second name. *)
Definition party_groups (s g1 g2 : str) : Prop :=
  party_shape s g1 g2 /\
  (forall h1 h2, party_shape s h1 h2 -> (length g1 <= length h1)%nat) /\
  (forall h2, party_shape s g1 h2 -> (length g2 <= length h2)%nat).

(** [sep] occurs in [s] between [a] and [b], and nowhere further left. *)
Definition first_at (sep s a b : str) : Prop :=
  s = a ++ sep ++ b /\
  forall a' b', s = a' ++ sep ++ b' -> (length a <= length a')%nat.

(** The suffix tokens of the entity pattern that end in a period, and
    those that do not. *)
Definition dotted_suffixes : list str :=
  map lit ["Inc."; "L.L.C."; "Corp."; "Co."]%string.

Definition undotted_suffixes : list str :=
  map lit ["LLC"; "Corporation"; "Company"]%string.

(** Does [tok] occur in [s] with a word character right after it? *)
Fixpoint followed_by_word (tok s : str) : bool :=
  (startswith tok s && head_word U (skipn (length tok) s)) ||
  match s with
  | [] => false
  | _ :: t => followed_by_word tok t
  end.

(** The six steps of [clean_legal_text], in the words of the
    specification. *)

(** Step 1: every run of whitespace becomes a single space. [in_run] says
    that the character before was whitespace of the same run. *)
Fixpoint spec_collapse_ws (in_run : bool) (s : str) : str :=
  match s with
  | [] => []
  | c :: t =>
      if isspace c
      then if in_run then spec_collapse_ws true t
           else ch " " :: spec_collapse_ws true t
      else c :: spec_collapse_ws false t
  end.

(** Steps 2 and 3: the character [x], where it stands between two word
    boundaries, becomes [y]. [pre] is the text before, reversed. *)
Fixpoint spec_fix_token (x y : char) (pre s : str) : str :=
  match s with
  | [] => []
  | c :: t =>
      (if (c =? x) && boundary U pre s && boundary U (c :: pre) t
       then y else c) :: spec_fix_token x y (c :: pre) t
  end.

(** Step 4: every pair of section signs, read from the left, becomes one
    section sign. *)
Fixpoint spec_halve_sect (s : str) : str :=
  match s with
  | a :: t =>
      match t with
      | b :: t' =>
          if (a =? sect) && (b =? sect) then sect :: spec_halve_sect t'
          else a :: spec_halve_sect t
      | [] => s
      end
  | [] => []
  end.

(** Does the text start with whitespace, if any, and then [d]? *)
Fixpoint before_char (d : char) (s : str) : bool :=
  match s with
  | c :: t => (c =? d) || (isspace c && before_char d t)
  | [] => false
  end.

(** Steps 5 and 6: the whitespace right before a [d] is removed. *)
Fixpoint spec_drop_ws_before (d : char) (s : str) : str :=
  match s with
  | [] => []
  | c :: t =>
      if isspace c && before_char d t then spec_drop_ws_before d t
      else c :: spec_drop_ws_before d t
  end.

Definition spec_clean_legal_text (s : str) : str :=
  let s := spec_collapse_ws false s in
  let s := spec_fix_token (ch "l") (ch "1") [] s in
  let s := spec_fix_token (ch "O") (ch "0") [] s in
  let s := spec_halve_sect s in
  let s := spec_drop_ws_before (ch ".") s in
  let s := spec_drop_ws_before (ch ",") s in
  strip s.

(** The six steps alone, before the whitespace at the two ends is taken
    off. *)
Definition spec_six_steps (s : str) : str :=
  let s := spec_collapse_ws false s in
  let s := spec_fix_token (ch "l") (ch "1") [] s in
  let s := spec_fix_token (ch "O") (ch "0") [] s in
  let s := spec_halve_sect s in
  let s := spec_drop_ws_before (ch ".") s in
  spec_drop_ws_before (ch ",") s.

(** The length of the run of whitespace a text starts with. *)
Fixpoint run_length (s : str) : nat :=
  match s with
  | c :: t => if isspace c then S (run_length t) else O
  | [] => O
  end.

(** Three section signs in a row. *)
Definition triple : str := [sect; sect; sect].

(** What a cleaned text looks like: none of the six steps, nor [strip],
    finds anything to do in it. *)

Definition head_is (d : char) (s : str) : bool :=
  match s with
  | c :: _ => c =? d
  | [] => false
  end.

(** Whitespace only as single spaces. *)
Fixpoint single_spaced (s : str) : bool :=
  match s with
  | [] => true
  | c :: t =>
      (if isspace c then (c =? ch " ") && negb (head_space t) else true)
      && single_spaced t
  end.

(** No [x] between two word boundaries. *)
Fixpoint no_token (x : char) (pre s : str) : bool :=
  match s with
  | [] => true
  | c :: t =>
      negb ((c =? x) && boundary U pre s && boundary U (c :: pre) t)
      && no_token x (c :: pre) t
  end.

(** No two section signs in a row. *)
Fixpoint no_pair (s : str) : bool :=
  match s with
  | [] => true
  | a :: t => negb ((a =? sect) && head_is sect t) && no_pair t
  end.

(** No whitespace right before a [d]. *)
Fixpoint no_ws_before (d : char) (s : str) : bool :=
  match s with
  | [] => true
  | c :: t => negb (isspace c && before_char d t) && no_ws_before d t
  end.

(** No whitespace at either end. *)
Definition stripped (s : str) : bool :=
  negb (head_space s) && negb (head_space (rev s)).

Definition cleaned (s : str) : bool :=
  single_spaced s &&
  no_token (ch "l") [] s && no_token (ch "O") [] s &&
  no_pair s &&
  no_ws_before (ch ".") s && no_ws_before (ch ",") s &&
  stripped s.

End Specification.

(** * What the other patterns read

    The shapes of the texts that the patterns of [LegalPatterns] outside
    the seven functions match, and what holds of the values of the court
    table. *)

Section Readings.

Variable U : ucd.

(** The ASCII lower-case letter that a code point counts as under
    [re.IGNORECASE], if there is one; any other code point is itself. *)
Definition fold_case (c : char) : char :=
  if between 65 90 c then c + 32
  else if (c =? 304) || (c =? 305) then 105
  else if c =? 8490 then 107
  else if c =? 383 then 115
  else c.

(** The longest prefix of characters of a class, and what follows it. *)
Fixpoint take_while (f : char -> bool) (s : str) : str :=
  match s with
  | c :: t => if f c then c :: take_while f t else []
  | [] => []
  end.

Fixpoint drop_while (f : char -> bool) (s : str) : str :=
  match s with
  | c :: t => if f c then drop_while f t else s
  | [] => []
  end.

(** A run of one or more digits. *)
Definition digits1 (ds : str) : Prop :=
  ds <> [] /\ forallb (isdecimal U) ds = true.

(** A page-number line with the number [ds]: optional whitespace, the
    optional word "page" in any letter case with whitespace after it, the
    digits, optional whitespace, and nothing else. *)
Definition page_line (line ds : str) : Prop :=
  exists ws label ws',
    line = ws ++ label ++ ds ++ ws' /\
    forallb isspace ws = true /\
    (label = [] \/
     exists w sp, label = w ++ sp /\ map fold_case w = lit "page" /\
                  spaces1 sp) /\
    ds <> [] /\ forallb (isdecimal U) ds = true /\
    forallb isspace ws' = true.

(** A letter of a Roman numeral, in either case (and the two other code
    points that count as "i"). *)
Definition is_roman (c : char) : bool :=
  existsb (N.eqb (fold_case c)) (lit "ivxlcdm").

(** What [ARTICLE_NUMBER] captures at the start of [tail]: the longest run
    of Roman numeral letters or, if [tail] starts with none, the longest
    run of digits. *)
Definition article_number (tail : str) : str :=
  match take_while is_roman tail with
  | [] => take_while (isdecimal U) tail
  | num => num
  end.

(** An article heading: optional whitespace, the word "article" in any
    letter case, whitespace, and a number at the start of [tail]. *)
Definition article_line (line tail : str) : Prop :=
  exists ws w sp,
    line = ws ++ w ++ sp ++ tail /\
    forallb isspace ws = true /\
    map fold_case w = lit "article" /\
    spaces1 sp /\ article_number tail <> [].

(** The end of [ARTICLE_NUMBER]: the number and the whitespace after
    it. *)
Definition article_end : regex :=
  seq [ RGroup 1 (alt [RPlus LegalPatterns.roman; RPlus [CDigit]]);
        RStar [CSpace] ].

(** Any code point but the newline. *)
Definition not_newline (c : char) : bool :=
  negb (c =? 10) && (c <=? 1114111).

(** A footnote line: optional whitespace, a caret, the digits [ds],
    optional whitespace, and the text [tail], which does not start with a
    newline. *)
Definition footnote_line (line ds tail : str) : Prop :=
  exists ws sp,
    line = ws ++ ch "^" :: ds ++ sp ++ tail /\
    forallb isspace ws = true /\
    ds <> [] /\ forallb (isdecimal U) ds = true /\
    forallb isspace sp = true /\
    take_while not_newline tail <> [].

(** The end of [FOOTNOTE_TEXT]: the text of the note. *)
Definition footnote_end : regex := seq [RGroup 2 (RPlus dot)].

(** [FOOTNOTE_TEXT] after the digits: the whitespace and the text of the
    note. *)
Definition footnote_rest : regex :=
  seq [RStar [CSpace]; RGroup 2 (RPlus dot)].

(** The reading of a footnote line that [FOOTNOTE_TEXT] captures: of all
    readings, the one with the most digits and, with them, the most
    whitespace after them (the shortest text). *)
Definition footnote_groups (line ds tail : str) : Prop :=
  footnote_line line ds tail /\
  (forall ds' tail', footnote_line line ds' tail' ->
                     (length ds' <= length ds)%nat) /\
  (forall tail', footnote_line line ds tail' ->
                 (length tail <= length tail')%nat).

(** A page reference with the first page [ds], after the text [a]: "p."
    or "pp." not right after a word character, optional whitespace, the
    digits [ds], optionally a hyphen with optional whitespace around it and
    a second run of digits, and a word boundary between the last digit and
    the text [b] that follows. *)
Definition page_range_at (a rest ds : str) : Prop :=
  exists label sp b,
    (label = lit "p." \/ label = lit "pp.") /\
    forallb isspace sp = true /\ digits1 ds /\
    head_word U (rev a) = false /\
    ((rest = label ++ sp ++ ds ++ b /\ boundary U (rev ds) b = true) \/
     exists s1 s2 ds2,
       rest = label ++ sp ++ ds ++ s1 ++ ch "-" :: s2 ++ ds2 ++ b /\
       forallb isspace s1 = true /\ forallb isspace s2 = true /\
       digits1 ds2 /\ boundary U (rev ds2) b = true).

(** A month as [LEGAL_DATE] reads it: a full English name, or one of the
    abbreviations with or without a period. *)
Definition is_month (mon : str) : Prop :=
  In mon (map lit LegalPatterns.MONTHS) \/
  exists ab, In ab LegalPatterns.MONTH_ABBREVIATIONS /\
             (mon = lit ab ++ lit "." \/ mon = lit ab).

(** A date after the text [a]: a month not right after a word character,
    whitespace, one or two digits, an optional comma, whitespace, four
    digits, and a word boundary between the last digit and the text [b]
    that follows. *)
Definition legal_date_at (a rest : str) : Prop :=
  exists mon sp1 day comma sp2 yr b,
    rest = mon ++ sp1 ++ day ++ comma ++ sp2 ++ yr ++ b /\
    is_month mon /\ spaces1 sp1 /\
    forallb (isdecimal U) day = true /\
    (length day = 1 \/ length day = 2)%nat /\
    (comma = [] \/ comma = lit ",") /\ spaces1 sp2 /\
    forallb (isdecimal U) yr = true /\ length yr = 4%nat /\
    head_word U (rev a) = false /\
    boundary U (rev yr) b = true.

(** The characters that a step of [clean_legal_text] may write: those of
    the text [s], a space, "1" and "0". *)
Definition from_text (s : str) (c : char) : bool :=
  existsb (N.eqb c) s || (c =? ch " ") || (c =? ch "1") || (c =? ch "0").

(** What holds of every value of the court table: it is its own words
    joined by single spaces, none of its words is a key, and it is not a
    key itself. *)
Definition plain_value (v : str) : bool :=
  negb (Nat.eqb (length (split v)) 0) &&
  str_eqb (join (lit " ") (split v)) v &&
  forallb (fun w => negb (dict_in COURT_ABBREVIATIONS w)) (split v) &&
  negb (dict_in COURT_ABBREVIATIONS v).

End Readings.

(** * The matcher inside [PARTY_NAME]

    The pattern after its first group, and the continuations the matcher
    runs at the end of each of its parts. *)

Section Continuations.

Variable U : ucd.

(** [(?:\s*,|$)] *)
Definition party_ending : regex :=
  seq [alt [ seq [RStar [CSpace]; RChar (ch ",")]; REol ]].

(** After the second name, read from [p1]: the ending. *)
Definition after_name2 (g : caps) (p1 : str)
  : str -> str -> option mstate :=
  fun p2 r2 =>
    exec U party_ending p2 r2 ((2%nat, consumed p1 p2) :: g) accept.

(** After the whitespace that follows "v.": the second group. *)
Definition after_sep2 (g : caps) : str -> str -> option mstate :=
  fun p1 r1 =>
    match r1 with
    | x :: t =>
        if cset_mem U [CRange (ch "A") (ch "Z")] x
        then plus_lazy U LegalPatterns.name_chars (after_name2 g p1)
                       (x :: p1) t
        else None
    | [] => None
    end.

(** After the whitespace that follows the first name: "v." and on. *)
Definition after_sep1 (g : caps) : str -> str -> option mstate :=
  fun p0 r0 =>
    exec U (text (lit "v.")) p0 r0 g
         (fun p r g' => plus_greedy U [CSpace] (after_sep2 g') p r).

(** After the first name, which ends at [p]: the rest of the pattern. *)
Definition after_name1 : str -> str -> option mstate :=
  fun p r =>
    exec U (seq [ RPlus [CSpace]; text (lit "v."); RPlus [CSpace];
                  RGroup 2 LegalPatterns.name;
                  alt [ seq [RStar [CSpace]; RChar (ch ",")]; REol ] ])
         p r [(1%nat, consumed [] p)] accept.

End Continuations.

(** * Tactics *)

Ltac bool_to_prop :=
  repeat match goal with
         | H : _ && _ = true |- _ => apply andb_true_iff in H; destruct H
         | H : _ || _ = false |- _ => apply orb_false_iff in H; destruct H
         | H : _ || _ = true |- _ => apply orb_true_iff in H; destruct H
         | H : _ && _ = false |- _ => apply andb_false_iff in H; destruct H
         | H : (_ <=? _) = true |- _ => apply N.leb_le in H
         | H : (_ <=? _) = false |- _ => apply N.leb_gt in H
         | H : (_ <? _) = true |- _ => apply N.ltb_lt in H
         | H : (_ <? _) = false |- _ => apply N.ltb_ge in H
         | H : (_ =? _) = true |- _ => apply N.eqb_eq in H
         | H : (_ =? _) = false |- _ => apply N.eqb_neq in H
         end.

Ltac break :=
  repeat match goal with
         | H : exists _, _ |- _ => destruct H
         | H : _ /\ _ |- _ => destruct H
         | H : stay _ _ _ _ _ _ |- _ => unfold stay in H
         | H : reads _ _ _ _ _ _ _ _ _ |- _ => unfold reads in H
         end.

(** * Properties *)

Section Basics.

Lemma startswith_app p s : startswith p (p ++ s) = true.
Proof.
  induction p as [|a p IH]; simpl; [reflexivity|].
  now rewrite N.eqb_refl, IH.
Qed.

Lemma startswith_split p s :
  startswith p s = true -> s = p ++ skipn (length p) s.
Proof.
  revert s. induction p as [|a p IH]; intros [|b s]; simpl; try easy.
  intros H. apply andb_true_iff in H as [E H].
  apply N.eqb_eq in E. subst b. f_equal. now apply IH.
Qed.

Lemma contains_iff sub s :
  contains sub s = true <-> exists a b, s = a ++ sub ++ b.
Proof.
  induction s as [|c s IH]; simpl.
  - rewrite orb_false_r. split.
    + intros H. apply startswith_split in H. exists [], (skipn (length sub) []).
      exact H.
    + intros (a & b & E). destruct a; [|discriminate].
      simpl in E. rewrite E. apply startswith_app.
  - rewrite orb_true_iff, IH. split.
    + intros [H | (a & b & E)].
      * apply startswith_split in H. now exists [], (skipn (length sub) (c :: s)).
      * exists (c :: a), b. simpl. now rewrite E.
    + intros (a & b & E). destruct a as [|x a]; simpl in E.
      * left. rewrite E. apply startswith_app.
      * right. injection E as _ E. now exists a, b.
Qed.

Lemma lstrip_spec s :
  exists l, s = l ++ lstrip s /\ forallb isspace l = true /\
            head_space (lstrip s) = false.
Proof.
  induction s as [|c s (l & E & Hl & Hh)]; simpl.
  - now exists [].
  - destruct (isspace c) eqn:Hc.
    + exists (c :: l). simpl. rewrite Hc, Hl. now rewrite <- E.
    + exists []. simpl. now rewrite Hc.
Qed.

Lemma rstrip_spec s :
  exists r, s = rstrip s ++ r /\ forallb isspace r = true /\
            head_space (rev (rstrip s)) = false.
Proof.
  unfold rstrip. destruct (lstrip_spec (rev s)) as (l & E & Hl & Hh).
  exists (rev l). rewrite rev_involutive. repeat split; trivial.
  - apply (f_equal (@rev char)) in E.
    now rewrite rev_involutive, rev_app_distr in E.
  - rewrite forallb_forall in *. intros x Hx. apply Hl. now apply in_rev.
Qed.

Lemma lstrip_fixed s : head_space s = false -> lstrip s = s.
Proof. destruct s as [|c s]; simpl; [easy|]. now intros ->. Qed.

Lemma rstrip_fixed s : head_space (rev s) = false -> rstrip s = s.
Proof.
  intros H. unfold rstrip. rewrite lstrip_fixed by exact H.
  apply rev_involutive.
Qed.

Lemma head_space_rstrip s :
  head_space s = false -> head_space (rstrip s) = false.
Proof.
  intros H. destruct (rstrip_spec s) as (r & E & _ & _).
  destruct (rstrip s) as [|c t]; [reflexivity|].
  rewrite E in H. exact H.
Qed.

Lemma strip_spec s :
  exists l r, s = l ++ strip s ++ r /\
              forallb isspace l = true /\ forallb isspace r = true /\
              head_space (strip s) = false /\
              head_space (rev (strip s)) = false.
Proof.
  unfold strip.
  destruct (lstrip_spec s) as (l & E & Hl & Hh).
  destruct (rstrip_spec (lstrip s)) as (r & E' & Hr & Hh').
  exists l, r. repeat split; trivial.
  - now rewrite <- E', <- E.
  - now apply head_space_rstrip.
Qed.

End Basics.

(** ** The matcher against the declarative reading *)

Section Engine.

Variable U : ucd.

Lemma rev_cons_app (c : char) (w pre : str) :
  rev (c :: w) ++ pre = rev w ++ c :: pre.
Proof. simpl. now rewrite <- app_assoc. Qed.

Section LoopFacts.
Variable cs : cset.
Variable k : str -> str -> option mstate.

Lemma star_greedy_sound rest : forall pre m,
  star_greedy U cs k pre rest = Some m ->
  exists w rest', forallb (cset_mem U cs) w = true /\
                  rest = w ++ rest' /\ k (rev w ++ pre) rest' = Some m.
Proof.
  induction rest as [|c t IH]; intros pre m H; simpl in H.
  - now exists [], [].
  - destruct (cset_mem U cs c) eqn:Hc.
    + destruct (star_greedy U cs k (c :: pre) t) as [m'|] eqn:Hs.
      * injection H as <-. apply IH in Hs as (w & rest' & Hw & E & Hk).
        exists (c :: w), rest'. rewrite rev_cons_app. simpl.
        rewrite Hc, Hw, E. now repeat split.
      * now exists [], (c :: t).
    + now exists [], (c :: t).
Qed.

Lemma star_greedy_base pre rest :
  k pre rest <> None -> star_greedy U cs k pre rest <> None.
Proof.
  intros H. destruct rest as [|c t]; simpl; trivial.
  destruct (cset_mem U cs c); trivial.
  now destruct (star_greedy U cs k (c :: pre) t).
Qed.

Lemma star_greedy_complete w : forall pre rest',
  forallb (cset_mem U cs) w = true ->
  k (rev w ++ pre) rest' <> None ->
  star_greedy U cs k pre (w ++ rest') <> None.
Proof.
  induction w as [|c w IH]; intros pre rest' Hw Hk.
  - now apply star_greedy_base.
  - simpl in Hw. apply andb_true_iff in Hw as [Hc Hw].
    rewrite rev_cons_app in Hk. simpl. rewrite Hc.
    specialize (IH (c :: pre) rest' Hw Hk).
    now destruct (star_greedy U cs k (c :: pre) (w ++ rest')).
Qed.

Lemma star_lazy_sound rest : forall pre m,
  star_lazy U cs k pre rest = Some m ->
  exists w rest', forallb (cset_mem U cs) w = true /\
                  rest = w ++ rest' /\ k (rev w ++ pre) rest' = Some m.
Proof.
  induction rest as [|c t IH]; intros pre m H; simpl in H.
  - destruct (k pre []) eqn:Hk; [|discriminate].
    exists [], []. now rewrite <- H.
  - destruct (k pre (c :: t)) eqn:Hk.
    + exists [], (c :: t). now rewrite <- H.
    + destruct (cset_mem U cs c) eqn:Hc; [|discriminate].
      apply IH in H as (w & rest' & Hw & E & Hk').
      exists (c :: w), rest'. rewrite rev_cons_app. simpl.
      rewrite Hc, Hw, E. now repeat split.
Qed.

Lemma star_lazy_complete w : forall pre rest',
  forallb (cset_mem U cs) w = true ->
  k (rev w ++ pre) rest' <> None ->
  star_lazy U cs k pre (w ++ rest') <> None.
Proof.
  induction w as [|c w IH]; intros pre rest' Hw Hk.
  - simpl in *. destruct rest'; simpl; now destruct (k pre _).
  - simpl in Hw. apply andb_true_iff in Hw as [Hc Hw].
    rewrite rev_cons_app in Hk. simpl. rewrite Hc.
    destruct (k pre (c :: w ++ rest')); [easy|].
    now apply IH.
Qed.

Lemma plus_sound (loop : str -> str -> option mstate) pre rest m :
  (forall p r m', loop p r = Some m' ->
     exists w rest', forallb (cset_mem U cs) w = true /\
                     r = w ++ rest' /\ k (rev w ++ p) rest' = Some m') ->
  match rest with
  | c :: t => if cset_mem U cs c then loop (c :: pre) t else None
  | [] => None
  end = Some m ->
  exists w rest', w <> [] /\ forallb (cset_mem U cs) w = true /\
                  rest = w ++ rest' /\ k (rev w ++ pre) rest' = Some m.
Proof.
  intros Hloop H. destruct rest as [|c t]; [discriminate|].
  destruct (cset_mem U cs c) eqn:Hc; [|discriminate].
  apply Hloop in H as (w & rest' & Hw & E & Hk).
  exists (c :: w), rest'. rewrite rev_cons_app. simpl.
  rewrite Hc, Hw, E. now repeat split.
Qed.

Lemma plus_complete (loop : str -> str -> option mstate) w pre rest' :
  (forall w p r, forallb (cset_mem U cs) w = true ->
     k (rev w ++ p) r <> None -> loop p (w ++ r) <> None) ->
  w <> [] -> forallb (cset_mem U cs) w = true ->
  k (rev w ++ pre) rest' <> None ->
  match w ++ rest' with
  | c :: t => if cset_mem U cs c then loop (c :: pre) t else None
  | [] => None
  end <> None.
Proof.
  intros Hloop Hne Hw Hk. destruct w as [|c w]; [easy|].
  simpl in Hw. apply andb_true_iff in Hw as [Hc Hw].
  rewrite rev_cons_app in Hk. simpl. rewrite Hc. now apply Hloop.
Qed.
(** The lazy loop stops at the first place where the continuation
    succeeds. *)
Lemma star_lazy_first rest : forall pre m,
  star_lazy U cs k pre rest = Some m ->
  exists w rest',
    forallb (cset_mem U cs) w = true /\ rest = w ++ rest' /\
    k (rev w ++ pre) rest' = Some m /\
    forall w1 w2, w = w1 ++ w2 -> w2 <> [] ->
                  k (rev w1 ++ pre) (w2 ++ rest') = None.
Proof.
  induction rest as [|c t IH]; intros pre m H; simpl in H.
  - destruct (k pre []) eqn:Hk; [|discriminate].
    exists [], []. rewrite <- H. repeat split; trivial.
    intros w1 w2 E Hne. now destruct w1, w2.
  - destruct (k pre (c :: t)) eqn:Hk.
    + exists [], (c :: t). rewrite <- H. repeat split; trivial.
      intros w1 w2 E Hne. now destruct w1, w2.
    + destruct (cset_mem U cs c) eqn:Hc; [|discriminate].
      apply IH in H as (w & rest' & Hw & E & Hk' & Hmin).
      exists (c :: w), rest'. rewrite rev_cons_app. simpl.
      rewrite Hc, Hw, E. repeat split; trivial.
      intros [|c' w1] w2 E' Hne.
      * simpl in E'. subst w2. simpl. now rewrite <- E.
      * injection E' as <- E'. rewrite rev_cons_app. now apply Hmin.
Qed.

Lemma plus_lazy_first pre rest m :
  plus_lazy U cs k pre rest = Some m ->
  exists w rest',
    w <> [] /\ forallb (cset_mem U cs) w = true /\ rest = w ++ rest' /\
    k (rev w ++ pre) rest' = Some m /\
    forall w1 w2, w = w1 ++ w2 -> w1 <> [] -> w2 <> [] ->
                  k (rev w1 ++ pre) (w2 ++ rest') = None.
Proof.
  unfold plus_lazy. destruct rest as [|c t]; [discriminate|].
  destruct (cset_mem U cs c) eqn:Hc; [|discriminate]. intros H.
  apply star_lazy_first in H as (w & rest' & Hw & E & Hk & Hmin).
  exists (c :: w), rest'. rewrite rev_cons_app. simpl.
  rewrite Hc, Hw, E. repeat split; trivial; [easy|].
  intros [|c' w1] w2 E' H1 H2; [easy|].
  injection E' as <- E'. rewrite rev_cons_app. now apply Hmin.
Qed.
End LoopFacts.

Lemma plus_greedy_sound cs k pre rest m :
  plus_greedy U cs k pre rest = Some m ->
  exists w rest', w <> [] /\ forallb (cset_mem U cs) w = true /\
                  rest = w ++ rest' /\ k (rev w ++ pre) rest' = Some m.
Proof.
  intros H. apply (plus_sound cs k (star_greedy U cs k) pre rest m);
    [|exact H].
  intros p0 r0 m0 H0. exact (star_greedy_sound cs k r0 p0 m0 H0).
Qed.

(** A successful run of the matcher is a match of the pattern. *)
Lemma exec_sound r : forall pre rest g k m,
  exec U r pre rest g k = Some m ->
  exists p' r' g', den U r pre rest g p' r' g' /\ k p' r' g' = Some m.
Proof.
  induction r; intros pre rest g k m H; simpl in H.
  - destruct rest as [|x t]; [discriminate|].
    destruct (N.eqb_spec x c); [subst x|discriminate].
    exists (c :: pre), t, g. simpl. now repeat split.
  - destruct rest as [|x t]; [discriminate|].
    destruct (cset_mem U cs x) eqn:Hx; [|discriminate].
    exists (x :: pre), t, g. split; [|exact H]. exists x. now repeat split.
  - destruct pre; [|discriminate]. exists [], rest, g. now repeat split.
  - destruct (at_eol rest) eqn:He; [|discriminate].
    exists pre, rest, g. now repeat split.
  - destruct (boundary U pre rest) eqn:Hb; [|discriminate].
    exists pre, rest, g. now repeat split.
  - exists pre, rest, g. now repeat split.
  - apply IHr1 in H as (p1 & r1' & g1 & D1 & H).
    apply IHr2 in H as (p2 & r2' & g2 & D2 & H).
    exists p2, r2', g2. split; [|exact H]. simpl. eauto.
  - destruct (exec U r1 pre rest g k) eqn:H1.
    + injection H as <-. apply IHr1 in H1 as (p & r & g' & D & Hk).
      exists p, r, g'. simpl. eauto.
    + apply IHr2 in H as (p & r & g' & D & Hk).
      exists p, r, g'. simpl. eauto.
  - apply IHr in H as (p & r' & g' & D & Hk).
    exists p, r', ((n, consumed pre p) :: g'). simpl. eauto.
  - apply star_greedy_sound in H as (w & rest' & Hw & E & Hk).
    exists (rev w ++ pre), rest', g. split; [|exact Hk].
    exists w. now repeat split.
  - apply (@plus_sound cs (fun p r => k p r g)
                        (star_greedy U cs (fun p r => k p r g)) pre rest m) in H;
      [|intros p0 r0 m0 H0;
        exact (@star_greedy_sound cs (fun p r => k p r g) r0 p0 m0 H0)].
    destruct H as (w & rest' & Hne & Hw & E & Hk).
    exists (rev w ++ pre), rest', g. split; [|exact Hk].
    exists w. now repeat split.
  - apply (@plus_sound cs (fun p r => k p r g)
                        (star_lazy U cs (fun p r => k p r g)) pre rest m) in H;
      [|intros p0 r0 m0 H0;
        exact (@star_lazy_sound cs (fun p r => k p r g) r0 p0 m0 H0)].
    destruct H as (w & rest' & Hne & Hw & E & Hk).
    exists (rev w ++ pre), rest', g. split; [|exact Hk].
    exists w. now repeat split.
Qed.

(** Where the pattern has a match that the continuation accepts, the
    matcher finds one. *)
Lemma exec_complete r : forall pre rest g k p' r' g',
  den U r pre rest g p' r' g' -> k p' r' g' <> None ->
  exec U r pre rest g k <> None.
Proof.
  induction r; intros pre rest g k p' r' g' D Hk; simpl in D |- *.
  - destruct D as (-> & -> & ->). now rewrite N.eqb_refl.
  - destruct D as (x & Hx & -> & -> & ->). now rewrite Hx.
  - destruct D as (-> & -> & -> & ->). exact Hk.
  - destruct D as (He & -> & -> & ->). now rewrite He.
  - destruct D as (Hb & -> & -> & ->). now rewrite Hb.
  - destruct D as (-> & -> & ->). exact Hk.
  - destruct D as (p & r & g1 & D1 & D2).
    eapply IHr1; [exact D1|]. eapply IHr2; eauto.
  - destruct D as [D | D].
    + specialize (IHr1 _ _ _ _ _ _ _ D Hk).
      now destruct (exec U r1 pre rest g k).
    + specialize (IHr2 _ _ _ _ _ _ _ D Hk).
      now destruct (exec U r1 pre rest g k).
  - destruct D as (g1 & D & ->). eapply IHr; [exact D|]. exact Hk.
  - destruct D as (w & Hw & -> & -> & ->).
    now apply (@star_greedy_complete cs (fun p r => k p r g)).
  - destruct D as (w & Hne & Hw & -> & -> & ->).
    apply (@plus_complete cs (fun p r => k p r g)
                          (star_greedy U cs (fun p r => k p r g))); trivial.
    intros w0 p0 r0.
    exact (@star_greedy_complete cs (fun p r => k p r g) w0 p0 r0).
  - destruct D as (w & Hne & Hw & -> & -> & ->).
    apply (@plus_complete cs (fun p r => k p r g)
                          (star_lazy U cs (fun p r => k p r g))); trivial.
    intros w0 p0 r0.
    exact (@star_lazy_complete cs (fun p r => k p r g) w0 p0 r0).
Qed.

Lemma consumed_app w pre : consumed pre (rev w ++ pre) = w.
Proof.
  unfold consumed. rewrite length_app, Nat.add_sub.
  rewrite firstn_app, Nat.sub_diag, firstn_all. simpl.
  now rewrite app_nil_r, rev_involutive.
Qed.

Lemma match_at_exec r pre rest :
  match_at U r false pre rest = exec U r pre rest [] accept.
Proof. reflexivity. Qed.

Lemma match_at_sound r pre rest p r' g :
  match_at U r false pre rest = Some (p, r', g) ->
  den U r pre rest [] p r' g.
Proof.
  unfold match_at. intros H. apply exec_sound in H as (p' & r'' & g' & D & H).
  simpl in H. unfold accept in H. now injection H as <- <- <-.
Qed.

Lemma match_at_complete r pre rest p r' g :
  den U r pre rest [] p r' g -> match_at U r false pre rest <> None.
Proof.
  intros D. unfold match_at. eapply exec_complete; [exact D|]. easy.
Qed.

End Engine.

(** ** Character facts *)

Section Lowering.

Variable U : ucd.

Lemma lower_latin1_idem c : lower_latin1 (lower_latin1 c) = lower_latin1 c.
Proof.
  unfold lower_latin1.
  destruct (between 65 90 c || between 192 214 c || between 216 222 c) eqn:E;
    cbv iota; [|now rewrite E].
  destruct (between 65 90 (c + 32) || between 192 214 (c + 32)
            || between 216 222 (c + 32)) eqn:E'; [|reflexivity].
  unfold between in *. bool_to_prop; lia.
Qed.

Lemma lower_latin1_small c : c < 256 -> lower_latin1 c < 256.
Proof.
  intros H. unfold lower_latin1.
  destruct (between 65 90 c || between 192 214 c || between 216 222 c) eqn:E;
    [|exact H].
  unfold between in *. bool_to_prop; lia.
Qed.

Lemma lower_from_latin1 s : forall pre,
  forallb (fun c => c <? 256) s = true ->
  lower_from U pre s = map lower_latin1 s.
Proof.
  induction s as [|c s IH]; intros pre H; simpl in *; [reflexivity|].
  apply andb_true_iff in H as [Hc Hs]. rewrite Hc. simpl.
  now rewrite IH.
Qed.

(** On text below U+0100, lowering twice is lowering once. *)
Lemma lower_latin1_text s :
  forallb (fun c => c <? 256) s = true ->
  lower U (lower U s) = lower U s.
Proof.
  intros H. unfold lower. rewrite (@lower_from_latin1 s [] H).
  rewrite lower_from_latin1.
  - rewrite map_map. apply map_ext. intros c. apply lower_latin1_idem.
  - rewrite forallb_forall in *. intros x Hx.
    apply in_map_iff in Hx as (c & <- & Hc). apply H in Hc.
    apply N.ltb_lt. apply lower_latin1_small. now apply N.ltb_lt.
Qed.

End Lowering.

(** ** [format_legal_date], [normalize_court_name], [extract_document_type] *)

Section Simple.

Variable U : ucd.

(** C10. For every string [s], [format_legal_date s] is [s] without its
    leading and trailing whitespace, and nothing else is changed: [s] is
    the result between a run of whitespace on the left and one on the
    right, and the result neither starts nor ends with whitespace. *)
Theorem format_legal_date_strips (s : str) :
  exists l r,
    s = l ++ format_legal_date s ++ r /\
    forallb isspace l = true /\ forallb isspace r = true /\
    head_space (format_legal_date s) = false /\
    head_space (rev (format_legal_date s)) = false.
Proof. unfold format_legal_date. apply strip_spec. Qed.

Lemma tokens_cons_space x t toks :
  isspace x = true -> tokens t toks -> tokens (x :: t) toks.
Proof.
  intros Hx H. inversion H; subst.
  - apply (tokens_none (x :: t)). simpl. now rewrite Hx.
  - apply (tokens_one (x :: ws) tok rest); simpl; trivial. now rewrite Hx.
Qed.

Lemma existsb_rev (f : char -> bool) l : existsb f (rev l) = existsb f l.
Proof.
  induction l as [|y l IH]; simpl; [reflexivity|].
  rewrite existsb_app, IH. simpl. rewrite orb_false_r. apply orb_comm.
Qed.

Lemma tokens_last acc rest toks :
  acc <> [] -> existsb isspace acc = false ->
  (rest = [] \/ head_space rest = true) -> tokens rest toks ->
  tokens (rev acc ++ rest) (rev acc :: toks).
Proof.
  intros Hne Hacc Hrest Ht.
  apply (tokens_one [] (rev acc) rest); trivial.
  - intros E. apply (f_equal (@rev char)) in E.
    now rewrite rev_involutive in E.
  - now rewrite existsb_rev.
Qed.

Lemma split_ws_tokens s : forall acc,
  existsb isspace acc = false ->
  tokens (rev acc ++ s) (split_ws acc s).
Proof.
  induction s as [|x t IH]; intros acc Hacc; simpl.
  - destruct acc as [|a acc]; [now constructor|].
    apply tokens_last; auto; try easy. now constructor.
  - destruct (isspace x) eqn:Hx.
    + destruct acc as [|a acc].
      * apply tokens_cons_space; trivial. now apply (IH []).
      * apply tokens_last; auto; try easy.
        apply tokens_cons_space; trivial. now apply (IH []).
    + rewrite <- rev_cons_app. apply IH. simpl. now rewrite Hx.
Qed.

Lemma split_tokens s : tokens s (split s).
Proof. now apply (split_ws_tokens s []). Qed.


Lemma expand_parts_map todo : forall parts,
  expand_parts todo parts = Ok (parts ++ map expand todo).
Proof.
  induction todo as [|part rest IH]; intros parts; simpl.
  - now rewrite app_nil_r.
  - unfold dict_in, dict_item, expand.
    destruct (dict_get COURT_ABBREVIATIONS part); simpl;
      now rewrite IH, <- app_assoc.
Qed.

Lemma normalize_court_name_eq abbr :
  normalize_court_name abbr =
  Ok (match dict_get COURT_ABBREVIATIONS abbr with
      | Some full => full
      | None => join (lit " ") (map expand (split abbr))
      end).
Proof.
  unfold normalize_court_name, dict_in, dict_item.
  destruct (dict_get COURT_ABBREVIATIONS abbr); [reflexivity|].
  now rewrite expand_parts_map.
Qed.


Lemma keyword_found_existsb t kws :
  keyword_found t kws = existsb (fun kw => contains kw t) kws.
Proof.
  induction kws as [|k kws IH]; simpl; [reflexivity|].
  rewrite IH. now destruct (contains k t).
Qed.

Lemma scan_types_find t types :
  scan_types t types =
  option_map fst
    (find (fun e => existsb (fun kw => contains kw t) (snd e)) types).
Proof.
  induction types as [|[ty kws] types IH]; simpl; [reflexivity|].
  rewrite keyword_found_existsb, IH.
  now destruct (existsb (fun kw => contains kw t) kws).
Qed.

Lemma extract_document_type_eq t :
  extract_document_type U t = spec_document_type U t.
Proof.
  unfold extract_document_type, spec_document_type.
  rewrite scan_types_find.
  now destruct (find _ DOCUMENT_TYPES).
Qed.

Lemma extract_document_type_lower t :
  lower U (lower U t) = lower U t ->
  extract_document_type U (lower U t) = extract_document_type U t.
Proof. intros H. unfold extract_document_type. now rewrite H. Qed.

(** C5. [extract_document_type t] is the label of the first type of the
    Document Type Table, in the order contract, motion, brief, complaint,
    order, opinion, statute, regulation, one of whose keywords occurs in
    the lowered text, and "unknown" when there is none. The answer for the
    lowered text is the answer for the text, for every text below U+0100
    and for every text that lowering leaves lowered. *)
Theorem extract_document_type_spec (t : str) :
  extract_document_type U t = spec_document_type U t /\
  map fst DOCUMENT_TYPES =
    map lit ["contract"; "motion"; "brief"; "complaint"; "order";
             "opinion"; "statute"; "regulation"]%string /\
  (forallb (fun c => c <? 256) t = true ->
   extract_document_type U (lower U t) = extract_document_type U t) /\
  (lower U (lower U t) = lower U t ->
   extract_document_type U (lower U t) = extract_document_type U t) /\
  extract_document_type U (lit "MOTION to dismiss") = lit "motion" /\
  extract_document_type U (lit "motion to dismiss") = lit "motion" /\
  extract_document_type U (lit "petition for review") = lit "motion" /\
  extract_document_type U [] = lit "unknown".
Proof.
  split; [apply extract_document_type_eq|].
  split; [reflexivity|].
  split; [intros H; apply extract_document_type_lower;
          now apply lower_latin1_text|].
  split; [apply extract_document_type_lower|].
  repeat split; vm_compute; reflexivity.
Qed.

End Simple.

(** ** Reading the patterns *)

Section Patterns.

Variable U : ucd.

Lemma forallb_same (f h : char -> bool) w :
  (forall x, f x = h x) -> forallb f w = forallb h w.
Proof.
  intros E. induction w as [|x w IH]; simpl; [reflexivity|].
  now rewrite E, IH.
Qed.

Lemma forallb_space w :
  forallb (cset_mem U [CSpace]) w = forallb isspace w.
Proof. apply forallb_same. intros x. simpl. apply orb_false_r. Qed.

Lemma forallb_digit w :
  forallb (cset_mem U [CDigit]) w = forallb (isdecimal U) w.
Proof. apply forallb_same. intros x. simpl. apply orb_false_r. Qed.

Lemma den_text w : forall pre rest g p' r' g',
  den U (text w) pre rest g p' r' g' <->
  rest = w ++ r' /\ p' = rev w ++ pre /\ g' = g.
Proof.
  unfold text. induction w as [|c w IH]; intros pre rest g p' r' g'; simpl.
  - unfold stay. intuition congruence.
  - split.
    + intros (p & r & g1 & (-> & -> & ->) & D).
      apply IH in D as (-> & -> & ->). now rewrite <- app_assoc.
    + intros (-> & -> & ->). exists (c :: pre), (w ++ r'), g.
      split; [easy|]. apply IH. now rewrite <- app_assoc.
Qed.

Lemma search_from_sound r rest : forall pre m,
  search_from U r pre rest = Some m ->
  exists a b, rest = a ++ b /\ match_at U r false (rev a ++ pre) b = Some m.
Proof.
  induction rest as [|c t IH]; intros pre m H; simpl in H.
  - destruct (match_at U r false pre []) eqn:E; [|discriminate].
    exists [], []. now rewrite <- H.
  - destruct (match_at U r false pre (c :: t)) eqn:E.
    + exists [], (c :: t). now rewrite <- H.
    + apply IH in H as (a & b & -> & H). exists (c :: a), b.
      now rewrite rev_cons_app.
Qed.

Lemma group_head n w g p r : group (p, r, (n, w) :: g) n = Ok w.
Proof. unfold group. simpl. now rewrite Nat.eqb_refl. Qed.

(** *** [PARAGRAPH_NUMBER] *)

Lemma paragraph_match_sound line m :
  re_match U LegalPatterns.PARAGRAPH_NUMBER line = Some m ->
  exists ws ds rest,
    line = ws ++ ch "[" :: ds ++ ch "]" :: rest /\
    forallb isspace ws = true /\ ds <> [] /\
    forallb (isdecimal U) ds = true /\ group m 1 = Ok ds.
Proof.
  destruct m as [[p r] g]. intros H. apply match_at_sound in H.
  simpl in H. break. subst.
  rewrite forallb_space, forallb_digit in *.
  rewrite <- rev_cons_app, consumed_app.
  eexists _, _, _. repeat split; eauto using group_head.
Qed.

Lemma paragraph_match_complete ws ds rest :
  forallb isspace ws = true -> ds <> [] ->
  forallb (isdecimal U) ds = true ->
  re_match U LegalPatterns.PARAGRAPH_NUMBER
           (ws ++ ch "[" :: ds ++ ch "]" :: rest) <> None.
Proof.
  intros Hws Hne Hds.
  apply (match_at_complete U _ _ _
           (ch "]" :: rev ds ++ ch "[" :: rev ws ++ []) rest
           [(1%nat, consumed (ch "[" :: rev ws ++ [])
                             (rev ds ++ ch "[" :: rev ws ++ []))]).
  simpl. unfold stay, reads.
  exists [], (ws ++ ch "[" :: ds ++ ch "]" :: rest), []. split; [easy|].
  exists (rev ws ++ []), (ch "[" :: ds ++ ch "]" :: rest), [].
  split; [exists ws; now rewrite forallb_space|].
  exists (ch "[" :: rev ws ++ []), (ds ++ ch "]" :: rest), [].
  split; [easy|].
  eexists (rev ds ++ ch "[" :: rev ws ++ []), (ch "]" :: rest), _.
  split.
  { eexists. split; [|reflexivity]. exists ds. now rewrite forallb_digit. }
  eexists _, rest, _. split; [easy|].
  eexists _, rest, _. split; [|easy]. now exists [].
Qed.

Lemma decimal_value_snoc ds c d n :
  decimal_value U ds = Some n -> decimal U c = Some d ->
  decimal_value U (ds ++ [c]) = Some (d + 10 * n).
Proof.
  unfold decimal_value. rewrite rev_app_distr. cbn [rev app place_value].
  now intros -> ->.
Qed.

(** [int_from] carries on the positional value of the digits already
    read. *)
Lemma int_from_value ds : forall pre acc,
  forallb (isdecimal U) ds = true ->
  decimal_value U pre = Some acc ->
  exists n, int_from U acc ds = Ok n /\
            decimal_value U (pre ++ ds) = Some n.
Proof.
  induction ds as [|c ds IH]; intros pre acc H Hp.
  - exists acc. now rewrite app_nil_r.
  - cbn [forallb] in H. apply andb_true_iff in H as [Hc H].
    unfold isdecimal in Hc.
    destruct (decimal U c) as [d|] eqn:D; [|discriminate].
    cbn [int_from]. rewrite D.
    destruct (IH (pre ++ [c]) (10 * acc + d) H) as (n & E1 & E2).
    { rewrite (decimal_value_snoc pre c d acc Hp D). f_equal.
      apply N.add_comm. }
    exists n. split; [exact E1|]. now rewrite <- app_assoc in E2.
Qed.

Lemma int_digits ds :
  ds <> [] -> forallb (isdecimal U) ds = true ->
  (length ds <= int_max_str_digits)%nat ->
  exists n, int U ds = Ok n /\ decimal_value U ds = Some n.
Proof.
  intros Hne H L. unfold int. destruct ds as [|c t]; [easy|].
  destruct (Nat.ltb_spec int_max_str_digits (length (c :: t))) as [Lt|_];
    [exfalso; exact (Nat.lt_irrefl _ (Nat.lt_le_trans _ _ _ Lt L))|].
  now apply (int_from_value (c :: t) [] 0 H).
Qed.

Lemma int_oversized ds :
  (int_max_str_digits < length ds)%nat -> int U ds = Raise ValueError.
Proof.
  intros L. unfold int. destruct ds as [|c t]; [reflexivity|].
  destruct (Nat.ltb_spec int_max_str_digits (length (c :: t))) as [_|Le];
    [reflexivity|].
  exfalso. exact (Nat.lt_irrefl _ (Nat.lt_le_trans _ _ _ L Le)).
Qed.

Lemma int_from_raises s : forall acc e,
  int_from U acc s = Raise e -> e = ValueError.
Proof.
  induction s as [|c t IH]; intros acc e; cbn [int_from]; [discriminate|].
  destruct (decimal U c); [apply IH|]. now intros [= <-].
Qed.

(** [int] raises nothing but [ValueError]. *)
Lemma int_raises s e : int U s = Raise e -> e = ValueError.
Proof.
  unfold int. destruct s as [|c t]; [now intros [= <-]|].
  destruct (int_max_str_digits <? length (c :: t))%nat;
    [now intros [= <-]|apply int_from_raises].
Qed.

(** A run of characters of one kind before a character of another kind
    is determined by the text. *)
Lemma prefix_unique (f : char -> bool) a : forall a' c c' x x',
  forallb f a = true -> forallb f a' = true ->
  f c = false -> f c' = false ->
  a ++ c :: x = a' ++ c' :: x' -> a = a' /\ x = x'.
Proof.
  induction a as [|y a IH]; intros [|y' a'] c c' x x' Ha Ha' Hc Hc' E;
    simpl in *.
  - now injection E.
  - injection E as -> _. apply andb_true_iff in Ha' as [Hy _]. congruence.
  - injection E as <- _. apply andb_true_iff in Ha as [Hy _]. congruence.
  - injection E as <- E. apply andb_true_iff in Ha as [_ Ha].
    apply andb_true_iff in Ha' as [_ Ha'].
    now destruct (IH _ _ _ _ _ Ha Ha' Hc Hc' E) as (-> & ->).
Qed.

(** A line has one reading at most as a numbered line. *)
Lemma bracket_unique ws ds rest ws' ds' rest' :
  forallb isspace ws = true -> forallb isspace ws' = true ->
  forallb (isdecimal U) ds = true -> forallb (isdecimal U) ds' = true ->
  ws ++ ch "[" :: ds ++ ch "]" :: rest
  = ws' ++ ch "[" :: ds' ++ ch "]" :: rest' ->
  ds = ds'.
Proof.
  intros Hws Hws' Hds Hds' E.
  apply (prefix_unique isspace) in E as [_ E]; trivial.
  now apply (prefix_unique (isdecimal U)) in E as [E _].
Qed.

End Patterns.

(** ** [extract_paragraph_numbers] *)

Section Paragraphs.

Variable U : ucd.

Lemma collect_numbers_collected lines :
  (forall line, In line lines -> ~ oversized U line) ->
  forall numbers,
  exists ns, collect_numbers U lines numbers = Ok (numbers ++ ns) /\
             collected U lines ns.
Proof.
  induction lines as [|line lines IH]; intros Hfit numbers;
    cbn [collect_numbers].
  - exists []. rewrite app_nil_r. split; [reflexivity|constructor].
  - assert (Hrest : forall l, In l lines -> ~ oversized U l)
      by (intros l Hl; apply Hfit; now right).
    destruct (re_match U LegalPatterns.PARAGRAPH_NUMBER line) as [m|] eqn:E.
    + apply paragraph_match_sound in E
        as (ws & ds & rest & E & Hws & Hne & Hds & Hg).
      assert (L : (length ds <= int_max_str_digits)%nat).
      { apply Nat.nlt_ge. intros L. apply (Hfit line); [now left|].
        now exists ws, ds, rest. }
      destruct (int_digits U ds Hne Hds L) as (n & Hn & Hv).
      rewrite Hg. cbn [bind]. rewrite Hn. cbn [bind].
      destruct (IH Hrest (numbers ++ [n])) as (ns & -> & Hc).
      exists (n :: ns). rewrite <- app_assoc. split; [reflexivity|].
      apply collected_hit; [|exact Hc]. now exists ws, ds, rest.
    + destruct (IH Hrest numbers) as (ns & -> & Hc).
      exists ns. split; [reflexivity|].
      apply collected_miss; [|exact Hc].
      intros n (ws & ds & rest & -> & Hws & Hne & Hds & _).
      now apply (paragraph_match_complete U ws ds rest).
Qed.

(** A line with too many digits stops the loop with [ValueError]. *)
Lemma collect_numbers_raises lines :
  (exists line, In line lines /\ oversized U line) ->
  forall numbers, collect_numbers U lines numbers = Raise ValueError.
Proof.
  induction lines as [|line lines IH]; intros (l & Hin & Hl) numbers;
    [destruct Hin|].
  cbn [collect_numbers].
  destruct (re_match U LegalPatterns.PARAGRAPH_NUMBER line) as [m|] eqn:E.
  - apply paragraph_match_sound in E
      as (ws' & ds' & rest' & E & Hws' & Hne' & Hds' & Hg).
    rewrite Hg. cbn [bind].
    destruct (int U ds') as [n|e] eqn:I; cbn [bind].
    + apply IH. exists l. split; [|exact Hl].
      destruct Hin as [<- | Hin]; [exfalso|exact Hin].
      destruct Hl as (ws & ds & rest & E2 & Hws & Hds & L).
      rewrite E in E2.
      rewrite (bracket_unique U _ _ _ _ _ _ Hws' Hws Hds' Hds E2) in I.
      now rewrite (int_oversized U ds L) in I.
    + now rewrite (int_raises U ds' e I).
  - apply IH. exists l. split; [|exact Hl].
    destruct Hin as [<- | Hin]; [exfalso|exact Hin].
    destruct Hl as (ws & ds & rest & -> & Hws & Hds & L).
    apply (paragraph_match_complete U ws ds rest); trivial.
    intros ->. inversion L.
Qed.

(** The loop raises nothing but [ValueError]. *)
Lemma collect_numbers_error lines : forall numbers e,
  collect_numbers U lines numbers = Raise e -> e = ValueError.
Proof.
  induction lines as [|line lines IH]; intros numbers e;
    cbn [collect_numbers]; [discriminate|].
  destruct (re_match U LegalPatterns.PARAGRAPH_NUMBER line) as [m|] eqn:E;
    [|apply IH].
  apply paragraph_match_sound in E as (ws & ds & rest & _ & _ & _ & _ & Hg).
  rewrite Hg. cbn [bind].
  destruct (int U ds) as [n|e'] eqn:I; cbn [bind]; [apply IH|].
  intros [= <-]. exact (int_raises U ds e' I).
Qed.

(** A line that is not longer than a number may be has no number that is
    too long. *)
Lemma short_line_fits line :
  (length line <= int_max_str_digits)%nat -> ~ oversized U line.
Proof.
  intros L (ws & ds & rest & -> & _ & _ & Lt).
  rewrite length_app in L. cbn [length] in L. rewrite length_app in L.
  apply (Nat.lt_irrefl (length ds)).
  apply (Nat.le_lt_trans _ int_max_str_digits); [|exact Lt].
  apply (Nat.le_trans _ (length ws + S (length ds + length (ch "]" :: rest))));
    [|exact L].
  rewrite Nat.add_succ_r. apply Nat.le_trans with (length ds + length (ch "]" :: rest))%nat.
  - apply Nat.le_add_r.
  - apply Nat.le_trans with (length ws + (length ds + length (ch "]" :: rest)))%nat.
    + apply Nat.le_add_l.
    + apply Nat.le_succ_diag_r.
Qed.

Lemma split_char_nonempty c s : forall acc, split_char c acc s <> [].
Proof.
  induction s as [|x t IH]; intros acc; simpl; [easy|].
  destruct (x =? c); [easy|apply IH].
Qed.

Lemma join_cons sep p ps :
  ps <> [] -> join sep (p :: ps) = p ++ sep ++ join sep ps.
Proof. destruct ps; [easy|reflexivity]. Qed.

Lemma split_char_join c s : forall acc,
  join [c] (split_char c acc s) = rev acc ++ s.
Proof.
  induction s as [|x t IH]; intros acc; simpl split_char.
  - simpl. now rewrite app_nil_r.
  - destruct (N.eqb_spec x c) as [->|Hx].
    + rewrite join_cons by apply split_char_nonempty. now rewrite IH.
    + rewrite IH. apply rev_cons_app.
Qed.

Lemma split_char_lines c s : forall acc,
  existsb (N.eqb c) acc = false ->
  forallb (fun l => negb (existsb (N.eqb c) l)) (split_char c acc s) = true.
Proof.
  induction s as [|x t IH]; intros acc H; cbn [split_char forallb].
  - rewrite existsb_rev. now rewrite H.
  - destruct (N.eqb_spec x c) as [->|Hx]; cbn [forallb].
    + rewrite existsb_rev. rewrite H. now apply IH.
    + apply IH. cbn [existsb]. rewrite H.
      destruct (N.eqb_spec c x); [congruence|reflexivity].
Qed.

(** C8. [extract_paragraph_numbers text] splits [text] on newlines and
    returns, in line order and with duplicates, the integer of every line
    that starts with optional whitespace, an opening bracket, one or more
    digits and a closing bracket; the other lines give nothing. The
    integer is the value of the digits in positional notation. That is so
    when no such line has more digits than [int] accepts; when one has,
    the call raises [ValueError]. *)
Theorem extract_paragraph_numbers_spec (text : str) :
  ((forall line, In line (split_char 10 [] text) -> ~ oversized U line) ->
   exists ns,
     extract_paragraph_numbers U text = Ok ns /\
     collected U (split_char 10 [] text) ns) /\
  ((exists line, In line (split_char 10 [] text) /\ oversized U line) ->
   extract_paragraph_numbers U text = Raise ValueError) /\
  join [10] (split_char 10 [] text) = text /\
  forallb (fun l => negb (existsb (N.eqb 10) l)) (split_char 10 [] text)
    = true /\
  extract_paragraph_numbers U
    (lit "[1] First" ++ 10 :: lit "[2] Second" ++ 10 ::
     lit "Not numbered" ++ 10 :: lit "[3] Third") = Ok [1; 2; 3] /\
  extract_paragraph_numbers U
    (lit "[7] a" ++ 10 :: lit " [7] b" ++ 10 :: lit "[2]") = Ok [7; 7; 2] /\
  extract_paragraph_numbers U
    (lit "[12] a" ++ 10 :: lit "[007]" ++ 10 :: lit "  [2050] b")
  = Ok [12; 7; 2050].
Proof.
  split.
  { intros Hfit. unfold extract_paragraph_numbers.
    destruct (collect_numbers_collected (split_char 10 [] text) Hfit [])
      as (ns & E & Hc).
    now exists ns. }
  split.
  { intros Hlong. unfold extract_paragraph_numbers.
    now apply collect_numbers_raises. }
  split; [apply (split_char_join 10 text [])|].
  split; [now apply split_char_lines|].
  repeat split; vm_compute; reflexivity.
Qed.

End Paragraphs.

(** ** [extract_party_names] *)

Section Parties.

Variable U : ucd.

Lemma forallb_name w :
  forallb (cset_mem U LegalPatterns.name_chars) w = forallb name_char w.
Proof.
  apply forallb_same. intros x. unfold name_char. simpl.
  now rewrite orb_false_r, !orb_assoc.
Qed.

Lemma consumed_cons_app x w pre : consumed pre (rev w ++ x :: pre) = x :: w.
Proof. rewrite <- rev_cons_app. apply consumed_app. Qed.

Lemma consumed_single x w : consumed [] (rev w ++ [x]) = x :: w.
Proof. apply consumed_cons_app. Qed.

Lemma group_second n k w v g p r :
  Nat.eqb k n = false -> group (p, r, (k, v) :: (n, w) :: g) n = Ok w.
Proof. intros H. unfold group. simpl. now rewrite H, Nat.eqb_refl. Qed.

(** A match of [PARTY_NAME] is a case name, and its groups are the two
    parties. *)
Lemma party_match_sound s m :
  re_match U LegalPatterns.PARTY_NAME s = Some m ->
  exists g1 g2,
    party_shape s g1 g2 /\ group m 1 = Ok g1 /\ group m 2 = Ok g2.
Proof.
  destruct m as [[p r] g]. intros H. apply match_at_sound in H.
  simpl in H. break; subst.
  rewrite ?forallb_space, ?forallb_name, ?orb_false_r in *.
  rewrite consumed_single, consumed_cons_app in *.
  match goal with H : _ \/ _ |- _ => destruct H as [D | D] end; break; subst.
  - eexists _, _. split; [|split; [now apply group_second|apply group_head]].
    eexists _, _, _. split; [reflexivity|].
    rewrite forallb_space in *.
    repeat split; try assumption;
      try (eexists _, _; repeat split; eassumption || reflexivity).
    right. eexists _, _. split; [reflexivity|assumption].
  - eexists _, _. split; [|split; [now apply group_second|apply group_head]].
    eexists _, _, _. split; [reflexivity|].
    repeat split; try assumption;
      try (eexists _, _; repeat split; eassumption || reflexivity).
    now left.
Qed.

Ltac name_read c w :=
  eexists; split; [|reflexivity];
  eexists _, _, _; split; [exists c; rewrite orb_false_r; easy|];
  eexists _, _, _; split; [|easy];
  exists w; rewrite forallb_name; easy.

Ltac party_read c1 w1 ws1 ws2 c2 w2 :=
  eexists _, _, _; eexists _, _, _; split; [easy|];
  eexists _, _, _; split; [name_read c1 w1|];
  eexists _, _, _; split; [exists ws1; rewrite forallb_space; easy|];
  eexists _, _, _; split;
    [eexists _, _, _; split; [easy|]; eexists _, _, _; split; easy|];
  eexists _, _, _; split; [exists ws2; rewrite forallb_space; easy|];
  eexists _, _, _; split; [name_read c2 w2|];
  eexists _, _, _; split; [|easy].

(** Every case name is matched. *)
Lemma party_match_complete s g1 g2 :
  party_shape s g1 g2 -> re_match U LegalPatterns.PARTY_NAME s <> None.
Proof.
  intros (ws1 & ws2 & tail & -> & (c1 & w1 & -> & Hc1 & Hn1 & Hw1) &
          (c2 & w2 & -> & Hc2 & Hn2 & Hw2) & (Hs1 & Hws1) & (Hs2 & Hws2) & Ht).
  unfold re_match.
  assert (D : exists p r g,
             den U LegalPatterns.PARTY_NAME []
                 ((c1 :: w1) ++ ws1 ++ lit "v." ++ ws2 ++ (c2 :: w2) ++ tail)
                 [] p r g).
  { destruct Ht as [He | (ws3 & rest & -> & Hws3)];
      simpl; unfold stay, reads; party_read c1 w1 ws1 ws2 c2 w2.
    - right. easy.
    - left. eexists _, _, _.
      split; [exists ws3; rewrite forallb_space; easy|].
      eexists _, _, _. split; easy. }
  destruct D as (p & r & g & D). now apply match_at_complete in D.
Qed.

(** The first steps of the matcher on [PARTY_NAME]: a capital letter, then
    the lazy loop of the first name. *)
Lemma party_exec s :
  re_match U LegalPatterns.PARTY_NAME s =
  match s with
  | x :: t => if between (ch "A") (ch "Z") x
              then plus_lazy U LegalPatterns.name_chars (after_name1 U) [x] t
              else None
  | [] => None
  end.
Proof.
  destruct s as [|x t]; [reflexivity|].
  unfold re_match. rewrite match_at_exec.
  cbn -[text lit plus_lazy plus_greedy]. rewrite orb_false_r. reflexivity.
Qed.

(** A literal text is read character by character. *)
Lemma exec_text w : forall pre rest g k m,
  exec U (text w) pre rest g k = Some m ->
  exists r', rest = w ++ r' /\ k (rev w ++ pre) r' g = Some m.
Proof.
  unfold text. induction w as [|c w IH]; intros pre rest g k m H.
  - now exists rest.
  - cbn [map seq exec] in H. destruct rest as [|x t]; [discriminate|].
    destruct (N.eqb_spec x c) as [->|]; [|discriminate].
    apply IH in H as (r' & -> & H). exists r'. now rewrite rev_cons_app.
Qed.

(** The ending of the pattern succeeds exactly on a terminated text. *)
Lemma ending_sound p r g m :
  exec U party_ending p r g accept = Some m ->
  terminated r /\ snd m = g.
Proof.
  intros H. apply exec_sound in H as (p' & r' & g' & D & H).
  unfold accept in H. injection H as <-. simpl in D. break; subst.
  match goal with H : _ \/ _ |- _ => destruct H as [D | D] end; break; subst.
  - split; [|reflexivity]. right. rewrite forallb_space in *. eauto.
  - split; [|reflexivity]. now left.
Qed.

Lemma ending_complete p r g :
  terminated r -> exec U party_ending p r g accept <> None.
Proof.
  intros T.
  assert (D : exists p' r' g', den U party_ending p r g p' r' g').
  { simpl. unfold stay, reads.
    destruct T as [He | (ws & rest & -> & Hws)].
    - eexists _, _, _. eexists _, _, _. split; [|easy]. right. easy.
    - eexists _, _, _. eexists _, _, _. split; [|easy]. left.
      eexists _, _, _. split; [exists ws; rewrite forallb_space; easy|].
      eexists _, _, _. split; easy. }
  destruct D as (p' & r' & g' & D).
  eapply exec_complete; [exact D|easy].
Qed.

Lemma after_name1_unfold p r :
  after_name1 U p r =
  plus_greedy U [CSpace] (after_sep1 U [(1%nat, consumed [] p)]) p r.
Proof. reflexivity. Qed.

(** What a success after the first name amounts to; the second name is the
    shortest after which the text is terminated. *)
Lemma tail_sound p r m :
  after_name1 U p r = Some m ->
  exists ws1 ws2 c2 w2 rest',
    r = ws1 ++ lit "v." ++ ws2 ++ (c2 :: w2) ++ rest' /\
    spaces1 ws1 /\ spaces1 ws2 /\ is_name (c2 :: w2) /\ terminated rest' /\
    snd m = [(2%nat, c2 :: w2); (1%nat, consumed [] p)] /\
    forall w2a w2b, w2 = w2a ++ w2b -> w2a <> [] -> w2b <> [] ->
                    ~ terminated (w2b ++ rest').
Proof.
  rewrite after_name1_unfold. intros H.
  apply plus_greedy_sound in H.
  destruct H as (ws1 & r1 & Hn1 & Hw1 & -> & H).
  unfold after_sep1 in H. apply exec_text in H as (r2 & -> & H).
  apply plus_greedy_sound in H.
  destruct H as (ws2 & r3 & Hn2 & Hw2 & -> & H).
  unfold after_sep2 in H. destruct r3 as [|c2 t]; [discriminate|].
  destruct (cset_mem U [CRange (ch "A") (ch "Z")] c2) eqn:Hc2; [|discriminate].
  apply plus_lazy_first in H as (w2 & rest' & Hn & Hw & -> & H & Hmin).
  unfold after_name2 in H. apply ending_sound in H as [T G].
  rewrite consumed_cons_app in G.
  exists ws1, ws2, c2, w2, rest'.
  rewrite forallb_space in Hw1, Hw2. rewrite forallb_name in Hw.
  simpl in Hc2. rewrite orb_false_r in Hc2.
  repeat split; trivial.
  - exists c2, w2. easy.
  - intros w2a w2b E Ha Hb T'.
    specialize (Hmin w2a w2b E Ha Hb). unfold after_name2 in Hmin.
    now apply (ending_complete _ _ _ T') in Hmin.
Qed.

(** After a first name of any reading, the rest of the pattern succeeds. *)
Lemma tail_complete p ws1 ws2 g2 tail :
  spaces1 ws1 -> spaces1 ws2 -> is_name g2 -> terminated tail ->
  after_name1 U p (ws1 ++ lit "v." ++ ws2 ++ g2 ++ tail) <> None.
Proof.
  intros [Hs1 Hws1] [Hs2 Hws2] (c2 & w2 & -> & Hc2 & Hn2 & Hw2) Ht.
  unfold after_name1.
  assert (D : exists p' r' g',
             den U (seq [ RPlus [CSpace]; text (lit "v."); RPlus [CSpace];
                          RGroup 2 LegalPatterns.name;
                          alt [ seq [RStar [CSpace]; RChar (ch ",")]; REol ] ])
                 p (ws1 ++ lit "v." ++ ws2 ++ (c2 :: w2) ++ tail)
                 [(1%nat, consumed [] p)] p' r' g').
  { destruct Ht as [He | (ws3 & rest & -> & Hws3)];
      simpl; unfold stay, reads;
      (eexists _, _, _; eexists _, _, _;
       split; [exists ws1; rewrite forallb_space; easy|];
       eexists _, _, _; split;
         [eexists _, _, _; split; [easy|]; eexists _, _, _; split; easy|];
       eexists _, _, _; split; [exists ws2; rewrite forallb_space; easy|];
       eexists _, _, _; split; [name_read c2 w2|];
       eexists _, _, _; split; [|easy]).
    - right. easy.
    - left. eexists _, _, _.
      split; [exists ws3; rewrite forallb_space; easy|].
      eexists _, _, _. split; easy. }
  destruct D as (p' & r' & g' & D).
  eapply exec_complete; [exact D|easy].
Qed.

Lemma upper_not_space c :
  between (ch "A") (ch "Z") c = true -> isspace c = false.
Proof.
  intros H. destruct (isspace c) eqn:E; [|reflexivity].
  unfold isspace, between in *. simpl in H. bool_to_prop; lia.
Qed.

(** A run of whitespace before a character that is not whitespace is
    determined by the text. *)
Lemma run_unique a : forall a' c c' x x',
  forallb isspace a = true -> forallb isspace a' = true ->
  isspace c = false -> isspace c' = false ->
  a ++ c :: x = a' ++ c' :: x' -> a = a' /\ c = c' /\ x = x'.
Proof.
  induction a as [|y a IH]; intros [|y' a'] c c' x x' Ha Ha' Hc Hc' E;
    simpl in *.
  - now injection E.
  - injection E as -> _. apply andb_true_iff in Ha' as [Hy _]. congruence.
  - injection E as <- _. apply andb_true_iff in Ha as [Hy _]. congruence.
  - injection E as <- E. apply andb_true_iff in Ha as [_ Ha].
    apply andb_true_iff in Ha' as [_ Ha'].
    destruct (IH _ _ _ _ _ Ha Ha' Hc Hc' E) as (-> & -> & ->). easy.
Qed.

Lemma shorter_prefix (v w x y : list N) :
  v ++ x = w ++ y -> (length v < length w)%nat ->
  exists u, w = v ++ u /\ u <> [] /\ x = u ++ y.
Proof.
  revert w. induction v as [|c v IH]; intros [|c' w] E L; simpl in *;
    try lia.
  - exists (c' :: w). easy.
  - injection E as <- E. destruct (IH w E) as (u & -> & Hu & ->); [lia|].
    now exists u.
Qed.

(** The groups of a match are the reading with the shortest first name
    and, for that name, the shortest second name. *)
Lemma party_match_first s m :
  re_match U LegalPatterns.PARTY_NAME s = Some m ->
  exists g1 g2,
    party_groups s g1 g2 /\ group m 1 = Ok g1 /\ group m 2 = Ok g2.
Proof.
  rewrite party_exec. destruct s as [|c1 t]; [discriminate|].
  destruct (between (ch "A") (ch "Z") c1) eqn:Hc1; [|discriminate].
  intros H. apply plus_lazy_first in H as (w1 & r1 & Hn1 & Hw1 & -> & H & Hmin1).
  apply tail_sound in H
    as (ws1 & ws2 & c2 & w2 & rest' & -> & Hs1 & Hs2 & Hg2 & Ht & G & Hmin2).
  rewrite forallb_name in Hw1. rewrite consumed_single in G.
  destruct m as [[p r] g]. simpl in G. subst g.
  exists (c1 :: w1), (c2 :: w2).
  split; [split; [|split]|split]; cycle 3.
  - now apply group_second.
  - apply group_head.
  - exists ws1, ws2, rest'. split; [reflexivity|].
    split; [exists c1, w1; easy|]. easy.
  - intros h1 h2 (ws1' & ws2' & tail' & E & (d1 & v1 & -> & Hd1 & Hv1 & Hvw1)
                  & Hh2 & Hs1' & Hs2' & Ht').
    cbn [app] in E. injection E as <- E.
    destruct (Nat.le_gt_cases (length (c1 :: w1)) (length (c1 :: v1)))
      as [L | L]; [exact L|exfalso].
    destruct (shorter_prefix v1 w1 _ _ (eq_sym E)) as (u & -> & Hu & E');
      [simpl in L; lia|].
    specialize (Hmin1 v1 u eq_refl Hv1 Hu).
    apply (tail_complete (rev v1 ++ [c1]) _ _ _ _ Hs1' Hs2' Hh2 Ht').
    refine (eq_trans (f_equal (after_name1 U _) _) Hmin1). exact E'.
  - intros h2 (ws1' & ws2' & tail' & E & _ & (d2 & v2 & -> & Hd2 & Hv2 & Hvw2)
               & [Hn1' Hw1'] & [Hn2' Hw2'] & Ht').
    destruct Hs1 as [_ Hws1]. destruct Hs2 as [_ Hws2].
    destruct Hg2 as (c & w & Eg & Hc2 & _). injection Eg as <- <-.
    apply (app_inv_head (c1 :: w1)) in E.
    destruct (run_unique ws1 ws1' (ch "v") (ch "v") _ _
                Hws1 Hw1' eq_refl eq_refl E) as (<- & _ & E2).
    injection E2 as E2.
    destruct (run_unique _ _ _ _ _ _ Hws2 Hw2'
                (upper_not_space _ Hc2) (upper_not_space _ Hd2) E2)
      as (<- & <- & E3).
    destruct (Nat.le_gt_cases (length (c2 :: w2)) (length (c2 :: v2)))
      as [L | L]; [exact L|exfalso].
    destruct (shorter_prefix v2 w2 _ _ (eq_sym E3)) as (u & -> & Hu & E');
      [simpl in L; lia|].
    apply (Hmin2 v2 u eq_refl Hv2 Hu). now rewrite <- E'.
Qed.

Lemma app_same_length (a a' x x' : list N) :
  a ++ x = a' ++ x' -> length a = length a' -> a = a' /\ x = x'.
Proof.
  revert a'. induction a as [|c a IH]; intros [|c' a'] E L; simpl in *;
    try discriminate; [easy|].
  injection E as -> E. injection L as L.
  destruct (IH _ E L) as [-> ->]. easy.
Qed.

(** [split1] cuts at the first occurrence of the separator. *)
Lemma split_first_found sep s : forall acc,
  contains sep s = true ->
  exists a b, first_at sep s a b /\
              split_first sep acc s = [rev acc ++ a; b].
Proof.
  induction s as [|c t IH]; intros acc H.
  - simpl in H. rewrite orb_false_r in H.
    exists [], (skipn (length sep) []). unfold first_at. simpl split_first.
    rewrite H, app_nil_r. repeat split.
    + now apply startswith_split.
    + intros; simpl; lia.
  - simpl in H. simpl split_first.
    destruct (startswith sep (c :: t)) eqn:Hs.
    + exists [], (skipn (length sep) (c :: t)). rewrite app_nil_r.
      repeat split.
      * now apply startswith_split.
      * intros; simpl; lia.
    + simpl in H. destruct (IH (c :: acc) H) as (a & b & [E Hmin] & ->).
      exists (c :: a), b. rewrite rev_cons_app. repeat split.
      * simpl. now rewrite E.
      * intros [|c' a'] b' E'.
        -- simpl in E'. rewrite E', startswith_app in Hs. discriminate.
        -- injection E' as _ E'. simpl. apply le_n_S. eapply Hmin. exact E'.
Qed.

Lemma first_at_unique sep s a b a' b' :
  first_at sep s a b -> first_at sep s a' b' -> a = a' /\ b = b'.
Proof.
  intros [E H] [E' H'].
  assert (L : length a = length a').
  { apply Nat.le_antisymm; [eapply H, E'|eapply H', E]. }
  rewrite E in E'. destruct (app_same_length _ _ _ _ E' L) as [-> E2].
  split; [reflexivity|]. now apply app_inv_head in E2.
Qed.

Lemma split1_first sep s a b :
  first_at sep s a b -> split1 sep s = [a; b].
Proof.
  intros F. assert (C : contains sep s = true).
  { apply contains_iff. destruct F as [E _]. eauto. }
  destruct (split_first_found sep s [] C) as (a' & b' & F' & E).
  destruct (first_at_unique _ _ _ _ _ _ F F') as [-> ->]. exact E.
Qed.

Lemma extract_party_names_match s :
  (exists g1 g2, party_shape s g1 g2) ->
  exists g1 g2, party_groups s g1 g2 /\
                extract_party_names U s = Ok (strip g1, strip g2).
Proof.
  intros (h1 & h2 & Hs). unfold extract_party_names.
  destruct (re_match U LegalPatterns.PARTY_NAME s) as [m|] eqn:E.
  - apply party_match_first in E as (g1 & g2 & Hp & -> & ->).
    now exists g1, g2.
  - now apply party_match_complete in Hs.
Qed.

Lemma extract_party_names_nomatch s :
  ~ (exists g1 g2, party_shape s g1 g2) ->
  re_match U LegalPatterns.PARTY_NAME s = None.
Proof.
  intros Hn. destruct (re_match U LegalPatterns.PARTY_NAME s) as [m|] eqn:E;
    [|reflexivity].
  apply party_match_sound in E as (g1 & g2 & Hp & _). exfalso. eauto.
Qed.

Lemma extract_party_names_split s a b :
  ~ (exists g1 g2, party_shape s g1 g2) ->
  first_at (lit " v. ") s a b ->
  extract_party_names U s = Ok (strip a, strip b).
Proof.
  intros Hn F. unfold extract_party_names.
  rewrite (extract_party_names_nomatch s Hn).
  assert (C : contains (lit " v. ") s = true).
  { apply contains_iff. destruct F as [E _]. eauto. }
  rewrite C. now rewrite (split1_first _ _ _ _ F).
Qed.

Lemma extract_party_names_whole s :
  ~ (exists g1 g2, party_shape s g1 g2) ->
  contains (lit " v. ") s = false ->
  extract_party_names U s = Ok (s, []).
Proof.
  intros Hn C. unfold extract_party_names.
  now rewrite (extract_party_names_nomatch s Hn), C.
Qed.

(** C4, amended. [extract_party_names] has three tiers. If the text is a
    case name (a capital letter followed by one or more letters, whitespace,
    commas or periods; one or more whitespace characters, "v.", one or more
    whitespace characters; a second such name; then optional whitespace and
    a comma, or the end of the text), the result is the two names that the
    pattern captures, stripped: of all such readings, the one with the
    shortest first name and, with it, the shortest second name. Otherwise, if " v. " occurs in the text, the result
    is the text before its first occurrence and the text after it, stripped.
    Otherwise it is the whole text and the empty string. *)
Theorem extract_party_names_tiers (s : str) :
  ((exists g1 g2, party_shape s g1 g2) ->
   exists g1 g2, party_groups s g1 g2 /\
                 extract_party_names U s = Ok (strip g1, strip g2)) /\
  (~ (exists g1 g2, party_shape s g1 g2) ->
   forall a b, first_at (lit " v. ") s a b ->
               extract_party_names U s = Ok (strip a, strip b)) /\
  (~ (exists g1 g2, party_shape s g1 g2) ->
   contains (lit " v. ") s = false ->
   extract_party_names U s = Ok (s, [])) /\
  extract_party_names U (lit "Smith v. Jones") = Ok (lit "Smith", lit "Jones") /\
  extract_party_names U (lit "no separator here")
    = Ok (lit "no separator here", []) /\
  extract_party_names U (lit "Smith v. Jones 123")
    = Ok (lit "Smith", lit "Jones 123") /\
  extract_party_names U (lit "Smith v. Jones v. Doe, 1 U.S. 2")
    = Ok (lit "Smith", lit "Jones v. Doe").
Proof.
  split; [apply extract_party_names_match|].
  split; [intros Hn a b; now apply extract_party_names_split|].
  split; [apply extract_party_names_whole|].
  repeat split; vm_compute; reflexivity.
Qed.

End Parties.

(** ** [is_legal_entity] *)

Section Entities.
Variable U : ucd.

Lemma followed_by_word_eq tok s :
  followed_by_word U tok s =
  (startswith tok s && head_word U (skipn (length tok) s)) ||
  match s with
  | [] => false
  | _ :: t => followed_by_word U tok t
  end.
Proof. destruct s; reflexivity. Qed.

Lemma skipn_length_app (a b : list N) : skipn (length a) (a ++ b) = b.
Proof. induction a; simpl; trivial. Qed.

Lemma followed_by_word_intro tok a : forall b,
  head_word U b = true -> followed_by_word U tok (a ++ tok ++ b) = true.
Proof.
  induction a as [|c a IH]; intros b H; simpl app;
    rewrite followed_by_word_eq.
  - now rewrite startswith_app, skipn_length_app, H.
  - cbv beta iota. rewrite IH by exact H. apply orb_true_r.
Qed.

(** [followed_by_word] says that the token occurs before a word
    character. *)
Lemma followed_by_word_iff tok s :
  followed_by_word U tok s = true <->
  exists a b, s = a ++ tok ++ b /\ head_word U b = true.
Proof.
  split; [|intros (a & b & -> & H); now apply followed_by_word_intro].
  induction s as [|c t IH]; rewrite followed_by_word_eq; intros H;
    apply orb_true_iff in H as [H | H]; try discriminate.
  - apply andb_true_iff in H as [H1 H2].
    exists [], (skipn (length tok) []). split; [|exact H2].
    now apply startswith_split.
  - apply andb_true_iff in H as [H1 H2].
    exists [], (skipn (length tok) (c :: t)). split; [|exact H2].
    now apply startswith_split.
  - destruct (IH H) as (a & b & -> & Hb). now exists (c :: a), b.
Qed.

Lemma existsb_intro {A} (f : A -> bool) l x :
  In x l -> f x = true -> existsb f l = true.
Proof. intros Hin Hf. apply existsb_exists. eauto. Qed.

(** A match of [CORPORATION] is one of the seven tokens, with a word
    boundary after it. *)
Lemma corporation_den pre rest p r g :
  den U LegalPatterns.CORPORATION pre rest [] p r g ->
  exists tok, (In tok dotted_suffixes \/ In tok undotted_suffixes) /\
              rest = tok ++ r /\ boundary U (rev tok ++ pre) r = true.
Proof.
  intros D. cbn -[text lit] in D.
  destruct D as (p0 & r0 & g0 & (_ & -> & -> & ->) & p1 & r1 & g1 & D &
                 p2 & r2 & g2 & (B & -> & -> & ->) & -> & -> & ->).
  repeat destruct D as [D | D]; apply den_text in D as (-> & -> & _);
    eexists; (split; [|split; [reflexivity|exact B]]);
    unfold dotted_suffixes, undotted_suffixes; simpl; tauto.
Qed.

Lemma dotted_not_word tok pre :
  In tok dotted_suffixes -> head_word U (rev tok ++ pre) = false.
Proof.
  unfold dotted_suffixes. simpl.
  intros [<- | [<- | [<- | [<- | []]]]]; reflexivity.
Qed.

(** Where [is_legal_entity] answers true, a dotted token stands before a
    word character or an undotted token occurs. *)
Lemma is_legal_entity_true s :
  is_legal_entity U s = true ->
  existsb (fun tok => followed_by_word U tok s) dotted_suffixes = true \/
  existsb (fun tok => contains tok s) undotted_suffixes = true.
Proof.
  unfold is_legal_entity, re_search. intros H.
  destruct (search_from U LegalPatterns.CORPORATION [] s) as [[[p r] g]|] eqn:E;
    [clear H|discriminate].
  apply search_from_sound in E as (a & b & -> & E).
  apply match_at_sound, corporation_den in E
    as (tok & Hin & -> & B).
  destruct Hin as [Hin | Hin].
  - left. apply (existsb_intro _ _ tok Hin).
    apply followed_by_word_intro.
    unfold boundary in B. now rewrite (dotted_not_word tok _ Hin) in B.
  - right. apply (existsb_intro _ _ tok Hin). apply contains_iff. eauto.
Qed.

(** C2. [is_legal_entity] is false whenever no suffix token that ends in a
    period (Inc., L.L.C., Corp., Co.) occurs in the text with a word
    character right after it, and none of LLC, Corporation, Company occurs:
    the word boundary after the final period only holds before a word
    character. So "Acme Inc." is not an entity and "Acme LLC" is. *)
Theorem is_legal_entity_needs_word_after_period (s : str) :
  existsb (fun tok => followed_by_word U tok s) dotted_suffixes = false ->
  existsb (fun tok => contains tok s) undotted_suffixes = false ->
  is_legal_entity U s = false /\
  is_legal_entity U (lit "Acme Inc.") = false /\
  is_legal_entity U (lit "Acme LLC") = true /\
  is_legal_entity U (lit "Acme Inc.x") = true.
Proof.
  intros H1 H2. split; [|repeat split; vm_compute; reflexivity].
  destruct (is_legal_entity U s) eqn:E; [|reflexivity].
  apply is_legal_entity_true in E as [E | E]; congruence.
Qed.

(** C1, on the code: the text "Acme Corp. filed suit" contains the suffix
    token Corp. as a whole word, and [is_legal_entity] answers false. *)
Theorem is_legal_entity_misses_dotted_suffix :
  is_legal_entity U (lit "Acme Corp. filed suit") = false /\
  contains (lit "Corp.") (lit "Acme Corp. filed suit") = true /\
  is_legal_entity U (lit "no entity mentioned") = false.
Proof. repeat split; vm_compute; reflexivity. Qed.
End Entities.

(** ** Totality *)

Section Totality.

Variable U : ucd.

Lemma normalize_court_name_returns s : returns (normalize_court_name s).
Proof. eexists. apply normalize_court_name_eq. Qed.

Lemma extract_party_names_returns s : returns (extract_party_names U s).
Proof.
  unfold returns, extract_party_names.
  destruct (re_match U LegalPatterns.PARTY_NAME s) as [m|] eqn:E.
  - apply party_match_sound in E as (g1 & g2 & _ & -> & ->). simpl. eauto.
  - destruct (contains (lit " v. ") s) eqn:C; [|eauto].
    destruct (split_first_found (lit " v. ") s [] C) as (a & b & _ & E').
    unfold split1. rewrite E'. simpl. eauto.
Qed.

Lemma extract_paragraph_numbers_returns s :
  (forall line, In line (split_char 10 [] s) -> ~ oversized U line) ->
  returns (extract_paragraph_numbers U s).
Proof.
  intros Hfit. unfold returns, extract_paragraph_numbers.
  destruct (collect_numbers_collected U (split_char 10 [] s) Hfit [])
    as (ns & E & _).
  eauto.
Qed.

Lemma extract_paragraph_numbers_outcome s :
  returns (extract_paragraph_numbers U s) \/
  extract_paragraph_numbers U s = Raise ValueError.
Proof.
  unfold returns, extract_paragraph_numbers.
  destruct (collect_numbers U (split_char 10 [] s) []) as [ns|e] eqn:E.
  - left. now exists ns.
  - right. now rewrite (collect_numbers_error U _ _ _ E).
Qed.

(** C9. On every text the functions return a value, with one exception:
    [extract_paragraph_numbers] raises [ValueError], and nothing else, when
    a line has a paragraph number of more digits than [int] accepts, and
    returns otherwise. The functions that read a table, a group of a match
    or a part of a split never raise, and the other four have nothing that
    can raise. On the empty text the seven results are "unknown",
    ("", ""), [], "", "", "" and false. *)
Theorem functions_return (s : str) :
  returns (normalize_court_name s) /\
  returns (extract_party_names U s) /\
  ((forall line, In line (split_char 10 [] s) -> ~ oversized U line) ->
   returns (extract_paragraph_numbers U s)) /\
  ((exists line, In line (split_char 10 [] s) /\ oversized U line) ->
   extract_paragraph_numbers U s = Raise ValueError) /\
  (returns (extract_paragraph_numbers U s) \/
   extract_paragraph_numbers U s = Raise ValueError) /\
  extract_document_type U [] = lit "unknown" /\
  extract_party_names U [] = Ok ([], []) /\
  extract_paragraph_numbers U [] = Ok [] /\
  clean_legal_text U [] = [] /\
  normalize_court_name [] = Ok [] /\
  format_legal_date [] = [] /\
  is_legal_entity U [] = false.
Proof.
  split; [apply normalize_court_name_returns|].
  split; [apply extract_party_names_returns|].
  split; [apply extract_paragraph_numbers_returns|].
  split.
  { intros Hlong. unfold extract_paragraph_numbers.
    now apply collect_numbers_raises. }
  split; [apply extract_paragraph_numbers_outcome|].
  repeat split; vm_compute; reflexivity.
Qed.

End Totality.

(** ** [clean_legal_text], step by step *)

Section Cleaning.
Variable U : ucd.

Lemma cset_space c : cset_mem U [CSpace] c = isspace c.
Proof. simpl. apply orb_false_r. Qed.

(** The greedy run of whitespace, when whatever follows is accepted. *)
Lemma star_greedy_run g rest : forall pre,
  exists p r,
    star_greedy U [CSpace] (fun p r => accept p r g) pre rest = Some (p, r, g) /\
    length p = (run_length rest + length pre)%nat.
Proof.
  induction rest as [|c t IH]; intros pre; simpl.
  - eexists _, _. split; reflexivity.
  - rewrite orb_false_r. destruct (isspace c).
    + destruct (IH (c :: pre)) as (p & r & -> & L).
      eexists _, _. split; [reflexivity|]. rewrite L. simpl. lia.
    + eexists _, _. split; reflexivity.
Qed.

Lemma match_len_spaces pre rest :
  match_len U (RPlus [CSpace]) false pre rest =
  if head_space rest then Some (run_length rest) else None.
Proof.
  unfold match_len. rewrite match_at_exec. cbn [exec]. unfold plus_greedy.
  destruct rest as [|c t]; [reflexivity|].
  rewrite cset_space. cbn [head_space run_length].
  destruct (isspace c); [|reflexivity].
  destruct (star_greedy_run [] t (c :: pre)) as (p & r & E & L).
  rewrite E. f_equal. rewrite L. simpl. lia.
Qed.

Lemma match_len_token x pre rest :
  match_len U (seq [RWordB; RChar x; RWordB]) false pre rest =
  match rest with
  | c :: t =>
      if (c =? x) && boundary U pre rest && boundary U (c :: pre) t
      then Some 1%nat else None
  | [] => None
  end.
Proof.
  unfold match_len. rewrite match_at_exec. cbn [exec seq].
  destruct (boundary U pre rest) eqn:B.
  - destruct rest as [|c t]; [reflexivity|].
    destruct (c =? x); [|reflexivity]. cbn [andb].
    destruct (boundary U (c :: pre) t); [|reflexivity].
    unfold accept. f_equal. cbn [length]. lia.
  - destruct rest as [|c t]; [reflexivity|]. now rewrite andb_false_r.
Qed.

Lemma match_len_sects pre rest :
  match_len U (text [sect; sect]) false pre rest =
  if startswith [sect; sect] rest then Some 2%nat else None.
Proof.
  unfold match_len. rewrite match_at_exec. unfold text. cbn [map exec seq].
  destruct rest as [|a [|b t]]; cbn [startswith]; rewrite ?(N.eqb_sym sect).
  - reflexivity.
  - rewrite andb_false_r. now destruct (a =? sect).
  - rewrite andb_true_r.
    destruct (a =? sect); [|reflexivity]. destruct (b =? sect); [|reflexivity].
    unfold accept. cbn [length andb]. f_equal. lia.
Qed.

Section Scan.
Variable r : regex.
Variable repl : list N.

Lemma sub_from_hit n pre c t :
  match_len U r false pre (c :: t) = Some (S n) ->
  sub_from U r repl 0 pre (c :: t) = repl ++ sub_from U r repl n (c :: pre) t.
Proof. intros H. cbn [sub_from]. now rewrite H. Qed.

Lemma sub_from_miss pre c t :
  match_len U r false pre (c :: t) = None ->
  sub_from U r repl 0 pre (c :: t) = c :: sub_from U r repl 0 (c :: pre) t.
Proof. intros H. cbn [sub_from]. now rewrite H. Qed.

Lemma sub_from_nil pre :
  match_len U r false pre [] = None -> sub_from U r repl 0 pre [] = [].
Proof. intros H. cbn [sub_from]. now rewrite H. Qed.

Lemma sub_from_skip n pre c t :
  sub_from U r repl (S n) pre (c :: t) = sub_from U r repl n (c :: pre) t.
Proof. reflexivity. Qed.
End Scan.

(** Each [re.sub] of [clean_legal_text] is the step of the
    specification. *)
Lemma sub_spaces rest : forall pre,
  sub_from U (RPlus [CSpace]) (lit " ") 0 pre rest = spec_collapse_ws false rest /\
  sub_from U (RPlus [CSpace]) (lit " ") (run_length rest) pre rest
    = spec_collapse_ws true rest.
Proof.
  induction rest as [|c t IH]; intros pre.
  - split; reflexivity.
  - assert (A : sub_from U (RPlus [CSpace]) (lit " ") 0 pre (c :: t)
                = spec_collapse_ws false (c :: t)).
    { pose proof (match_len_spaces pre (c :: t)) as M.
      cbn [head_space run_length spec_collapse_ws] in *.
      destruct (isspace c).
      - rewrite (sub_from_hit _ _ _ _ _ _ M).
        destruct (IH (c :: pre)) as [_ ->]. reflexivity.
      - rewrite (sub_from_miss _ _ _ _ _ M).
        destruct (IH (c :: pre)) as [-> _]. reflexivity. }
    split; [exact A|].
    cbn [run_length]. destruct (isspace c) eqn:Hc.
    + rewrite sub_from_skip. cbn [spec_collapse_ws]. rewrite Hc. apply IH.
    + rewrite A. cbn [spec_collapse_ws]. now rewrite Hc.
Qed.

Lemma sub_token x y rest : forall pre,
  sub_from U (seq [RWordB; RChar x; RWordB]) [y] 0 pre rest
  = spec_fix_token U x y pre rest.
Proof.
  induction rest as [|c t IH]; intros pre;
    pose proof (match_len_token x pre) as M.
  - apply sub_from_nil. apply M.
  - specialize (M (c :: t)). cbv beta iota in M. cbn [spec_fix_token].
    destruct ((c =? x) && boundary U pre (c :: t) && boundary U (c :: pre) t).
    + rewrite (sub_from_hit _ _ _ _ _ _ M). simpl. now rewrite IH.
    + rewrite (sub_from_miss _ _ _ _ _ M). now rewrite IH.
Qed.

Lemma sub_sects n : forall rest pre,
  (length rest <= n)%nat ->
  sub_from U (text [sect; sect]) [sect] 0 pre rest = spec_halve_sect rest.
Proof.
  induction n as [|n IH]; intros rest pre L.
  - destruct rest; [|simpl in L; lia].
    apply sub_from_nil. now rewrite match_len_sects.
  - destruct rest as [|a [|b t]].
    + apply sub_from_nil. now rewrite match_len_sects.
    + rewrite sub_from_miss, sub_from_nil; trivial;
        rewrite match_len_sects; cbn [startswith];
        now rewrite ?andb_false_r.
    + pose proof (match_len_sects pre (a :: b :: t)) as M.
      cbn [startswith spec_halve_sect] in *.
      rewrite andb_true_r, (N.eqb_sym sect a), (N.eqb_sym sect b) in M.
      destruct ((a =? sect) && (b =? sect)).
      * rewrite (sub_from_hit _ _ _ _ _ _ M), sub_from_skip.
        simpl app. f_equal. apply IH. simpl in L. lia.
      * rewrite (sub_from_miss _ _ _ _ _ M).
        f_equal. apply IH. simpl in L |- *. lia.
Qed.

Section BeforeChar.
Variable d : N.
Hypothesis d_not_space : isspace d = false.

Lemma space_not_d c : isspace c = true -> (c =? d) = false.
Proof.
  intros H. destruct (N.eqb_spec c d); [subst; congruence|reflexivity].
Qed.

Lemma star_greedy_then rest : forall pre,
  exists p r,
    star_greedy U [CSpace]
      (fun p r => exec U (seq [RChar d]) p r [] accept) pre rest
    = (if before_char d rest then Some (p, r, []) else None) /\
    length p = (S (run_length rest) + length pre)%nat.
Proof.
  induction rest as [|c t IH]; intros pre.
  - exists (d :: pre), []. split; reflexivity.
  - cbn [star_greedy before_char run_length]. rewrite cset_space.
    destruct (isspace c) eqn:Hc.
    + rewrite (space_not_d _ Hc). cbn [orb andb].
      destruct (IH (c :: pre)) as (p & r & -> & L).
      exists p, r. split.
      * destruct (before_char d t); [reflexivity|].
        cbn [exec seq]. now rewrite (space_not_d _ Hc).
      * rewrite L. simpl. lia.
    + rewrite andb_false_l, orb_false_r. cbn [exec seq].
      exists (c :: pre), t. split; [|reflexivity].
      unfold accept. now destruct (c =? d).
Qed.

Lemma match_len_before pre rest :
  match_len U (seq [RPlus [CSpace]; RChar d]) false pre rest =
  match rest with
  | c :: t => if isspace c && before_char d t
              then Some (S (S (run_length t))) else None
  | [] => None
  end.
Proof.
  unfold match_len. rewrite match_at_exec.
  change (exec U (seq [RPlus [CSpace]; RChar d]) pre rest [] accept)
    with (plus_greedy U [CSpace]
            (fun p r => exec U (seq [RChar d]) p r [] accept) pre rest).
  unfold plus_greedy. destruct rest as [|c t]; [reflexivity|].
  rewrite cset_space. destruct (isspace c); [|reflexivity]. cbn [andb].
  destruct (star_greedy_then t (c :: pre)) as (p & r & -> & L).
  destruct (before_char d t); [|reflexivity].
  f_equal. cbn [length] in L. lia.
Qed.

Lemma sub_before rest : forall pre,
  sub_from U (seq [RPlus [CSpace]; RChar d]) [d] 0 pre rest
    = spec_drop_ws_before d rest /\
  (before_char d rest = true ->
   d :: sub_from U (seq [RPlus [CSpace]; RChar d]) [d]
          (S (run_length rest)) pre rest
   = spec_drop_ws_before d rest).
Proof.
  induction rest as [|c t IH]; intros pre.
  - split; [|discriminate]. apply sub_from_nil. now rewrite match_len_before.
  - pose proof (match_len_before pre (c :: t)) as M.
    assert (A : sub_from U (seq [RPlus [CSpace]; RChar d]) [d] 0 pre (c :: t)
                = spec_drop_ws_before d (c :: t)).
    { cbn [spec_drop_ws_before]. cbv beta iota in M.
      destruct (isspace c && before_char d t) eqn:T.
      - rewrite (sub_from_hit _ _ _ _ _ _ M). simpl app.
        apply andb_true_iff in T as [_ T]. now apply IH.
      - rewrite (sub_from_miss _ _ _ _ _ M). f_equal. apply IH. }
    split; [exact A|]. intros B. cbn [before_char run_length] in *.
    destruct (isspace c) eqn:Hc.
    + rewrite (space_not_d _ Hc) in B. cbn [orb andb] in B.
      rewrite sub_from_skip. cbn [spec_drop_ws_before]. rewrite Hc, B.
      now apply IH.
    + rewrite andb_false_l, orb_false_r in B. apply N.eqb_eq in B. subst c.
      rewrite sub_from_skip. cbn [spec_drop_ws_before]. rewrite Hc.
      cbn [andb]. f_equal. apply IH.
Qed.
End BeforeChar.

Lemma clean_legal_text_steps s :
  clean_legal_text U s = spec_clean_legal_text U s.
Proof.
  unfold clean_legal_text, spec_clean_legal_text, replacements, re_sub.
  cbn [fold_left fst snd].
  rewrite (proj1 (sub_spaces s [])).
  change (lit "1") with [ch "1"]. change (lit "0") with [ch "0"].
  change (lit ".") with [ch "."]. change (lit ",") with [ch ","].
  rewrite !sub_token.
  rewrite (sub_sects _ _ [] (Nat.le_refl _)).
  rewrite (proj1 (sub_before (ch ".") eq_refl _ [])).
  rewrite (proj1 (sub_before (ch ",") eq_refl _ [])).
  reflexivity.
Qed.

(** C7. [clean_legal_text] is the six steps of the specification in their
    order, then [strip]: runs of whitespace become one space, a lone "l"
    becomes "1", a lone "O" becomes "0", pairs of section signs become one,
    whitespace before a period goes, whitespace before a comma goes. The
    result is what the six steps give without the whitespace at its two
    ends: it stands in that text between two runs of whitespace, and
    neither starts nor ends with whitespace. *)
Theorem clean_legal_text_spec (s : str) :
  clean_legal_text U s = spec_clean_legal_text U s /\
  (exists l r,
     spec_six_steps U s = l ++ clean_legal_text U s ++ r /\
     forallb isspace l = true /\ forallb isspace r = true /\
     head_space (clean_legal_text U s) = false /\
     head_space (rev (clean_legal_text U s)) = false) /\
  clean_legal_text U (lit "too   much   space .") = lit "too much space." /\
  clean_legal_text U (lit " l O lO , . a ,. l.") = lit "1 0 lO,. a,. 1." /\
  clean_legal_text U (lit " a  b ") = lit "a b" /\
  clean_legal_text U (9 :: lit "x ." ++ [10; 32]) = lit "x.".
Proof.
  split; [apply clean_legal_text_steps|].
  split.
  { rewrite clean_legal_text_steps.
    change (spec_clean_legal_text U s) with (strip (spec_six_steps U s)).
    apply strip_spec. }
  repeat split; vm_compute; reflexivity.
Qed.

End Cleaning.

(** ** [clean_legal_text] is idempotent *)

Section Idempotence.
Variable U : ucd.

(** *** A cleaned text is a fixed point of every step *)

Lemma collapse_in_run s :
  head_space s = false -> spec_collapse_ws true s = spec_collapse_ws false s.
Proof. destruct s as [|c t]; simpl; [easy|]. now intros ->. Qed.

Lemma collapse_fixed s :
  single_spaced s = true -> spec_collapse_ws false s = s.
Proof.
  induction s as [|c t IH]; simpl; [easy|]. intros H.
  apply andb_true_iff in H as [Hc Ht].
  destruct (isspace c).
  - apply andb_true_iff in Hc as [Hc Hh]. apply N.eqb_eq in Hc. subst c.
    apply negb_true_iff in Hh. rewrite collapse_in_run by exact Hh.
    now rewrite IH.
  - now rewrite IH.
Qed.

Lemma fix_token_fixed x y s : forall pre,
  no_token U x pre s = true -> spec_fix_token U x y pre s = s.
Proof.
  induction s as [|c t IH]; intros pre H; cbn [spec_fix_token no_token] in *;
    [easy|].
  apply andb_true_iff in H as [Hc Ht]. apply negb_true_iff in Hc.
  now rewrite Hc, IH.
Qed.

Lemma halve_fixed s : no_pair s = true -> spec_halve_sect s = s.
Proof.
  induction s as [|a t IH]; [easy|]. intros H.
  cbn [no_pair] in H. apply andb_true_iff in H as [Ha Ht].
  apply negb_true_iff in Ha. cbn [spec_halve_sect].
  destruct t as [|b t']; [reflexivity|].
  cbn [head_is] in Ha. rewrite Ha. now rewrite IH.
Qed.

Lemma drop_fixed d s :
  no_ws_before d s = true -> spec_drop_ws_before d s = s.
Proof.
  induction s as [|c t IH]; simpl; [easy|]. intros H.
  apply andb_true_iff in H as [Hc Ht]. apply negb_true_iff in Hc.
  now rewrite Hc, IH.
Qed.

Lemma strip_fixed s : stripped s = true -> strip s = s.
Proof.
  unfold stripped, strip. intros H. apply andb_true_iff in H as [H1 H2].
  apply negb_true_iff in H1, H2.
  rewrite (lstrip_fixed s H1). now apply rstrip_fixed.
Qed.

Lemma cleaned_fixed s :
  cleaned U s = true -> spec_clean_legal_text U s = s.
Proof.
  unfold cleaned, spec_clean_legal_text. intros H.
  repeat rewrite andb_true_iff in H.
  destruct H as [[[[[[H1 H2] H3] H4] H5] H6] H7].
  rewrite (collapse_fixed s H1), (fix_token_fixed _ _ s [] H2).
  rewrite (fix_token_fixed _ _ s [] H3), (halve_fixed s H4).
  rewrite (drop_fixed _ s H5), (drop_fixed _ s H6).
  now apply strip_fixed.
Qed.

(** *** Step 1 *)

Lemma collapse_single_spaced s : forall b,
  single_spaced (spec_collapse_ws b s) = true /\
  head_space (spec_collapse_ws true s) = false.
Proof.
  induction s as [|c t IH]; intros b; [now destruct b|].
  destruct (IH true) as [St Ht]. destruct (IH false) as [Sf _].
  cbn [spec_collapse_ws]. destruct (isspace c) eqn:Hc.
  - split; [|exact Ht]. destruct b; [exact St|].
    cbn [single_spaced]. now rewrite Ht, St.
  - cbn [single_spaced head_space]. now rewrite Hc, Sf.
Qed.

Lemma contains_cons sub c t :
  contains sub (c :: t) = startswith sub (c :: t) || contains sub t.
Proof. reflexivity. Qed.

Lemma startswith_collapse p : forall s,
  forallb (fun a => negb (isspace a)) p = true ->
  startswith p (spec_collapse_ws false s) = startswith p s.
Proof.
  induction p as [|a p IH]; intros s H; [reflexivity|].
  cbn [forallb] in H. apply andb_true_iff in H as [Ha Hp].
  apply negb_true_iff in Ha.
  destruct s as [|c t]; [reflexivity|].
  cbn [spec_collapse_ws]. destruct (isspace c) eqn:Hc; cbn [startswith].
  - destruct (N.eqb_spec a (ch " ")) as [->|_]; [discriminate|].
    destruct (N.eqb_spec a c) as [->|_]; [congruence|]. reflexivity.
  - now rewrite IH.
Qed.

Lemma contains_collapse p s : forall b,
  forallb (fun a => negb (isspace a)) p = true -> p <> [] ->
  contains p s = false -> contains p (spec_collapse_ws b s) = false.
Proof.
  intros b Hp Hne. revert b.
  induction s as [|c t IH]; intros b H.
  - destruct b; exact H.
  - rewrite contains_cons in H. apply orb_false_iff in H as [Hs Hc].
    cbn [spec_collapse_ws]. destruct (isspace c) eqn:Hw.
    + destruct b; [now apply IH|].
      rewrite contains_cons, (IH true Hc), orb_false_r.
      destruct p as [|a p]; [easy|]. cbn [startswith forallb] in *.
      apply andb_true_iff in Hp as [Ha _]. apply negb_true_iff in Ha.
      destruct (N.eqb_spec a (ch " ")) as [->|_]; [discriminate|reflexivity].
    + rewrite contains_cons, (IH false Hc), orb_false_r.
      pose proof (startswith_collapse p (c :: t) Hp) as E.
      cbn [spec_collapse_ws] in E. rewrite Hw in E. now rewrite E.
Qed.

(** *** Steps 2 and 3 *)

Section Token.
Variables x y : N.
Hypothesis x_word : isword U x = true.
Hypothesis y_word : isword U y = true.
Hypothesis x_not_space : isspace x = false.
Hypothesis y_not_space : isspace y = false.
Hypothesis x_not_y : x <> y.

Lemma fix_token_head_word s pre :
  head_word U (spec_fix_token U x y pre s) = head_word U s.
Proof.
  destruct s as [|c t]; [reflexivity|]. cbn [spec_fix_token head_word].
  destruct ((c =? x) && _ && _) eqn:E; [|reflexivity].
  apply andb_true_iff in E as [E _]. apply andb_true_iff in E as [E _].
  apply N.eqb_eq in E. subst c. congruence.
Qed.

Lemma fix_token_head_space s pre :
  head_space (spec_fix_token U x y pre s) = head_space s.
Proof.
  destruct s as [|c t]; [reflexivity|]. cbn [spec_fix_token head_space].
  destruct ((c =? x) && _ && _) eqn:E; [|reflexivity].
  apply andb_true_iff in E as [E _]. apply andb_true_iff in E as [E _].
  apply N.eqb_eq in E. subst c. congruence.
Qed.

Lemma fix_token_single_spaced s : forall pre,
  single_spaced s = true -> single_spaced (spec_fix_token U x y pre s) = true.
Proof.
  induction s as [|c t IH]; intros pre H; [reflexivity|].
  cbn [spec_fix_token single_spaced] in *.
  apply andb_true_iff in H as [Hc Ht].
  rewrite fix_token_head_space, (IH _ Ht), andb_true_r.
  destruct ((c =? x) && _ && _); [now rewrite y_not_space|exact Hc].
Qed.

Lemma startswith_fix_token p : forall s pre,
  forallb (fun a => negb (a =? x) && negb (a =? y)) p = true ->
  startswith p (spec_fix_token U x y pre s) = startswith p s.
Proof.
  induction p as [|a p IH]; intros s pre H; [reflexivity|].
  cbn [forallb] in H. apply andb_true_iff in H as [Ha Hp].
  apply andb_true_iff in Ha as [Hx Hy]. apply negb_true_iff in Hx, Hy.
  destruct s as [|c t]; [reflexivity|].
  cbn [spec_fix_token startswith]. rewrite (IH _ _ Hp).
  destruct ((c =? x) && _ && _) eqn:E; [|reflexivity].
  apply andb_true_iff in E as [E _]. apply andb_true_iff in E as [E _].
  apply N.eqb_eq in E. subst c. now rewrite Hx, Hy.
Qed.

Lemma contains_fix_token p s : forall pre,
  forallb (fun a => negb (a =? x) && negb (a =? y)) p = true ->
  contains p (spec_fix_token U x y pre s) = contains p s.
Proof.
  intros pre Hp. revert pre. induction s as [|c t IH]; intros pre.
  - reflexivity.
  - rewrite contains_cons.
    change (c :: t) with (c :: t) at 1.
    rewrite <- (startswith_fix_token p (c :: t) pre Hp).
    cbn [spec_fix_token]. rewrite contains_cons. now rewrite IH.
Qed.

(** The trigger of a token only looks at whether the neighbours are word
    characters. *)
Lemma no_token_same_word z s : forall pre pre',
  head_word U pre = head_word U pre' ->
  no_token U z pre s = no_token U z pre' s.
Proof.
  induction s as [|c t IH]; intros pre pre' H; [reflexivity|].
  cbn [no_token]. unfold boundary at 1 3. rewrite H.
  now rewrite (IH (c :: pre) (c :: pre')).
Qed.

Lemma no_token_context z s pre pre' :
  head_is z s = false -> no_token U z pre s = no_token U z pre' s.
Proof.
  destruct s as [|c t]; [reflexivity|]. cbn [no_token head_is].
  intros ->. cbn [andb negb].
  now apply no_token_same_word.
Qed.

Lemma fix_token_no_token z s : forall pre pre',
  z <> y -> head_word U pre = head_word U pre' ->
  z = x \/ no_token U z pre s = true ->
  no_token U z pre' (spec_fix_token U x y pre s) = true.
Proof.
  induction s as [|c t IH]; intros pre pre' Hzy Hp Hz; [reflexivity|].
  cbn [spec_fix_token no_token].
  assert (Ht : z = x \/ no_token U z (c :: pre) t = true).
  { destruct Hz as [Hz | Hz]; [now left|right].
    cbn [no_token] in Hz. now apply andb_true_iff in Hz as [_ Hz]. }
  destruct ((c =? x) && boundary U pre (c :: t) && boundary U (c :: pre) t)
    eqn:E.
  - rewrite IH; trivial.
    + destruct (N.eqb_spec y z); [congruence|]. reflexivity.
    + apply andb_true_iff in E as [E _]. apply andb_true_iff in E as [E _].
      apply N.eqb_eq in E. subst c. cbn [head_word]. congruence.
  - rewrite IH; trivial. rewrite andb_true_r. apply negb_true_iff.
    unfold boundary in *. cbn [head_word] in *.
    rewrite fix_token_head_word, <- Hp.
    destruct Hz as [-> | Hz]; [exact E|].
    cbn [no_token] in Hz. apply andb_true_iff in Hz as [Hz _].
    now apply negb_true_iff in Hz.
Qed.
End Token.

(** *** Step 4 *)

Lemma head_space_hd s s' :
  hd_error s = hd_error s' -> head_space s = head_space s'.
Proof. destruct s, s'; simpl; congruence. Qed.

Lemma head_word_hd s s' :
  hd_error s = hd_error s' -> head_word U s = head_word U s'.
Proof. destruct s, s'; simpl; congruence. Qed.

Lemma head_is_hd z s s' :
  hd_error s = hd_error s' -> head_is z s = head_is z s'.
Proof. destruct s, s'; simpl; congruence. Qed.

Lemma halve_cons2 a b t :
  spec_halve_sect (a :: b :: t) =
  if (a =? sect) && (b =? sect) then sect :: spec_halve_sect t
  else a :: spec_halve_sect (b :: t).
Proof. reflexivity. Qed.

Lemma halve_head s : hd_error (spec_halve_sect s) = hd_error s.
Proof.
  destruct s as [|a [|b t]]; [reflexivity..|]. rewrite halve_cons2.
  destruct ((a =? sect) && (b =? sect)) eqn:E; [|reflexivity].
  apply andb_true_iff in E as [E _]. apply N.eqb_eq in E. now subst a.
Qed.

Lemma halve_single_spaced n : forall s,
  (length s <= n)%nat -> single_spaced s = true ->
  single_spaced (spec_halve_sect s) = true.
Proof.
  induction n as [|n IH]; intros s L H.
  - destruct s; [reflexivity|simpl in L; lia].
  - destruct s as [|a [|b t]]; [reflexivity|exact H|].
    rewrite halve_cons2. cbn [single_spaced] in H.
    apply andb_true_iff in H as [Ha H].
    destruct ((a =? sect) && (b =? sect)).
    + apply andb_true_iff in H as [_ H].
      cbn [single_spaced]. rewrite IH; trivial. simpl in L. lia.
    + cbn [single_spaced].
      rewrite (head_space_hd _ _ (halve_head (b :: t))).
      rewrite IH; [now rewrite andb_true_r|simpl in L |- *; lia|exact H].
Qed.

Lemma halve_no_token z n : forall s pre,
  z <> sect ->
  (length s <= n)%nat -> no_token U z pre s = true ->
  no_token U z pre (spec_halve_sect s) = true.
Proof.
  induction n as [|n IH]; intros s pre Hz L H.
  - destruct s; [reflexivity|simpl in L; lia].
  - destruct s as [|a [|b t]]; [reflexivity|exact H|].
    rewrite halve_cons2.
    destruct ((a =? sect) && (b =? sect)) eqn:E.
    + apply andb_true_iff in E as [Ea Eb].
      apply N.eqb_eq in Ea, Eb. subst a b.
      cbn [no_token] in H |- *.
      destruct (N.eqb_spec sect z) as [e|_]; [congruence|].
      cbn [andb negb] in H |- *.
      rewrite (no_token_same_word z _ (sect :: pre) (sect :: sect :: pre))
        by reflexivity.
      apply IH; trivial. simpl in L. lia.
    + cbn [no_token] in H |- *. apply andb_true_iff in H as [Ha H].
      unfold boundary in Ha |- *.
      rewrite (head_word_hd _ _ (halve_head (b :: t))).
      cbn [head_word] in Ha |- *. rewrite Ha.
      apply IH; trivial. simpl in L |- *. lia.
Qed.

Lemma halve_no_pair n : forall s,
  (length s <= n)%nat -> contains triple s = false ->
  no_pair (spec_halve_sect s) = true.
Proof.
  induction n as [|n IH]; intros s L H.
  - destruct s; [reflexivity|simpl in L; lia].
  - destruct s as [|a [|b t]]; [reflexivity| |].
    + cbn [spec_halve_sect no_pair head_is]. now rewrite andb_false_r.
    + rewrite contains_cons in H. apply orb_false_iff in H as [Hs H].
      rewrite halve_cons2.
      destruct ((a =? sect) && (b =? sect)) eqn:E.
      * apply andb_true_iff in E as [Ea Eb].
        apply N.eqb_eq in Ea, Eb. subst a b.
        rewrite contains_cons in H. apply orb_false_iff in H as [_ H].
        cbn [no_pair]. rewrite (head_is_hd _ _ _ (halve_head t)).
        rewrite IH; [|simpl in L; lia|exact H].
        rewrite andb_true_r. apply negb_true_iff.
        unfold triple in Hs. cbn [startswith] in Hs.
        rewrite !N.eqb_refl in Hs. cbn [andb] in Hs |- *.
        destruct t as [|c t]; [reflexivity|]. cbn [startswith head_is] in *.
        now rewrite andb_true_r, N.eqb_sym in Hs.
      * cbn [no_pair]. rewrite (head_is_hd _ _ _ (halve_head (b :: t))).
        cbn [head_is]. rewrite E.
        rewrite IH; [reflexivity|simpl in L |- *; lia|exact H].
Qed.

(** *** Steps 5 and 6 *)

Section Drop.
Variable d : N.
Hypothesis d_not_space : isspace d = false.
Hypothesis d_not_word : isword U d = false.

Lemma before_char_head d' u :
  head_space u = false -> before_char d' u = head_is d' u.
Proof.
  destruct u as [|c t]; [reflexivity|]. cbn [head_space before_char head_is].
  intros ->. now rewrite orb_false_r.
Qed.

Lemma single_spaced_cons c t :
  single_spaced (c :: t) = true ->
  (isspace c = true -> c = ch " " /\ head_space t = false) /\
  single_spaced t = true.
Proof.
  cbn [single_spaced]. intros H. apply andb_true_iff in H as [Hc Ht].
  split; [|exact Ht]. intros Hs. rewrite Hs in Hc.
  apply andb_true_iff in Hc as [Hc Hh]. apply N.eqb_eq in Hc.
  now apply negb_true_iff in Hh.
Qed.

(** In a single-spaced text the step removes a space right before [d]. *)
Lemma drop_trigger c t :
  single_spaced (c :: t) = true ->
  isspace c && before_char d t = true ->
  c = ch " " /\ exists t', t = d :: t'.
Proof.
  intros H T. apply andb_true_iff in T as [Hc Hb].
  destruct (single_spaced_cons _ _ H) as [Hs _].
  destruct (Hs Hc) as [-> Hh]. split; [reflexivity|].
  rewrite before_char_head in Hb by exact Hh.
  destruct t as [|c' t']; [discriminate|]. cbn [head_is] in Hb.
  apply N.eqb_eq in Hb. subst c'. now exists t'.
Qed.

Lemma drop_at_d t :
  spec_drop_ws_before d (d :: t) = d :: spec_drop_ws_before d t.
Proof. cbn [spec_drop_ws_before]. now rewrite d_not_space. Qed.

Lemma drop_head s :
  head_space s = false ->
  hd_error (spec_drop_ws_before d s) = hd_error s.
Proof.
  destruct s as [|c t]; [reflexivity|]. cbn [head_space spec_drop_ws_before].
  now intros ->.
Qed.

Lemma drop_single_spaced s :
  single_spaced s = true -> single_spaced (spec_drop_ws_before d s) = true.
Proof.
  induction s as [|c t IH]; intros H; [reflexivity|].
  destruct (single_spaced_cons _ _ H) as [Hs Ht].
  cbn [spec_drop_ws_before].
  destruct (isspace c && before_char d t); [now apply IH|].
  cbn [single_spaced]. rewrite (IH Ht), andb_true_r.
  destruct (isspace c) eqn:Hc; [|reflexivity].
  destruct (Hs eq_refl) as [-> Hh].
  rewrite (head_space_hd _ _ (drop_head t Hh)), Hh. reflexivity.
Qed.

Lemma drop_head_word s :
  single_spaced s = true ->
  head_word U (spec_drop_ws_before d s) = head_word U s.
Proof.
  destruct s as [|c t]; [reflexivity|]. intros H.
  cbn [spec_drop_ws_before].
  destruct (isspace c && before_char d t) eqn:T; [|reflexivity].
  destruct (drop_trigger _ _ H T) as [-> (t' & ->)].
  rewrite drop_at_d. cbn [head_word]. now rewrite d_not_word.
Qed.

Lemma drop_head_is z s :
  z <> d -> single_spaced s = true ->
  head_is z s = false -> head_is z (spec_drop_ws_before d s) = false.
Proof.
  intros Hz. destruct s as [|c t]; [reflexivity|]. intros H Hh.
  cbn [spec_drop_ws_before].
  destruct (isspace c && before_char d t) eqn:T; [|exact Hh].
  destruct (drop_trigger _ _ H T) as [-> (t' & ->)].
  rewrite drop_at_d. cbn [head_is].
  destruct (N.eqb_spec d z); [congruence|reflexivity].
Qed.

Lemma drop_no_token z s : forall pre,
  z <> d -> single_spaced s = true ->
  no_token U z pre s = true ->
  no_token U z pre (spec_drop_ws_before d s) = true.
Proof.
  induction s as [|c t IH]; intros pre Hz H N; [reflexivity|].
  destruct (single_spaced_cons _ _ H) as [_ Ht].
  cbn [no_token] in N. apply andb_true_iff in N as [Nc Nt].
  cbn [spec_drop_ws_before].
  destruct (isspace c && before_char d t) eqn:T.
  - specialize (IH (c :: pre) Hz Ht Nt).
    rewrite (no_token_context z _ pre (c :: pre)); [exact IH|].
    destruct (drop_trigger _ _ H T) as [_ (t' & ->)].
    rewrite drop_at_d. cbn [head_is].
    destruct (N.eqb_spec d z); [congruence|reflexivity].
  - cbn [no_token]. rewrite (IH (c :: pre) Hz Ht Nt), andb_true_r.
    unfold boundary in Nc |- *. cbn [head_word] in Nc |- *.
    now rewrite (drop_head_word t Ht).
Qed.

Lemma drop_no_pair s :
  d <> sect -> single_spaced s = true ->
  no_pair s = true -> no_pair (spec_drop_ws_before d s) = true.
Proof.
  intros Hd. induction s as [|c t IH]; intros H N; [reflexivity|].
  destruct (single_spaced_cons _ _ H) as [_ Ht].
  cbn [no_pair] in N. apply andb_true_iff in N as [Nc Nt].
  cbn [spec_drop_ws_before].
  destruct (isspace c && before_char d t); [now apply IH|].
  cbn [no_pair]. rewrite (IH Ht Nt), andb_true_r.
  apply negb_true_iff in Nc. apply negb_true_iff.
  apply andb_false_iff in Nc as [Nc | Nc]; [now rewrite Nc|].
  rewrite drop_head_is; auto using andb_false_r.
Qed.

Lemma drop_no_ws_before d' s :
  single_spaced s = true ->
  d' = d \/ no_ws_before d' s = true ->
  no_ws_before d' (spec_drop_ws_before d s) = true.
Proof.
  induction s as [|c t IH]; intros H N; [reflexivity|].
  destruct (single_spaced_cons _ _ H) as [Hs Ht].
  assert (Nt : d' = d \/ no_ws_before d' t = true).
  { destruct N as [N | N]; [now left|right].
    cbn [no_ws_before] in N. now apply andb_true_iff in N as [_ N]. }
  cbn [spec_drop_ws_before].
  destruct (isspace c && before_char d t) eqn:T; [now apply IH|].
  cbn [no_ws_before]. rewrite (IH Ht Nt), andb_true_r.
  destruct (isspace c) eqn:Hc; [|reflexivity].
  destruct (Hs eq_refl) as [-> Hh]. cbn [andb] in T |- *.
  apply negb_true_iff.
  rewrite before_char_head
    by (now rewrite (head_space_hd _ _ (drop_head t Hh))).
  rewrite (head_is_hd _ _ _ (drop_head t Hh)).
  rewrite <- before_char_head by exact Hh.
  destruct N as [-> | N]; [exact T|].
  cbn [no_ws_before] in N. apply andb_true_iff in N as [N _].
  apply negb_true_iff in N. now rewrite Hc in N.
Qed.
End Drop.

(** *** [strip] *)

Lemma single_spaced_app a : forall b,
  single_spaced (a ++ b) = true ->
  single_spaced a = true /\ single_spaced b = true.
Proof.
  induction a as [|c a IH]; intros b H; [easy|].
  simpl app in H. cbn [single_spaced] in *.
  apply andb_true_iff in H as [Hc H]. destruct (IH _ H) as [Ha Hb].
  split; [|exact Hb]. rewrite Ha, andb_true_r.
  destruct (isspace c); [|reflexivity].
  apply andb_true_iff in Hc as [Hc Hh]. rewrite Hc. cbn [andb].
  destruct a; [reflexivity|exact Hh].
Qed.

Lemma no_pair_app a : forall b,
  no_pair (a ++ b) = true -> no_pair a = true /\ no_pair b = true.
Proof.
  induction a as [|c a IH]; intros b H; [easy|].
  simpl app in H. cbn [no_pair] in *.
  apply andb_true_iff in H as [Hc H]. destruct (IH _ H) as [Ha Hb].
  split; [|exact Hb]. rewrite Ha, andb_true_r.
  destruct a; [|exact Hc]. cbn [head_is]. now rewrite andb_false_r.
Qed.

Lemma before_char_app d a b :
  before_char d a = true -> before_char d (a ++ b) = true.
Proof.
  induction a as [|c a IH]; [discriminate|]. simpl app.
  cbn [before_char]. intros H. apply orb_true_iff in H as [H | H].
  - now rewrite H.
  - apply andb_true_iff in H as [Hc H]. rewrite Hc, (IH H).
    apply orb_true_r.
Qed.

Lemma no_ws_before_app d a : forall b,
  no_ws_before d (a ++ b) = true ->
  no_ws_before d a = true /\ no_ws_before d b = true.
Proof.
  induction a as [|c a IH]; intros b H; [easy|].
  simpl app in H. cbn [no_ws_before] in *.
  apply andb_true_iff in H as [Hc H]. destruct (IH _ H) as [Ha Hb].
  split; [|exact Hb]. rewrite Ha, andb_true_r.
  apply negb_true_iff in Hc. apply negb_true_iff.
  apply andb_false_iff in Hc as [Hc | Hc]; [now rewrite Hc|].
  destruct (before_char d a) eqn:E; [|apply andb_false_r].
  now rewrite (before_char_app d a b E) in Hc.
Qed.

Lemma no_token_app_r z a : forall pre b,
  no_token U z pre (a ++ b) = true -> no_token U z (rev a ++ pre) b = true.
Proof.
  induction a as [|c a IH]; intros pre b H; [exact H|].
  simpl app in H. cbn [no_token] in H.
  apply andb_true_iff in H as [_ H]. rewrite rev_cons_app. now apply IH.
Qed.

Lemma head_word_app a b :
  head_word U b = false -> head_word U (a ++ b) = head_word U a.
Proof. destruct a; simpl; intros H; [exact H|reflexivity]. Qed.

Lemma no_token_app_l z a : forall pre b,
  head_word U b = false ->
  no_token U z pre (a ++ b) = true -> no_token U z pre a = true.
Proof.
  induction a as [|c a IH]; intros pre b Hb H; [reflexivity|].
  simpl app in H. cbn [no_token] in *.
  apply andb_true_iff in H as [Hc H]. rewrite (IH _ _ Hb H), andb_true_r.
  unfold boundary in *. cbn [head_word] in *.
  now rewrite (head_word_app a b Hb) in Hc.
Qed.

(** The whitespace at an end of a single-spaced text is one space at
    most. *)
Lemma spaces_at_end l :
  single_spaced l = true -> forallb isspace l = true ->
  l = [] \/ l = [ch " "].
Proof.
  destruct l as [|c1 [|c2 l]]; [now left| |]; intros H F.
  - right. cbn [forallb] in F. apply andb_true_iff in F as [F _].
    destruct (single_spaced_cons _ _ H) as [Hs _].
    now destruct (Hs F) as [-> _].
  - cbn [forallb] in F. apply andb_true_iff in F as [F1 F].
    apply andb_true_iff in F as [F2 _].
    destruct (single_spaced_cons _ _ H) as [Hs _].
    destruct (Hs F1) as [_ Hh]. cbn [head_space] in Hh. congruence.
Qed.

Lemma strip_cleaned s :
  single_spaced s = true ->
  no_token U (ch "l") [] s = true -> no_token U (ch "O") [] s = true ->
  no_pair s = true ->
  no_ws_before (ch ".") s = true -> no_ws_before (ch ",") s = true ->
  cleaned U (strip s) = true.
Proof.
  intros H1 H2 H3 H4 H5 H6.
  destruct (strip_spec s) as (l & r & E & Fl & Fr & Sh & Sr).
  remember (strip s) as m eqn:Em. clear Em. subst s.
  destruct (single_spaced_app _ _ H1) as [Sl H1'].
  destruct (single_spaced_app _ _ H1') as [Sm Srr].
  assert (Wl : head_word U (rev l ++ []) = false).
  { destruct (spaces_at_end l Sl Fl) as [-> | ->]; reflexivity. }
  assert (Wr : head_word U r = false).
  { destruct (spaces_at_end r Srr Fr) as [-> | ->]; reflexivity. }
  assert (T : forall z, no_token U z [] (l ++ m ++ r) = true ->
                        no_token U z [] m = true).
  { intros z N. apply no_token_app_r in N.
    rewrite (no_token_same_word z _ _ [] Wl) in N.
    now apply no_token_app_l in N. }
  unfold cleaned, stripped.
  rewrite Sm, (T _ H2), (T _ H3), Sh, Sr.
  apply no_pair_app in H4 as [_ H4]. apply no_pair_app in H4 as [-> _].
  apply no_ws_before_app in H5 as [_ H5].
  apply no_ws_before_app in H5 as [-> _].
  apply no_ws_before_app in H6 as [_ H6].
  apply no_ws_before_app in H6 as [-> _].
  reflexivity.
Qed.

(** *** One pass cleans *)

Lemma spec_clean_cleaned s :
  contains triple s = false ->
  cleaned U (spec_clean_legal_text U s) = true.
Proof.
  intros H. unfold spec_clean_legal_text.
  set (s1 := spec_collapse_ws false s).
  set (s2 := spec_fix_token U (ch "l") (ch "1") [] s1).
  set (s3 := spec_fix_token U (ch "O") (ch "0") [] s2).
  set (s4 := spec_halve_sect s3).
  set (s5 := spec_drop_ws_before (ch ".") s4).
  set (s6 := spec_drop_ws_before (ch ",") s5).
  assert (S1 : single_spaced s1 = true)
    by apply (collapse_single_spaced s false).
  assert (T1 : contains triple s1 = false)
    by (now apply contains_collapse).
  assert (S2 : single_spaced s2 = true)
    by (now apply fix_token_single_spaced).
  assert (T2 : contains triple s2 = false)
    by (unfold s2; now rewrite contains_fix_token).
  assert (L2 : no_token U (ch "l") [] s2 = true)
    by (apply fix_token_no_token; auto; discriminate).
  assert (S3 : single_spaced s3 = true)
    by (now apply fix_token_single_spaced).
  assert (T3 : contains triple s3 = false)
    by (unfold s3; now rewrite contains_fix_token).
  assert (L3 : no_token U (ch "l") [] s3 = true)
    by (apply fix_token_no_token; auto; discriminate).
  assert (O3 : no_token U (ch "O") [] s3 = true)
    by (apply fix_token_no_token; auto; discriminate).
  assert (S4 : single_spaced s4 = true)
    by (now apply (halve_single_spaced (length s3))).
  assert (L4 : no_token U (ch "l") [] s4 = true)
    by (apply (halve_no_token _ (length s3)); auto; discriminate).
  assert (O4 : no_token U (ch "O") [] s4 = true)
    by (apply (halve_no_token _ (length s3)); auto; discriminate).
  assert (P4 : no_pair s4 = true)
    by (now apply (halve_no_pair (length s3))).
  assert (S5 : single_spaced s5 = true)
    by (now apply drop_single_spaced).
  assert (L5 : no_token U (ch "l") [] s5 = true)
    by (apply drop_no_token; auto; discriminate).
  assert (O5 : no_token U (ch "O") [] s5 = true)
    by (apply drop_no_token; auto; discriminate).
  assert (P5 : no_pair s5 = true)
    by (apply drop_no_pair; auto; discriminate).
  assert (D5 : no_ws_before (ch ".") s5 = true)
    by (apply drop_no_ws_before; auto).
  assert (S6 : single_spaced s6 = true)
    by (now apply drop_single_spaced).
  assert (L6 : no_token U (ch "l") [] s6 = true)
    by (apply drop_no_token; auto; discriminate).
  assert (O6 : no_token U (ch "O") [] s6 = true)
    by (apply drop_no_token; auto; discriminate).
  assert (P6 : no_pair s6 = true)
    by (apply drop_no_pair; auto; discriminate).
  assert (D6 : no_ws_before (ch ".") s6 = true)
    by (apply drop_no_ws_before; auto).
  assert (C6 : no_ws_before (ch ",") s6 = true)
    by (apply drop_no_ws_before; auto).
  now apply strip_cleaned.
Qed.

(** C3. [clean_legal_text] is idempotent on every text without three
    section signs in a row. The step for pairs of section signs reads the
    text once: four section signs give two, and only a second pass gives
    one. *)
Theorem clean_legal_text_idempotent (x : str) :
  contains triple x = false ->
  clean_legal_text U (clean_legal_text U x) = clean_legal_text U x /\
  clean_legal_text U [sect; sect; sect; sect] = [sect; sect] /\
  clean_legal_text U [sect; sect] = [sect].
Proof.
  intros H. split; [|split; vm_compute; reflexivity].
  rewrite !clean_legal_text_steps.
  apply cleaned_fixed. now apply spec_clean_cleaned.
Qed.

End Idempotence.

(** * Beyond the specification

    Properties that the code shows and the specification does not
    state. *)

(** ** [format_legal_date], again *)

Section Dates.

Lemma stripped_strip s : stripped (strip s) = true.
Proof.
  destruct (strip_spec s) as (l & r & _ & _ & _ & H1 & H2).
  unfold stripped. now rewrite H1, H2.
Qed.

Lemma lstrip_spaces l s : forallb isspace l = true -> lstrip (l ++ s) = lstrip s.
Proof.
  induction l as [|c l IH]; simpl; [easy|]. intros H.
  apply andb_true_iff in H as [Hc H]. rewrite Hc. now apply IH.
Qed.

Lemma lstrip_keeps s r :
  forallb isspace s = false -> lstrip (s ++ r) = lstrip s ++ r.
Proof.
  induction s as [|c s IH]; simpl; [discriminate|].
  destruct (isspace c); simpl; [exact IH|reflexivity].
Qed.

Lemma lstrip_all_space s : forallb isspace s = true -> lstrip s = [].
Proof.
  intros H. rewrite <- (app_nil_r s). now rewrite lstrip_spaces.
Qed.

Lemma rstrip_spaces s r : forallb isspace r = true -> rstrip (s ++ r) = rstrip s.
Proof.
  intros H. unfold rstrip. rewrite rev_app_distr, lstrip_spaces; [reflexivity|].
  rewrite forallb_forall in *. intros x Hx. apply H. now apply in_rev.
Qed.

Lemma strip_padding l s r :
  forallb isspace l = true -> forallb isspace r = true ->
  strip (l ++ s ++ r) = strip s.
Proof.
  intros Hl Hr. unfold strip. rewrite lstrip_spaces by exact Hl.
  destruct (forallb isspace s) eqn:Hs.
  - rewrite (lstrip_all_space s Hs), lstrip_all_space; [reflexivity|].
    rewrite forallb_app. now rewrite Hs, Hr.
  - rewrite lstrip_keeps by exact Hs. now apply rstrip_spaces.
Qed.

(** X1. Formatting a date twice is formatting it once. *)
Theorem format_legal_date_idempotent (s : str) :
  format_legal_date (format_legal_date s) = format_legal_date s.
Proof.
  unfold format_legal_date. apply strip_fixed. apply stripped_strip.
Qed.

(** X2. Whitespace around a date string does not change the result:
    [format_legal_date] of a text padded with whitespace on both sides is
    [format_legal_date] of the text. *)
Theorem format_legal_date_ignores_padding (l s r : str) :
  forallb isspace l = true -> forallb isspace r = true ->
  format_legal_date (l ++ s ++ r) = format_legal_date s.
Proof. intros Hl Hr. unfold format_legal_date. now apply strip_padding. Qed.
End Dates.

(** ** [clean_legal_text]: what every result looks like *)

Section Shape.
Variable U : ucd.

(** The shape that one pass gives to every text: all of [cleaned] but the
    pairs of section signs. *)
Lemma spec_clean_shape s :
  let out := spec_clean_legal_text U s in
  single_spaced out = true /\
  no_token U (ch "l") [] out = true /\ no_token U (ch "O") [] out = true /\
  no_ws_before (ch ".") out = true /\ no_ws_before (ch ",") out = true /\
  stripped out = true.
Proof.
  unfold spec_clean_legal_text.
  set (s1 := spec_collapse_ws false s).
  set (s2 := spec_fix_token U (ch "l") (ch "1") [] s1).
  set (s3 := spec_fix_token U (ch "O") (ch "0") [] s2).
  set (s4 := spec_halve_sect s3).
  set (s5 := spec_drop_ws_before (ch ".") s4).
  set (s6 := spec_drop_ws_before (ch ",") s5).
  assert (S1 : single_spaced s1 = true)
    by apply (collapse_single_spaced s false).
  assert (S2 : single_spaced s2 = true)
    by (now apply fix_token_single_spaced).
  assert (L2 : no_token U (ch "l") [] s2 = true)
    by (apply fix_token_no_token; auto; discriminate).
  assert (S3 : single_spaced s3 = true)
    by (now apply fix_token_single_spaced).
  assert (L3 : no_token U (ch "l") [] s3 = true)
    by (apply fix_token_no_token; auto; discriminate).
  assert (O3 : no_token U (ch "O") [] s3 = true)
    by (apply fix_token_no_token; auto; discriminate).
  assert (S4 : single_spaced s4 = true)
    by (now apply (halve_single_spaced (length s3))).
  assert (L4 : no_token U (ch "l") [] s4 = true)
    by (apply (halve_no_token _ _ (length s3)); auto; discriminate).
  assert (O4 : no_token U (ch "O") [] s4 = true)
    by (apply (halve_no_token _ _ (length s3)); auto; discriminate).
  assert (S5 : single_spaced s5 = true)
    by (now apply drop_single_spaced).
  assert (L5 : no_token U (ch "l") [] s5 = true)
    by (apply drop_no_token; auto; discriminate).
  assert (O5 : no_token U (ch "O") [] s5 = true)
    by (apply drop_no_token; auto; discriminate).
  assert (D5 : no_ws_before (ch ".") s5 = true)
    by (apply drop_no_ws_before; auto).
  assert (S6 : single_spaced s6 = true)
    by (now apply drop_single_spaced).
  assert (L6 : no_token U (ch "l") [] s6 = true)
    by (apply drop_no_token; auto; discriminate).
  assert (O6 : no_token U (ch "O") [] s6 = true)
    by (apply drop_no_token; auto; discriminate).
  assert (D6 : no_ws_before (ch ".") s6 = true)
    by (apply drop_no_ws_before; auto).
  assert (C6 : no_ws_before (ch ",") s6 = true)
    by (apply drop_no_ws_before; auto).
  clearbody s6. clear - S6 L6 O6 D6 C6.
  destruct (strip_spec s6) as (l & r & E & Fl & Fr & Sh & Sr).
  remember (strip s6) as m eqn:Em. clear Em. subst s6.
  destruct (single_spaced_app _ _ S6) as [Sl H1'].
  destruct (single_spaced_app _ _ H1') as [Sm Srr].
  assert (Wl : head_word U (rev l ++ []) = false).
  { destruct (spaces_at_end l Sl Fl) as [-> | ->]; reflexivity. }
  assert (Wr : head_word U r = false).
  { destruct (spaces_at_end r Srr Fr) as [-> | ->]; reflexivity. }
  assert (T : forall z, no_token U z [] (l ++ m ++ r) = true ->
                        no_token U z [] m = true).
  { intros z N. apply no_token_app_r in N.
    rewrite (no_token_same_word U z _ _ [] Wl) in N.
    now apply no_token_app_l in N. }
  cbv zeta. unfold stripped.
  rewrite Sm, (T _ L6), (T _ O6), Sh, Sr.
  apply no_ws_before_app in D6 as [_ D6].
  apply no_ws_before_app in D6 as [-> _].
  apply no_ws_before_app in C6 as [_ C6].
  apply no_ws_before_app in C6 as [-> _].
  repeat split.
Qed.

Lemma single_spaced_only_spaces s :
  single_spaced s = true ->
  forallb (fun c => negb (isspace c) || (c =? ch " ")) s = true.
Proof.
  induction s as [|c t IH]; [reflexivity|]. intros H.
  destruct (single_spaced_cons _ _ H) as [Hc Ht].
  cbn [forallb]. rewrite (IH Ht), andb_true_r.
  destruct (isspace c) eqn:E; [|reflexivity].
  destruct (Hc eq_refl) as [-> _]. reflexivity.
Qed.

Lemma single_spaced_no_double s :
  single_spaced s = true -> contains [ch " "; ch " "] s = false.
Proof.
  induction s as [|c t IH]; [reflexivity|]. intros H.
  destruct (single_spaced_cons _ _ H) as [Hc Ht].
  cbn [contains]. rewrite (IH Ht), orb_false_r.
  cbn [startswith]. destruct (ch " " =? c) eqn:E; [|reflexivity].
  apply N.eqb_eq in E. subst c. destruct (Hc eq_refl) as [_ Hh].
  destruct t as [|c2 t]; [reflexivity|]. cbn [andb].
  destruct (ch " " =? c2) eqn:E2; [|reflexivity].
  apply N.eqb_eq in E2. subst c2. discriminate Hh.
Qed.

Lemma no_ws_before_no_space d s :
  no_ws_before d s = true -> contains [ch " "; d] s = false.
Proof.
  induction s as [|c t IH]; [reflexivity|]. cbn [no_ws_before]. intros H.
  apply andb_true_iff in H as [Hc Ht]. apply negb_true_iff in Hc.
  cbn [contains]. rewrite (IH Ht), orb_false_r.
  cbn [startswith]. destruct (ch " " =? c) eqn:E; [|reflexivity].
  apply N.eqb_eq in E. subst c.
  destruct t as [|c2 t]; [reflexivity|]. cbn [andb].
  destruct (d =? c2) eqn:E2; [|reflexivity].
  apply N.eqb_eq in E2. subst c2.
  cbn [before_char] in Hc. rewrite N.eqb_refl in Hc. discriminate Hc.
Qed.

(** X3. Whatever the text, the result of [clean_legal_text] has no
    whitespace but single spaces, none of them at either end or before a
    period or a comma, and no "l" or "O" standing alone between two word
    boundaries. *)
Theorem clean_legal_text_shape (s : str) :
  forallb (fun c => negb (isspace c) || (c =? ch " "))
          (clean_legal_text U s) = true /\
  contains (lit "  ") (clean_legal_text U s) = false /\
  contains (lit " .") (clean_legal_text U s) = false /\
  contains (lit " ,") (clean_legal_text U s) = false /\
  head_space (clean_legal_text U s) = false /\
  head_space (rev (clean_legal_text U s)) = false /\
  no_token U (ch "l") [] (clean_legal_text U s) = true /\
  no_token U (ch "O") [] (clean_legal_text U s) = true.
Proof.
  rewrite clean_legal_text_steps.
  destruct (spec_clean_shape s) as (S & L & O & D & C & T).
  cbv zeta in *.
  unfold stripped in T. apply andb_true_iff in T as [T1 T2].
  apply negb_true_iff in T1, T2.
  repeat split; trivial.
  - now apply single_spaced_only_spaces.
  - now apply single_spaced_no_double.
  - now apply (no_ws_before_no_space (ch ".")).
  - now apply (no_ws_before_no_space (ch ",")).
Qed.

(** *** The result is never longer *)

Lemma collapse_length s : forall b,
  (length (spec_collapse_ws b s) <= length s)%nat.
Proof.
  induction s as [|c t IH]; intros b; simpl; [lia|].
  pose proof (IH true). pose proof (IH false).
  destruct (isspace c); [destruct b|]; simpl; lia.
Qed.

Lemma fix_token_length x y s : forall pre,
  length (spec_fix_token U x y pre s) = length s.
Proof.
  induction s as [|c t IH]; intros pre; cbn [spec_fix_token length];
    [reflexivity|]. now rewrite IH.
Qed.

Lemma halve_length n : forall s, (length s <= n)%nat ->
  (length (spec_halve_sect s) <= length s)%nat.
Proof.
  induction n as [|n IH]; intros s L.
  - destruct s; [simpl; lia|simpl in L; lia].
  - destruct s as [|a [|b t]]; [simpl; lia|simpl; lia|].
    rewrite halve_cons2. cbn [length] in L.
    destruct ((a =? sect) && (b =? sect)); cbn [length].
    + assert (Lt : (length t <= n)%nat) by lia.
      specialize (IH t Lt). lia.
    + assert (Lt : (length (b :: t) <= n)%nat) by (cbn [length]; lia).
      specialize (IH (b :: t) Lt). cbn [length] in IH. lia.
Qed.

Lemma drop_length d s :
  (length (spec_drop_ws_before d s) <= length s)%nat.
Proof.
  induction s as [|c t IH]; simpl; [lia|].
  destruct (isspace c && before_char d t); simpl; lia.
Qed.

Lemma strip_length s : (length (strip s) <= length s)%nat.
Proof.
  destruct (strip_spec s) as (l & r & E & _).
  rewrite E at 2. rewrite !length_app. lia.
Qed.

Lemma spec_clean_length s :
  (length (spec_clean_legal_text U s) <= length s)%nat.
Proof.
  unfold spec_clean_legal_text.
  set (s1 := spec_collapse_ws false s).
  set (s2 := spec_fix_token U (ch "l") (ch "1") [] s1).
  set (s3 := spec_fix_token U (ch "O") (ch "0") [] s2).
  set (s4 := spec_halve_sect s3).
  set (s5 := spec_drop_ws_before (ch ".") s4).
  set (s6 := spec_drop_ws_before (ch ",") s5).
  assert (H6 : (length (strip s6) <= length s6)%nat)
    by apply strip_length.
  assert (H5 : (length s6 <= length s5)%nat) by apply drop_length.
  assert (H4 : (length s5 <= length s4)%nat) by apply drop_length.
  assert (H3 : (length s4 <= length s3)%nat)
    by apply (halve_length (length s3) s3 (Nat.le_refl _)).
  assert (H2 : length s3 = length s2) by apply fix_token_length.
  assert (H1 : length s2 = length s1) by apply fix_token_length.
  assert (H0 : (length s1 <= length s)%nat) by apply collapse_length.
  lia.
Qed.

(** X4. [clean_legal_text] never makes a text longer. *)
Theorem clean_legal_text_length (s : str) :
  (length (clean_legal_text U s) <= length s)%nat.
Proof. rewrite clean_legal_text_steps. apply spec_clean_length. Qed.

End Shape.

(** *** No character is made up *)

Section Frame.
Variable U : ucd.

Lemma from_text_in s c : In c s -> from_text s c = true.
Proof.
  intros H. unfold from_text.
  assert (E : existsb (N.eqb c) s = true).
  { apply existsb_exists. exists c. split; [exact H|apply N.eqb_refl]. }
  now rewrite E.
Qed.

Lemma from_text_written s c :
  (c =? ch " ") || (c =? ch "1") || (c =? ch "0") = true ->
  from_text s c = true.
Proof.
  unfold from_text. intros H. rewrite <- !orb_assoc in *.
  rewrite H. apply orb_true_r.
Qed.

Lemma collapse_chars f s : forall b,
  f (ch " ") = true -> forallb f s = true ->
  forallb f (spec_collapse_ws b s) = true.
Proof.
  induction s as [|c t IH]; intros b Hf H; [reflexivity|].
  cbn [forallb] in H. apply andb_true_iff in H as [Hc Ht].
  cbn [spec_collapse_ws].
  destruct (isspace c); [destruct b|]; cbn [forallb];
    rewrite ?Hf, ?Hc, ?IH by trivial; reflexivity.
Qed.

Lemma fix_token_chars f x y s : forall pre,
  f y = true -> forallb f s = true ->
  forallb f (spec_fix_token U x y pre s) = true.
Proof.
  induction s as [|c t IH]; intros pre Hf H; [reflexivity|].
  cbn [forallb] in H. apply andb_true_iff in H as [Hc Ht].
  cbn [spec_fix_token forallb]. rewrite (IH _ Hf Ht), andb_true_r.
  now destruct ((c =? x) && boundary U pre (c :: t) &&
                boundary U (c :: pre) t).
Qed.

Lemma halve_chars f n : forall s,
  (length s <= n)%nat -> forallb f s = true ->
  forallb f (spec_halve_sect s) = true.
Proof.
  induction n as [|n IH]; intros s L H.
  - destruct s; [reflexivity|simpl in L; lia].
  - destruct s as [|a [|b t]]; [reflexivity|exact H|].
    rewrite halve_cons2. cbn [length] in L. cbn [forallb] in H.
    apply andb_true_iff in H as [Ha H].
    destruct ((a =? sect) && (b =? sect)) eqn:E; cbn [forallb].
    + apply andb_true_iff in E as [E _]. apply N.eqb_eq in E. subst a.
      rewrite Ha. apply andb_true_iff in H as [_ H].
      apply IH; [lia|exact H].
    + rewrite Ha. apply IH; [cbn [length]; lia|exact H].
Qed.

Lemma drop_chars f d s :
  forallb f s = true -> forallb f (spec_drop_ws_before d s) = true.
Proof.
  induction s as [|c t IH]; [reflexivity|]. cbn [forallb]. intros H.
  apply andb_true_iff in H as [Hc Ht]. cbn [spec_drop_ws_before].
  destruct (isspace c && before_char d t); [now apply IH|].
  cbn [forallb]. now rewrite Hc, IH.
Qed.

Lemma strip_chars f s : forallb f s = true -> forallb f (strip s) = true.
Proof.
  intros H. destruct (strip_spec s) as (l & r & E & _).
  rewrite E, !forallb_app in H.
  apply andb_true_iff in H as [_ H]. now apply andb_true_iff in H as [H _].
Qed.

(** X5. [clean_legal_text] makes up no text: every character of the result
    is a character of the input, a space, "1" or "0". *)
Theorem clean_legal_text_characters (s : str) :
  forallb (from_text s) (clean_legal_text U s) = true.
Proof.
  rewrite clean_legal_text_steps. unfold spec_clean_legal_text.
  apply strip_chars, drop_chars, drop_chars.
  apply (halve_chars _ _ _ (Nat.le_refl _)).
  apply fix_token_chars; [now apply from_text_written|].
  apply fix_token_chars; [now apply from_text_written|].
  apply collapse_chars; [now apply from_text_written|].
  apply forallb_forall. intros c. apply from_text_in.
Qed.

End Frame.

Section FixedPoints.
Variable U : ucd.

Lemma halve_shrinks n : forall s, (length s <= n)%nat ->
  no_pair s = false -> (length (spec_halve_sect s) < length s)%nat.
Proof.
  induction n as [|n IH]; intros s L P.
  - destruct s; [discriminate P|simpl in L; lia].
  - destruct s as [|a [|b t]]; [discriminate P| |].
    + cbn [no_pair head_is] in P. now rewrite andb_false_r in P.
    + rewrite halve_cons2. cbn [length] in L.
      cbn [no_pair head_is] in P. fold (no_pair (b :: t)) in P.
      destruct ((a =? sect) && (b =? sect)); cbn [length].
      * assert (Lt : (length t <= length t)%nat) by lia.
        pose proof (halve_length (length t) t Lt). lia.
      * cbn [negb andb] in P.
        assert (Lt : (length (b :: t) <= n)%nat) by (cbn [length]; lia).
        specialize (IH (b :: t) Lt P). cbn [length] in IH. lia.
Qed.

(** X6. The texts that [clean_legal_text] returns unchanged are exactly
    the cleaned ones: whitespace only as single spaces, none at the ends or
    before a period or a comma, no lone "l" or "O", and no two section
    signs in a row. *)
Theorem clean_legal_text_fixed_points (s : str) :
  clean_legal_text U s = s <-> cleaned U s = true.
Proof.
  rewrite clean_legal_text_steps. split; [|apply cleaned_fixed].
  intros E.
  destruct (spec_clean_shape U s) as (S & L & O & D & C & T).
  cbv zeta in *. rewrite E in S, L, O, D, C, T.
  unfold cleaned. rewrite S, L, O, D, C, T. cbn [andb]. rewrite !andb_true_r.
  revert E. unfold spec_clean_legal_text.
  set (s1 := spec_collapse_ws false s).
  set (s2 := spec_fix_token U (ch "l") (ch "1") [] s1).
  set (s3 := spec_fix_token U (ch "O") (ch "0") [] s2).
  set (s4 := spec_halve_sect s3).
  set (s5 := spec_drop_ws_before (ch ".") s4).
  set (s6 := spec_drop_ws_before (ch ",") s5).
  intros E.
  assert (H6 : (length (strip s6) <= length s6)%nat)
    by apply strip_length.
  assert (H5 : (length s6 <= length s5)%nat) by apply drop_length.
  assert (H4 : (length s5 <= length s4)%nat) by apply drop_length.
  assert (H3 : (length s4 <= length s3)%nat)
    by apply (halve_length (length s3) s3 (Nat.le_refl _)).
  assert (H2 : length s3 = length s2) by apply fix_token_length.
  assert (H1 : length s2 = length s1) by apply fix_token_length.
  assert (H0 : (length s1 <= length s)%nat) by apply collapse_length.
  assert (P3 : no_pair s3 = true).
  { destruct (no_pair s3) eqn:P; [reflexivity|].
    pose proof (halve_shrinks (length s3) s3 (Nat.le_refl _) P) as Hs.
    fold s4 in Hs. rewrite E in H6. lia. }
  assert (S1 : single_spaced s1 = true)
    by apply (collapse_single_spaced s false).
  assert (S2 : single_spaced s2 = true)
    by (now apply fix_token_single_spaced).
  assert (S3 : single_spaced s3 = true)
    by (now apply fix_token_single_spaced).
  assert (E4 : s4 = s3) by (now apply halve_fixed).
  assert (S4 : single_spaced s4 = true) by (now rewrite E4).
  assert (P4 : no_pair s4 = true) by (now rewrite E4).
  assert (S5 : single_spaced s5 = true)
    by (now apply drop_single_spaced).
  assert (P5 : no_pair s5 = true)
    by (apply drop_no_pair; auto; discriminate).
  assert (P6 : no_pair s6 = true)
    by (apply drop_no_pair; auto; discriminate).
  destruct (strip_spec s6) as (l & r & E6 & _).
  rewrite E in E6. rewrite E6 in P6.
  apply no_pair_app in P6 as [_ P6]. now apply no_pair_app in P6 as [P6 _].
Qed.

(** *** Runs of section signs *)

Lemma single_spaced_plain s :
  existsb isspace s = false -> single_spaced s = true.
Proof.
  induction s as [|c t IH]; [reflexivity|]. cbn [existsb single_spaced].
  intros H. apply orb_false_iff in H as [Hc Ht]. now rewrite Hc, IH.
Qed.

Lemma no_token_absent x s : forall pre,
  existsb (N.eqb x) s = false -> no_token U x pre s = true.
Proof.
  induction s as [|c t IH]; intros pre; [reflexivity|].
  cbn [existsb no_token]. intros H. apply orb_false_iff in H as [Hc Ht].
  rewrite N.eqb_sym in Hc. now rewrite Hc, IH.
Qed.

Lemma no_ws_before_plain d s :
  existsb isspace s = false -> no_ws_before d s = true.
Proof.
  induction s as [|c t IH]; [reflexivity|]. cbn [existsb no_ws_before].
  intros H. apply orb_false_iff in H as [Hc Ht]. now rewrite Hc, IH.
Qed.

Lemma stripped_plain s : existsb isspace s = false -> stripped s = true.
Proof.
  intros H. unfold stripped.
  assert (R : existsb isspace (rev s) = false).
  { destruct (existsb isspace (rev s)) eqn:E; [|reflexivity].
    apply existsb_exists in E as (x & Hx & Hs).
    apply in_rev in Hx.
    assert (existsb isspace s = true)
      by (apply existsb_exists; now exists x).
    congruence. }
  destruct s as [|c t]; [reflexivity|].
  cbn [existsb head_space] in *. apply orb_false_iff in H as [-> _].
  destruct (rev (c :: t)) as [|c' t']; [reflexivity|].
  cbn [existsb head_space] in *. now apply orb_false_iff in R as [-> _].
Qed.

Lemma halve_run k :
  spec_halve_sect (repeat sect k) = repeat sect (Nat.div2 (S k)) /\
  spec_halve_sect (repeat sect (S k)) = repeat sect (Nat.div2 (S (S k))).
Proof.
  induction k as [|k [IH1 IH2]]; [split; reflexivity|].
  split; [exact IH2|].
  change (repeat sect (S (S k))) with (sect :: sect :: repeat sect k).
  rewrite halve_cons2, IH1. reflexivity.
Qed.

Lemma run_plain (c : N) k :
  isspace c = false -> existsb isspace (repeat c k) = false.
Proof. intros H. induction k; simpl; [reflexivity|]. now rewrite H. Qed.

(** X7. A run of [k] section signs is cleaned to a run of half as many,
    rounded up: one call halves a run once. *)
Theorem clean_legal_text_section_run (k : nat) :
  clean_legal_text U (repeat sect k) = repeat sect (Nat.div2 (S k)).
Proof.
  rewrite clean_legal_text_steps. unfold spec_clean_legal_text.
  assert (A : forall x, x <> sect -> forall n,
            existsb (N.eqb x) (repeat sect n) = false).
  { intros x Hx n. induction n; simpl; [reflexivity|].
    apply N.eqb_neq in Hx. now rewrite Hx. }
  rewrite (collapse_fixed (repeat sect k))
    by (apply single_spaced_plain; apply run_plain; reflexivity).
  rewrite (fix_token_fixed U (ch "l") (ch "1") (repeat sect k) [])
    by (apply no_token_absent; apply A; discriminate).
  rewrite (fix_token_fixed U (ch "O") (ch "0") (repeat sect k) [])
    by (apply no_token_absent; apply A; discriminate).
  rewrite (proj1 (halve_run k)).
  assert (R : existsb isspace (repeat sect (Nat.div2 (S k))) = false)
    by (apply run_plain; reflexivity).
  rewrite (drop_fixed (ch ".")) by (now apply no_ws_before_plain).
  rewrite (drop_fixed (ch ",")) by (now apply no_ws_before_plain).
  now apply strip_fixed, stripped_plain.
Qed.

End FixedPoints.

Section Convergence.
Variable U : ucd.

(** A pass over the result of a pass either changes nothing or makes the
    text shorter: only pairs of section signs are left to work on. *)
Lemma second_pass_progress s :
  let y := spec_clean_legal_text U s in
  spec_clean_legal_text U y = y \/
  (length (spec_clean_legal_text U y) < length y)%nat.
Proof.
  cbv zeta. destruct (spec_clean_shape U s) as (S & L & O & D & C & T).
  cbv zeta in *. set (y := spec_clean_legal_text U s) in *. clearbody y.
  destruct (no_pair y) eqn:P.
  - left. apply cleaned_fixed. unfold cleaned.
    now rewrite S, L, O, P, D, C, T.
  - right. unfold spec_clean_legal_text.
    rewrite (collapse_fixed y S).
    rewrite (fix_token_fixed U _ _ y [] L), (fix_token_fixed U _ _ y [] O).
    set (s4 := spec_halve_sect y).
    set (s5 := spec_drop_ws_before (ch ".") s4).
    set (s6 := spec_drop_ws_before (ch ",") s5).
    assert (H6 : (length (strip s6) <= length s6)%nat)
      by apply strip_length.
    assert (H5 : (length s6 <= length s5)%nat) by apply drop_length.
    assert (H4 : (length s5 <= length s4)%nat) by apply drop_length.
    assert (H3 : (length s4 < length y)%nat)
      by apply (halve_shrinks (length y) y (Nat.le_refl _) P).
    lia.
Qed.

Lemma passes_fixed n : forall s,
  (length (spec_clean_legal_text U s) <= n)%nat ->
  spec_clean_legal_text U
    (Nat.iter n (spec_clean_legal_text U) (spec_clean_legal_text U s))
  = Nat.iter n (spec_clean_legal_text U) (spec_clean_legal_text U s).
Proof.
  induction n as [|n IH]; intros s Hl.
  - cbn [Nat.iter].
    destruct (spec_clean_legal_text U s); [reflexivity|simpl in Hl; lia].
  - rewrite Nat.iter_succ_r.
    destruct (second_pass_progress s) as [E | Lt]; cbv zeta in *.
    + rewrite E.
      assert (F : forall k, Nat.iter k (spec_clean_legal_text U)
                              (spec_clean_legal_text U s)
                            = spec_clean_legal_text U s).
      { intros k. induction k as [|k IHk]; [reflexivity|].
        rewrite Nat.iter_succ. now rewrite IHk. }
      now rewrite F.
    + apply IH. lia.
Qed.

(** X8. Cleaning again and again comes to rest: after at most as many
    passes as the text has characters, and one more, another pass changes
    nothing. *)
Theorem clean_legal_text_converges (s : str) :
  clean_legal_text U (Nat.iter (S (length s)) (clean_legal_text U) s)
  = Nat.iter (S (length s)) (clean_legal_text U) s.
Proof.
  assert (I : forall n x, Nat.iter n (clean_legal_text U) x
                          = Nat.iter n (spec_clean_legal_text U) x).
  { intros n x. induction n as [|n IH]; [reflexivity|].
    rewrite !Nat.iter_succ. now rewrite IH, clean_legal_text_steps. }
  rewrite I, clean_legal_text_steps, Nat.iter_succ_r.
  apply passes_fixed. apply spec_clean_length.
Qed.

End Convergence.

(** ** [is_legal_entity]: exactly when it answers true *)

Section EntityReading.
Variable U : ucd.

(** A match somewhere in the text is found by the scan. *)
Lemma search_from_finds r a : forall pre b,
  match_at U r false (rev a ++ pre) b <> None ->
  search_from U r pre (a ++ b) <> None.
Proof.
  induction a as [|c a IH]; intros pre b H.
  - simpl in *. destruct b; simpl;
      destruct (match_at U r false pre _); congruence.
  - simpl app. cbn [search_from].
    destruct (match_at U r false pre (c :: a ++ b)); [discriminate|].
    apply IH. now rewrite <- rev_cons_app.
Qed.

(** Every token of the pattern starts with a letter; the dotted ones end
    in a period, the others in a letter. *)
Lemma suffix_head tok b :
  In tok dotted_suffixes \/ In tok undotted_suffixes ->
  head_word U (tok ++ b) = true.
Proof.
  unfold dotted_suffixes, undotted_suffixes. simpl.
  intros [[<- | [<- | [<- | [<- | []]]]] | [<- | [<- | [<- | []]]]];
    reflexivity.
Qed.

Lemma undotted_word tok pre :
  In tok undotted_suffixes -> head_word U (rev tok ++ pre) = true.
Proof.
  unfold undotted_suffixes. simpl.
  intros [<- | [<- | [<- | []]]]; reflexivity.
Qed.

Lemma corporation_reads tok pre r :
  In tok dotted_suffixes \/ In tok undotted_suffixes ->
  boundary U pre (tok ++ r) = true ->
  boundary U (rev tok ++ pre) r = true ->
  den U LegalPatterns.CORPORATION pre (tok ++ r) [] (rev tok ++ pre) r [].
Proof.
  intros Hin B1 B2. cbn -[text lit].
  exists pre, (tok ++ r), []. split; [now repeat split|].
  exists (rev tok ++ pre), r, []. split.
  - unfold dotted_suffixes, undotted_suffixes in Hin. simpl in Hin.
    destruct Hin as [[<- | [<- | [<- | [<- | []]]]] | [<- | [<- | [<- | []]]]].
    + left. now apply den_text.
    + do 2 right. left. now apply den_text.
    + do 3 right. left. now apply den_text.
    + do 6 right. now apply den_text.
    + right. left. now apply den_text.
    + do 4 right. left. now apply den_text.
    + do 5 right. left. now apply den_text.
  - exists (rev tok ++ pre), r, []. now repeat split.
Qed.

Lemma corporation_boundaries pre rest p r g :
  den U LegalPatterns.CORPORATION pre rest [] p r g ->
  exists tok, (In tok dotted_suffixes \/ In tok undotted_suffixes) /\
              rest = tok ++ r /\ boundary U pre rest = true /\
              boundary U (rev tok ++ pre) r = true.
Proof.
  intros D. cbn -[text lit] in D.
  destruct D as (p0 & r0 & g0 & (B0 & -> & -> & ->) & p1 & r1 & g1 & D &
                 p2 & r2 & g2 & (B & -> & -> & ->) & -> & -> & ->).
  repeat destruct D as [D | D]; apply den_text in D as (-> & -> & _);
    eexists; (split; [|split; [reflexivity|split; [exact B0|exact B]]]);
    unfold dotted_suffixes, undotted_suffixes; simpl; tauto.
Qed.

(** X9. [is_legal_entity] answers true exactly when a suffix token stands
    in the text after something that is not a word character (or at the
    start) and, for LLC, Corporation and Company, before something that is
    not a word character (or at the end); for Inc., L.L.C., Corp. and Co.,
    right before a word character. *)
Theorem is_legal_entity_iff (s : str) :
  is_legal_entity U s = true <->
  exists a tok b,
    s = a ++ tok ++ b /\ head_word U (rev a) = false /\
    ((In tok undotted_suffixes /\ head_word U b = false) \/
     (In tok dotted_suffixes /\ head_word U b = true)).
Proof.
  unfold is_legal_entity, re_search. split.
  - intros H.
    destruct (search_from U LegalPatterns.CORPORATION [] s)
      as [[[p r] g]|] eqn:E; [clear H|discriminate].
    apply search_from_sound in E as (a & b & -> & E).
    apply match_at_sound, corporation_boundaries in E
      as (tok & Hin & -> & B0 & B).
    rewrite app_nil_r in *. exists a, tok, r. split; [reflexivity|].
    unfold boundary in B0, B. rewrite (suffix_head tok r Hin) in B0.
    split; [now destruct (head_word U (rev a))|].
    destruct Hin as [Hin | Hin].
    + right. split; [exact Hin|].
      now rewrite (dotted_not_word U tok _ Hin) in B.
    + left. split; [exact Hin|].
      rewrite (undotted_word tok _ Hin) in B.
      now destruct (head_word U r).
  - intros (a & tok & b & -> & Ha & H).
    assert (Hin : In tok dotted_suffixes \/ In tok undotted_suffixes)
      by tauto.
    assert (F : search_from U LegalPatterns.CORPORATION [] (a ++ tok ++ b)
                <> None).
    { apply search_from_finds.
      apply (match_at_complete U _ _ _ (rev tok ++ rev a ++ []) b []).
      apply corporation_reads; [exact Hin| |]; unfold boundary;
        rewrite app_nil_r.
      - now rewrite (suffix_head tok b Hin), Ha.
      - destruct H as [[Hu Hb] | [Hd Hb]].
        + now rewrite (undotted_word tok _ Hu), Hb.
        + now rewrite (dotted_not_word U tok _ Hd), Hb. }
    destruct (search_from U LegalPatterns.CORPORATION [] (a ++ tok ++ b));
      congruence.
Qed.

Lemma suffix_capital tok :
  In tok dotted_suffixes \/ In tok undotted_suffixes ->
  existsb (between (ch "A") (ch "Z")) tok = true.
Proof.
  unfold dotted_suffixes, undotted_suffixes. simpl.
  intros [[<- | [<- | [<- | [<- | []]]]] | [<- | [<- | [<- | []]]]];
    reflexivity.
Qed.

(** X10. The match is case-sensitive: a text without a capital letter A-Z
    is never a legal entity. *)
Theorem is_legal_entity_case_sensitive (s : str) :
  existsb (between (ch "A") (ch "Z")) s = false ->
  is_legal_entity U s = false.
Proof.
  intros H. destruct (is_legal_entity U s) eqn:E; [|reflexivity].
  assert (O : exists a tok b, s = a ++ tok ++ b /\
                (In tok dotted_suffixes \/ In tok undotted_suffixes)).
  { apply is_legal_entity_true in E as [E | E];
      apply existsb_exists in E as (tok & Hin & E).
    - apply followed_by_word_iff in E as (a & b & -> & _).
      exists a, tok, b. tauto.
    - apply contains_iff in E as (a & b & ->). exists a, tok, b. tauto. }
  destruct O as (a & tok & b & -> & Hin).
  rewrite !existsb_app in H.
  apply orb_false_iff in H as [_ H]. apply orb_false_iff in H as [H _].
  rewrite (suffix_capital tok Hin) in H. discriminate H.
Qed.

End EntityReading.

(** ** [extract_document_type]: keywords that never decide *)

Section Shadowed.
Variable U : ucd.

Ltac scan_keywords :=
  repeat match goal with
         | |- context [if contains ?k ?t then _ else _] =>
             let E := fresh "E" in
             destruct (contains k t) eqn:E; cbv iota
         end.

(** X11. Keywords listed under a later type are taken by an earlier one:
    a text is classified as an opinion only when it contains "opinion"
    ("decision" and "judgment" make it an order), and as a complaint only
    when it contains "complaint" or "claim" ("petition" makes it a
    motion). *)
Theorem extract_document_type_shadowed (t : str) :
  (extract_document_type U t = lit "opinion" ->
   contains (lit "opinion") (lower U t) = true) /\
  (extract_document_type U t = lit "complaint" ->
   contains (lit "complaint") (lower U t) = true \/
   contains (lit "claim") (lower U t) = true) /\
  extract_document_type U (lit "Final Judgment") = lit "order" /\
  extract_document_type U (lit "The decision below") = lit "order" /\
  extract_document_type U (lit "Petition for Review") = lit "motion".
Proof.
  split; [|split; [|repeat split; vm_compute; reflexivity]];
    unfold extract_document_type, DOCUMENT_TYPES;
    cbn [scan_types keyword_found map];
    generalize (lower U t) as tl; intros tl;
    scan_keywords; intros H; try (vm_compute in H; discriminate H);
    auto; congruence.
Qed.

End Shadowed.

(** ** [normalize_court_name]: the shape of a result, and a second pass *)

Section CourtNames.

Lemma str_eqb_true a b : str_eqb a b = true -> a = b.
Proof. unfold str_eqb. now destruct (list_eq_dec N.eq_dec a b). Qed.

(** Whitespace separates: the tokens of a text around a whitespace
    character are the tokens of the two sides. *)
Lemma split_ws_sep a : forall acc c b,
  isspace c = true ->
  split_ws acc (a ++ c :: b) = split_ws acc a ++ split_ws [] b.
Proof.
  induction a as [|x a IH]; intros acc c b Hc; simpl.
  - rewrite Hc. now destruct acc.
  - destruct (isspace x).
    + destruct acc; rewrite (IH [] c b Hc); reflexivity.
    + now apply IH.
Qed.

Lemma split_join parts :
  split (join (lit " ") parts) = concat (map split parts).
Proof.
  induction parts as [|p ps IH]; [reflexivity|].
  destruct ps as [|q ps].
  - simpl. now rewrite app_nil_r.
  - rewrite join_cons by discriminate.
    change (lit " " ++ join (lit " ") (q :: ps))
      with (ch " " :: join (lit " ") (q :: ps)).
    unfold split in *. rewrite split_ws_sep by reflexivity.
    now rewrite IH.
Qed.

Lemma join_app sep a : forall b,
  a <> [] -> b <> [] ->
  join sep (a ++ b) = join sep a ++ sep ++ join sep b.
Proof.
  induction a as [|p a IH]; intros b Ha Hb; [easy|].
  destruct a as [|q a].
  - simpl app. now rewrite join_cons.
  - change ((p :: q :: a) ++ b) with (p :: (q :: a) ++ b).
    rewrite join_cons by discriminate.
    rewrite (IH b) by (trivial; discriminate).
    rewrite (join_cons sep p (q :: a)) by discriminate.
    now rewrite <- !app_assoc.
Qed.

(** A text in normal form: its words, joined by single spaces. *)
Lemma join_split_parts parts :
  Forall (fun p => split p <> [] /\ join (lit " ") (split p) = p) parts ->
  join (lit " ") (concat (map split parts)) = join (lit " ") parts.
Proof.
  induction 1 as [|p ps [Hn Hj] Hps IH]; [reflexivity|].
  cbn [map concat]. destruct ps as [|q ps].
  - simpl. now rewrite app_nil_r.
  - assert (Hq : concat (map split (q :: ps)) <> []).
    { inversion Hps as [|? ? [Hq _] _]; subst. cbn [map concat].
      destruct (split q); [easy|discriminate]. }
    rewrite join_app by trivial. rewrite IH, Hj.
    now rewrite (join_cons _ p (q :: ps)) by discriminate.
Qed.

Lemma split_ws_word tok : forall acc,
  existsb isspace tok = false ->
  split_ws acc tok = match rev tok ++ acc with
                     | [] => []
                     | w => [rev w]
                     end.
Proof.
  induction tok as [|c t IH]; intros acc H; simpl.
  - now destruct acc.
  - simpl in H. apply orb_false_iff in H as [Hc Ht]. rewrite Hc.
    rewrite (IH _ Ht). now rewrite <- app_assoc.
Qed.

Lemma split_word tok :
  tok <> [] -> existsb isspace tok = false -> split tok = [tok].
Proof.
  intros Hn H. unfold split. rewrite (split_ws_word tok [] H).
  rewrite app_nil_r. destruct (rev tok) eqn:E.
  - apply (f_equal (@rev N)) in E. rewrite rev_involutive in E. easy.
  - now rewrite <- E, rev_involutive.
Qed.

Lemma tokens_words s toks :
  tokens s toks ->
  Forall (fun tok => tok <> [] /\ existsb isspace tok = false) toks.
Proof. induction 1; constructor; auto. Qed.

Lemma dict_get_value {V} (d : dict V) k v :
  dict_get d k = Some v -> In v (map snd d).
Proof.
  induction d as [|[k' v'] d IH]; simpl; [discriminate|].
  destruct (str_eqb k k'); [|auto]. intros E. injection E as ->. now left.
Qed.

Lemma values_plain :
  forallb plain_value (map snd COURT_ABBREVIATIONS) = true.
Proof. vm_compute. reflexivity. Qed.

Lemma expand_plain v :
  forallb (fun w => negb (dict_in COURT_ABBREVIATIONS w)) (split v) = true ->
  map expand (split v) = split v.
Proof.
  induction (split v) as [|w ws IH]; [reflexivity|]. cbn [forallb map].
  intros H. apply andb_true_iff in H as [Hw H]. rewrite (IH H).
  f_equal. unfold expand, dict_in in *.
  now destruct (dict_get COURT_ABBREVIATIONS w).
Qed.

Lemma value_facts k v :
  dict_get COURT_ABBREVIATIONS k = Some v ->
  split v <> [] /\ join (lit " ") (split v) = v /\
  map expand (split v) = split v /\
  dict_get COURT_ABBREVIATIONS v = None.
Proof.
  intros H. apply dict_get_value in H.
  pose proof values_plain as P. rewrite forallb_forall in P.
  specialize (P v H). unfold plain_value in P.
  repeat rewrite andb_true_iff in P. destruct P as [[[P1 P2] P3] P4].
  repeat split.
  - intros E. now rewrite E in P1.
  - now apply str_eqb_true.
  - now apply expand_plain.
  - apply negb_true_iff in P4. unfold dict_in in P4.
    now destruct (dict_get COURT_ABBREVIATIONS v).
Qed.

(** One expanded token: in normal form, and its words expand to
    themselves. *)
Lemma expand_word tok :
  tok <> [] -> existsb isspace tok = false ->
  split (expand tok) <> [] /\
  join (lit " ") (split (expand tok)) = expand tok /\
  map expand (split (expand tok)) = split (expand tok).
Proof.
  intros Hn Hs.
  assert (E : (exists v, dict_get COURT_ABBREVIATIONS tok = Some v /\
                         expand tok = v) \/
              (dict_get COURT_ABBREVIATIONS tok = None /\ expand tok = tok)).
  { unfold expand. destruct (dict_get COURT_ABBREVIATIONS tok) as [v|];
      [left; now exists v|now right]. }
  destruct E as [(v & G & ->) | (G & ->)].
  - destruct (value_facts tok v G) as (A & B & C & _). auto.
  - rewrite (split_word tok Hn Hs). repeat split; [discriminate|].
    cbn [map]. unfold expand. now rewrite G.
Qed.

Lemma expanded_words toks :
  Forall (fun tok => tok <> [] /\ existsb isspace tok = false) toks ->
  let out := join (lit " ") (map expand toks) in
  join (lit " ") (split out) = out /\ map expand (split out) = split out.
Proof.
  intros F. cbv zeta. rewrite split_join. split.
  - apply join_split_parts. induction F as [|tok toks [Hn Hs] _ IH];
      constructor; [|exact IH].
    destruct (expand_word tok Hn Hs) as (A & B & _). now split.
  - induction F as [|tok toks [Hn Hs] _ IH]; [reflexivity|].
    cbn [map concat]. rewrite map_app, IH.
    destruct (expand_word tok Hn Hs) as (_ & _ & C). now rewrite C.
Qed.

Lemma normalize_court_name_words abbr out :
  normalize_court_name abbr = Ok out ->
  join (lit " ") (split out) = out /\ map expand (split out) = split out.
Proof.
  rewrite normalize_court_name_eq.
  destruct (dict_get COURT_ABBREVIATIONS abbr) as [v|] eqn:G;
    intros E; injection E as <-.
  - destruct (value_facts abbr v G) as (_ & B & C & _). now split.
  - apply expanded_words. apply (tokens_words abbr), split_tokens.
Qed.

(** X12. A result of [normalize_court_name] is in normal form: it is its
    own words joined by single spaces, so it has no whitespace at its ends
    and none but single spaces inside. *)
Theorem normalize_court_name_normal_form (abbr out : str) :
  normalize_court_name abbr = Ok out ->
  join (lit " ") (split out) = out.
Proof. intros H. now apply (normalize_court_name_words abbr). Qed.

(** X13. Two passes settle a name: what [normalize_court_name] returns
    for its own result is returned unchanged by a further pass. One pass
    is not always enough, since the first can put a key of several words
    together: "9th  Cir." with two spaces gives "9th Cir.", and that gives
    "Ninth Circuit". *)
Theorem normalize_court_name_stable (abbr once twice : str) :
  normalize_court_name abbr = Ok once ->
  normalize_court_name once = Ok twice ->
  normalize_court_name twice = Ok twice.
Proof.
  intros H1 H2. destruct (normalize_court_name_words abbr once H1) as [J X].
  rewrite normalize_court_name_eq in H2.
  destruct (dict_get COURT_ABBREVIATIONS once) as [v|] eqn:G;
    injection H2 as <-.
  - destruct (value_facts once v G) as (_ & B & C & D).
    rewrite normalize_court_name_eq, D. now rewrite C, B.
  - rewrite X, J. rewrite normalize_court_name_eq, G. now rewrite X, J.
Qed.

End CourtNames.

(** ** [extract_party_names]: a case name put together and taken apart *)

Section RoundTrip.
Variable U : ucd.

(** Where "v." stands in [p ++ " v. " ++ d] when neither [p] nor [d]
    has it. *)
Lemma versus_unique p d x y :
  contains (lit "v.") p = false -> contains (lit "v.") d = false ->
  p ++ lit " v. " ++ d = x ++ lit "v." ++ y ->
  x = p ++ lit " " /\ y = lit " " ++ d.
Proof.
  intros Hp Hd E.
  assert (Np : forall a b, p <> a ++ lit "v." ++ b).
  { intros a b ->. rewrite (proj2 (contains_iff _ _)) in Hp by eauto.
    discriminate. }
  assert (Nd : forall a b, d <> a ++ lit "v." ++ b).
  { intros a b ->. rewrite (proj2 (contains_iff _ _)) in Hd by eauto.
    discriminate. }
  apply app_eq_app in E as [l [[E1 E2] | [E1 E2]]].
  - exfalso. destruct l as [|c1 [|c2 l]]; try discriminate E2.
    injection E2 as e1 e2 _. subst c1 c2. exact (Np x l E1).
  - destruct l as [|c1 [|c2 [|c3 [|c4 l]]]]; try discriminate E2.
    + injection E2 as e1 e2. subst c1 y x. now split.
    + exfalso. injection E2 as _ _ _ _ E2. exact (Nd l y E2).
Qed.

Lemma name_before_space g ws p :
  ws <> [] -> forallb isspace ws = true -> head_space (rev p) = false ->
  g ++ ws = p ++ lit " " -> g = p.
Proof.
  intros Hn Hw Hp E. apply (f_equal (@rev N)) in E.
  rewrite !rev_app_distr in E. simpl in E.
  destruct (rev ws) as [|w [|w' ws']] eqn:R.
  - apply (f_equal (@rev N)) in R. rewrite rev_involutive in R. easy.
  - simpl in E. injection E as _ E.
    apply (f_equal (@rev N)) in E. now rewrite !rev_involutive in E.
  - exfalso. simpl in E. injection E as _ E. rewrite <- E in Hp.
    simpl in Hp.
    assert (Hw' : forallb isspace (rev ws) = true).
    { rewrite forallb_forall in *. intros z Hz. apply Hw.
      now apply in_rev. }
    rewrite R in Hw'. simpl in Hw'. rewrite Hp in Hw'.
    now rewrite andb_false_r in Hw'.
Qed.

Lemma name_after_space ws rest d :
  ws <> [] -> forallb isspace ws = true -> head_space d = false ->
  head_space rest = false ->
  ws ++ rest = lit " " ++ d -> rest = d.
Proof.
  intros Hn Hw Hd Hr E. destruct ws as [|w [|w' ws]]; [easy| |].
  - now injection E as _ E.
  - exfalso. injection E as _ E. rewrite <- E in Hd. simpl in Hd, Hw.
    rewrite Hd in Hw. now rewrite andb_false_r in Hw.
Qed.

Lemma capital_not_space c :
  between (ch "A") (ch "Z") c = true -> isspace c = false.
Proof.
  unfold between, isspace, between. intros H. bool_to_prop.
  repeat (apply orb_false_iff; split);
    try (apply andb_false_iff);
    try (left; apply N.leb_gt; simpl in *; lia);
    try (right; apply N.leb_gt; simpl in *; lia);
    try (apply N.eqb_neq; simpl in *; lia).
Qed.

(** Every reading of [p ++ " v. " ++ d] by the case-name pattern has the
    parties [p] and [d]. *)
Lemma party_shape_round_trip p d g1 g2 :
  stripped p = true -> stripped d = true ->
  contains (lit "v.") p = false -> contains (lit "v.") d = false ->
  existsb (N.eqb (ch ",")) d = false ->
  party_shape (p ++ lit " v. " ++ d) g1 g2 -> g1 = p /\ g2 = d.
Proof.
  unfold stripped. intros Sp Sd Hp Hd Hc (ws1 & ws2 & tail & E & N1 & N2 &
                                         [W1 F1] & [W2 F2] & T).
  apply andb_true_iff in Sp as [_ Sp]. apply negb_true_iff in Sp.
  apply andb_true_iff in Sd as [Sd1 Sd2]. apply negb_true_iff in Sd1, Sd2.
  replace (g1 ++ ws1 ++ lit "v." ++ ws2 ++ g2 ++ tail)
    with ((g1 ++ ws1) ++ lit "v." ++ ws2 ++ g2 ++ tail) in E
    by now rewrite <- app_assoc.
  apply versus_unique in E as [E1 E2]; trivial.
  split; [now apply (name_before_space g1 ws1 p)|].
  destruct N2 as (c & w & -> & Hcap & Hw & Hn).
  apply name_after_space in E2; trivial;
    [|simpl; now apply capital_not_space].
  destruct T as [T | (ws & rest & -> & _)].
  - destruct tail as [|t [|t' tail]]; try discriminate T.
    + now rewrite app_nil_r in E2.
    + exfalso. simpl in T. apply N.eqb_eq in T. subst t.
      rewrite <- E2 in Sd2. rewrite rev_app_distr in Sd2.
      discriminate Sd2.
  - exfalso. rewrite <- E2 in Hc. rewrite !existsb_app in Hc.
    simpl in Hc. rewrite !orb_true_r in Hc. discriminate Hc.
Qed.

(** X14. A case name put together from two parties is taken apart again:
    when neither name has whitespace at its ends or contains "v.", and the
    second has no comma, [extract_party_names] of the first, " v. " and
    the second gives back the two names. *)
Theorem extract_party_names_round_trip (p d : str) :
  stripped p = true -> stripped d = true ->
  contains (lit "v.") p = false -> contains (lit "v.") d = false ->
  existsb (N.eqb (ch ",")) d = false ->
  extract_party_names U (p ++ lit " v. " ++ d) = Ok (p, d).
Proof.
  intros Sp Sd Hp Hd Hc.
  destruct (re_match U LegalPatterns.PARTY_NAME (p ++ lit " v. " ++ d))
    as [m|] eqn:M.
  - apply party_match_sound in M as (g1 & g2 & S & _).
    destruct (extract_party_names_match U _ (ex_intro _ g1 (ex_intro _ g2 S)))
      as (h1 & h2 & [S' _] & ->).
    apply party_shape_round_trip in S' as [-> ->]; trivial.
    now rewrite !strip_fixed.
  - assert (N : ~ (exists g1 g2,
                     party_shape (p ++ lit " v. " ++ d) g1 g2)).
    { intros (g1 & g2 & S).
      now apply (party_match_complete U) in S. }
    rewrite (extract_party_names_split U _ p d N).
    + now rewrite !strip_fixed.
    + split; [reflexivity|]. intros a' b' E.
      replace (a' ++ lit " v. " ++ b')
        with ((a' ++ lit " ") ++ lit "v." ++ lit " " ++ b') in E
        by now rewrite <- app_assoc.
      apply versus_unique in E as [E _]; trivial.
      apply app_inv_tail in E. subst a'. lia.
Qed.

End RoundTrip.

Section Stripped.
Variable U : ucd.

(** X15. The names that [extract_party_names] returns have no whitespace at
    their ends, unless it found no separator and returns the whole text
    with an empty second name. *)
Theorem extract_party_names_stripped (s p d : str) :
  extract_party_names U s = Ok (p, d) ->
  (stripped p = true /\ stripped d = true) \/
  (p = s /\ d = [] /\ contains (lit " v. ") s = false).
Proof.
  unfold extract_party_names.
  destruct (re_match U LegalPatterns.PARTY_NAME s) as [m|].
  - destruct (group m 1) as [g1|]; [|discriminate].
    destruct (group m 2) as [g2|]; [|discriminate]. cbn [bind].
    intros E. injection E as <- <-. left. split; apply stripped_strip.
  - destruct (contains (lit " v. ") s).
    + destruct (index (split1 (lit " v. ") s) 0) as [p0|]; [|discriminate].
      destruct (index (split1 (lit " v. ") s) 1) as [p1|]; [|discriminate].
      cbn [bind]. intros E. injection E as <- <-. left.
      split; apply stripped_strip.
    + intros E. injection E as <- <-. now right.
Qed.

End Stripped.

(** ** [extract_paragraph_numbers], line by line *)

Section Lines.
Variable U : ucd.

Lemma split_char_app c a : forall acc b,
  split_char c acc (a ++ c :: b) = split_char c acc a ++ split_char c [] b.
Proof.
  induction a as [|x a IH]; intros acc b; simpl.
  - now rewrite N.eqb_refl.
  - destruct (x =? c); [|apply IH]. now rewrite IH.
Qed.

Lemma collect_numbers_app l1 : forall l2 numbers,
  collect_numbers U (l1 ++ l2) numbers =
  (ns <- collect_numbers U l1 numbers ;; collect_numbers U l2 ns).
Proof.
  induction l1 as [|line l1 IH]; intros l2 numbers; [reflexivity|].
  simpl app. cbn [collect_numbers].
  destruct (re_match U LegalPatterns.PARAGRAPH_NUMBER line); [|apply IH].
  destruct (group m 1) as [g|]; [|reflexivity]. cbn [bind].
  destruct (int U g) as [n|]; [|reflexivity]. cbn [bind]. apply IH.
Qed.

(** The numbers found so far are only added to. *)
Lemma collect_numbers_shift lines : forall numbers r,
  collect_numbers U lines numbers = Ok r ->
  forall pre, collect_numbers U lines (pre ++ numbers) = Ok (pre ++ r).
Proof.
  induction lines as [|line lines IH]; intros numbers r H pre;
    cbn [collect_numbers] in *.
  - injection H as <-. reflexivity.
  - destruct (re_match U LegalPatterns.PARAGRAPH_NUMBER line);
      [|now apply IH].
    destruct (group m 1) as [g|]; [|discriminate H]. cbn [bind] in *.
    destruct (int U g) as [n|]; [|discriminate H]. cbn [bind] in *.
    rewrite <- app_assoc. now apply IH.
Qed.

(** X16. The lines are read independently: the numbers of two texts put
    together with a newline between them are the numbers of the first
    followed by the numbers of the second. *)
Theorem extract_paragraph_numbers_newline (a b : str) (na nb : list N) :
  extract_paragraph_numbers U a = Ok na ->
  extract_paragraph_numbers U b = Ok nb ->
  extract_paragraph_numbers U (a ++ 10 :: b) = Ok (na ++ nb).
Proof.
  unfold extract_paragraph_numbers. intros Ha Hb.
  rewrite split_char_app, collect_numbers_app, Ha. cbn [bind].
  rewrite <- (app_nil_r na) at 1. now apply collect_numbers_shift.
Qed.

End Lines.

(** ** The other patterns of [LegalPatterns] *)

Section CaseFolding.
Variable U : ucd.

Lemma fold_case_cases x :
  (65 <= x <= 90 /\ fold_case x = x + 32) \/
  ((x = 304 \/ x = 305) /\ fold_case x = 105) \/
  (x = 8490 /\ fold_case x = 107) \/
  (x = 383 /\ fold_case x = 115) \/
  ((x < 65 \/ 90 < x) /\ x <> 304 /\ x <> 305 /\ x <> 8490 /\ x <> 383 /\
   fold_case x = x).
Proof.
  unfold fold_case, between.
  destruct (N.leb_spec 65 x); destruct (N.leb_spec x 90); cbn [andb];
    try (left; split; [lia|reflexivity]);
    (destruct (N.eqb_spec x 304); [right; left; split; [lia|reflexivity]|]);
    (destruct (N.eqb_spec x 305); [right; left; split; [lia|reflexivity]|]);
    cbn [orb];
    (destruct (N.eqb_spec x 8490);
     [right; right; left; split; [lia|reflexivity]|]);
    (destruct (N.eqb_spec x 383);
     [right; right; right; left; split; [lia|reflexivity]|]);
    right; right; right; right; repeat split; trivial; lia.
Qed.

Lemma icase_mem c x :
  c < 128 -> cset_mem U (icase c) x = (fold_case x =? fold_case c).
Proof.
  intros Hc. apply eq_true_iff_eq. rewrite N.eqb_eq.
  pose proof (fold_case_cases x) as Fx.
  pose proof (fold_case_cases c) as Fc.
  unfold cset_mem, icase, between.
  destruct (N.leb_spec 65 c); destruct (N.leb_spec c 90);
    destruct (N.leb_spec 97 c); destruct (N.leb_spec c 122);
    try lia; cbn [andb orb]; cbv iota zeta;
    repeat match goal with
           | |- context [c =? ?b] => destruct (N.eqb_spec c b); try lia
           | |- context [c - 32 =? ?b] =>
               destruct (N.eqb_spec (c - 32) b); try lia
           end;
    cbn [existsb citem_mem];
    rewrite ?orb_true_iff, ?N.eqb_eq, ?orb_false_r; lia.
Qed.

Lemma den_itext s : forallb (fun c => c <? 128) s = true ->
  forall pre rest g p' r' g',
  den U (itext s) pre rest g p' r' g' <->
  exists w, map fold_case w = map fold_case s /\
            rest = w ++ r' /\ p' = rev w ++ pre /\ g' = g.
Proof.
  unfold itext. induction s as [|c s IH]; intros Hs pre rest g p' r' g'.
  - simpl. unfold stay. split.
    + intros (-> & -> & ->). now exists [].
    + intros (w & Hw & -> & -> & ->). now destruct w.
  - cbn [forallb] in Hs. apply andb_true_iff in Hs as [Hc Hs].
    apply N.ltb_lt in Hc. cbn [map seq den]. split.
    + intros (p & r & g1 & (x & Hx & -> & -> & ->) & D).
      apply (IH Hs) in D as (w & Hw & -> & -> & ->).
      exists (x :: w). rewrite icase_mem in Hx by exact Hc.
      apply N.eqb_eq in Hx. cbn [map]. rewrite Hx, Hw.
      repeat split. now rewrite rev_cons_app.
    + intros ([|x w] & Hw & -> & -> & ->); [discriminate Hw|].
      cbn [map] in Hw. injection Hw as Hx Hw.
      exists (x :: pre), (w ++ r'), g. split.
      * exists x. rewrite icase_mem by exact Hc.
        now rewrite Hx, N.eqb_refl.
      * apply (IH Hs). exists w. now rewrite rev_cons_app.
Qed.

End CaseFolding.

Section PageNumber.
Variable U : ucd.

Lemma at_eol_space r : at_eol r = true -> forallb isspace r = true.
Proof.
  destruct r as [|c [|c' r]]; simpl; try easy.
  intros H. apply N.eqb_eq in H. now subst c.
Qed.

Lemma page_number_sound line m :
  re_match U LegalPatterns.PAGE_NUMBER line = Some m ->
  exists ds, page_line U line ds /\ group m 1 = Ok ds.
Proof.
  destruct m as [[p r] g]. intros H. apply match_at_sound in H.
  cbn [LegalPatterns.PAGE_NUMBER seq alt den] in H.
  destruct H as (p0 & r0 & g0 & (_ & -> & -> & ->) &
                 p1 & r1 & g1 & (ws & Hws & -> & -> & ->) &
                 p2 & r2 & g2 & L &
                 p3 & r3 & g3 & (g3' & (ds & Hne & Hds & -> & -> & ->) & ->) &
                 p4 & r4 & g4 & (ws' & Hws' & -> & -> & ->) &
                 p5 & r5 & g5 & (He & -> & -> & ->) & (Ep & Er & Eg)).
  subst p r g.
  rewrite forallb_space in Hws, Hws'. rewrite forallb_digit in Hds.
  exists ds. rewrite consumed_app. split; [|apply group_head].
  assert (Hend : forallb isspace (ws' ++ r4) = true)
    by (rewrite forallb_app, Hws'; now apply at_eol_space).
  revert L. generalize (ws' ++ r4) Hend. intros tail Htail L. clear He.
  destruct L as [(p6 & r6 & g6 & D & p7 & r7 & g7 &
                  (sp & Hsp & Fsp & E1 & _) & (_ & E2 & _))
                | (_ & E & _)].
  - apply den_itext in D as (w & Hw & E3 & _); [|reflexivity].
    rewrite forallb_space in Fsp. subst r1 r6 r7.
    exists ws, (w ++ sp), tail. rewrite <- !app_assoc.
    repeat split; trivial. right. exists w, sp. now repeat split.
  - subst r1. exists ws, [], tail.
    repeat split; trivial. now left.
Qed.

Lemma page_number_complete line ds :
  page_line U line ds -> re_match U LegalPatterns.PAGE_NUMBER line <> None.
Proof.
  intros (ws & label & ws' & -> & Hws & L & Hne & Hds & Hws').
  apply (match_at_complete U _ _ _
           (rev ws' ++ rev ds ++ rev label ++ rev ws ++ []) []
           [(1%nat, consumed (rev label ++ rev ws ++ [])
                             (rev ds ++ rev label ++ rev ws ++ []))]).
  cbn [LegalPatterns.PAGE_NUMBER seq alt den]. unfold stay, reads.
  eexists [], _, []. split; [easy|].
  eexists (rev ws ++ []), (label ++ ds ++ ws'), []. split.
  { exists ws. now rewrite forallb_space. }
  eexists (rev label ++ rev ws ++ []), (ds ++ ws'), []. split.
  { destruct L as [-> | (w & sp & -> & Hw & Hsp & Fsp)]; [now right|].
    left. eexists (rev w ++ rev ws ++ []), (sp ++ ds ++ ws'), []. split.
    - apply den_itext; [reflexivity|]. exists w.
      now rewrite <- app_assoc.
    - eexists (rev (w ++ sp) ++ rev ws ++ []), (ds ++ ws'), []. split.
      + exists sp. rewrite forallb_space, rev_app_distr, <- app_assoc.
        now repeat split.
      + now repeat split. }
  eexists (rev ds ++ rev label ++ rev ws ++ []), ws', _. split.
  { eexists. split; [|reflexivity]. exists ds. now rewrite forallb_digit. }
  eexists (rev ws' ++ rev ds ++ rev label ++ rev ws ++ []), [], _. split.
  { exists ws'. rewrite forallb_space, app_nil_r. now repeat split. }
  eexists _, [], _. split; [|easy]. now repeat split.
Qed.

(** X17. [PAGE_NUMBER] matches exactly the lines made of optional
    whitespace, optionally the word "page" in any letter case and
    whitespace, a run of digits, and optional whitespace; group 1 is the
    run of digits. *)
Theorem PAGE_NUMBER_matches (line : str) :
  (forall m, re_match U LegalPatterns.PAGE_NUMBER line = Some m ->
             exists ds, page_line U line ds /\ group m 1 = Ok ds) /\
  (forall ds, page_line U line ds ->
              re_match U LegalPatterns.PAGE_NUMBER line <> None).
Proof.
  split; [apply page_number_sound|apply page_number_complete].
Qed.

End PageNumber.

Section Greedy.
Variable U : ucd.

Lemma exec_seq a b pre rest g k :
  exec U (RSeq a b) pre rest g k =
  exec U a pre rest g (fun p r g' => exec U b p r g' k).
Proof. reflexivity. Qed.

(** A greedy loop takes the longest run when what follows accepts it. *)
Lemma star_greedy_max cs k rest : forall pre,
  k (rev (take_while (cset_mem U cs) rest) ++ pre)
    (drop_while (cset_mem U cs) rest) <> None ->
  star_greedy U cs k pre rest =
  k (rev (take_while (cset_mem U cs) rest) ++ pre)
    (drop_while (cset_mem U cs) rest).
Proof.
  induction rest as [|c t IH]; intros pre H; [reflexivity|].
  cbn [star_greedy take_while drop_while] in *.
  destruct (cset_mem U cs c); [|reflexivity].
  rewrite rev_cons_app in *. rewrite (IH _ H).
  now destruct (k _ _).
Qed.

Lemma plus_greedy_max cs k pre rest :
  take_while (cset_mem U cs) rest <> [] ->
  k (rev (take_while (cset_mem U cs) rest) ++ pre)
    (drop_while (cset_mem U cs) rest) <> None ->
  plus_greedy U cs k pre rest =
  k (rev (take_while (cset_mem U cs) rest) ++ pre)
    (drop_while (cset_mem U cs) rest).
Proof.
  destruct rest as [|c t]; [easy|].
  cbn [plus_greedy take_while drop_while].
  destruct (cset_mem U cs c); [|easy]. intros _ H.
  rewrite rev_cons_app in *. now apply star_greedy_max.
Qed.

Lemma plus_greedy_none cs k pre rest :
  take_while (cset_mem U cs) rest = [] -> plus_greedy U cs k pre rest = None.
Proof.
  destruct rest as [|c t]; [reflexivity|].
  cbn [plus_greedy take_while]. now destruct (cset_mem U cs c).
Qed.

Lemma take_while_same (f h : char -> bool) s :
  (forall c, f c = h c) -> take_while f s = take_while h s.
Proof.
  intros E. induction s as [|c t IH]; [reflexivity|].
  cbn [take_while]. now rewrite E, IH.
Qed.

Lemma take_drop_while f s : take_while f s ++ drop_while f s = s.
Proof.
  induction s as [|c t IH]; [reflexivity|]. cbn [take_while drop_while].
  destruct (f c); [|reflexivity]. simpl. now rewrite IH.
Qed.

Lemma take_while_all f s : forallb f (take_while f s) = true.
Proof.
  induction s as [|c t IH]; [reflexivity|]. cbn [take_while].
  destruct (f c) eqn:E; [|reflexivity]. cbn [forallb]. now rewrite E.
Qed.

Lemma exec_group_plus n cs pre rest g k :
  exec U (RGroup n (RPlus cs)) pre rest g k =
  plus_greedy U cs (fun p r => k p r ((n, consumed pre p) :: g)) pre rest.
Proof. reflexivity. Qed.

Lemma exec_star cs pre rest g k :
  exec U (RStar cs) pre rest g k =
  star_greedy U cs (fun p r => k p r g) pre rest.
Proof. reflexivity. Qed.

(** A greedy loop stops at the longest run after which the continuation
    succeeds: after every longer run it fails. *)
Lemma star_greedy_first cs k rest : forall pre m,
  star_greedy U cs k pre rest = Some m ->
  exists w rest',
    forallb (cset_mem U cs) w = true /\ rest = w ++ rest' /\
    k (rev w ++ pre) rest' = Some m /\
    (forall w2 rest2,
       w2 <> [] -> forallb (cset_mem U cs) w2 = true ->
       rest' = w2 ++ rest2 -> k (rev (w ++ w2) ++ pre) rest2 = None).
Proof.
  induction rest as [|c t IH]; intros pre m H; cbn [star_greedy] in H.
  - exists [], []. repeat split; trivial.
    intros [|x w2] rest2 Hne _ E; [easy|discriminate E].
  - destruct (cset_mem U cs c) eqn:Hc.
    + destruct (star_greedy U cs k (c :: pre) t) as [m'|] eqn:S.
      * injection H as <-.
        destruct (IH _ _ S) as (w & rest' & Hw & -> & Hk & Hmax).
        exists (c :: w), rest'. cbn [forallb]. rewrite Hc, Hw.
        rewrite rev_cons_app. repeat split; trivial.
        intros w2 rest2 Hne Hw2 E.
        change ((c :: w) ++ w2) with (c :: (w ++ w2)).
        rewrite rev_cons_app. now apply Hmax.
      * exists [], (c :: t). repeat split; trivial.
        intros [|x w2] rest2 Hne Hw2 E; [easy|].
        injection E as <- ->. cbn [app]. rewrite rev_cons_app.
        cbn [forallb] in Hw2. apply andb_true_iff in Hw2 as [_ Hw2].
        destruct (k (rev w2 ++ c :: pre) rest2) eqn:K; [|reflexivity].
        exfalso.
        apply (star_greedy_complete U cs k w2 (c :: pre) rest2 Hw2);
          [now rewrite K|exact S].
    + exists [], (c :: t). repeat split; trivial.
      intros [|x w2] rest2 Hne Hw2 E; [easy|].
      injection E as <- _. cbn [forallb] in Hw2. now rewrite Hc in Hw2.
Qed.

Lemma plus_greedy_first cs k pre rest m :
  plus_greedy U cs k pre rest = Some m ->
  exists w rest',
    w <> [] /\ forallb (cset_mem U cs) w = true /\ rest = w ++ rest' /\
    k (rev w ++ pre) rest' = Some m /\
    (forall w2 rest2,
       w2 <> [] -> forallb (cset_mem U cs) w2 = true ->
       rest' = w2 ++ rest2 -> k (rev (w ++ w2) ++ pre) rest2 = None).
Proof.
  destruct rest as [|c t]; cbn [plus_greedy]; [discriminate|].
  destruct (cset_mem U cs c) eqn:Hc; [|discriminate]. intros H.
  apply star_greedy_first in H as (w & rest' & Hw & -> & Hk & Hmax).
  exists (c :: w), rest'. cbn [forallb]. rewrite Hc, Hw, rev_cons_app.
  repeat split; trivial; [discriminate|].
  intros w2 rest2 Hne Hw2 E.
  change ((c :: w) ++ w2) with (c :: (w ++ w2)).
  rewrite rev_cons_app. now apply Hmax.
Qed.

End Greedy.

Section Article.
Variable U : ucd.

Lemma cset_mem_app (a b : cset) c :
  cset_mem U (a ++ b) c = cset_mem U a c || cset_mem U b c.
Proof. apply existsb_app. Qed.

Lemma roman_mem c : cset_mem U LegalPatterns.roman c = is_roman c.
Proof.
  unfold LegalPatterns.roman, is_roman.
  change (lit "IVXLCDM") with [73; 86; 88; 76; 67; 68; 77].
  cbn [flat_map]. rewrite !cset_mem_app.
  rewrite !icase_mem by reflexivity. reflexivity.
Qed.

Lemma spaces_accept g pre rest :
  exists p r,
    star_greedy U [CSpace] (fun p r => accept p r g) pre rest
    = Some (p, r, g).
Proof.
  eexists _, _. rewrite star_greedy_max; [reflexivity|discriminate].
Qed.

Lemma article_end_some p r g :
  article_number U r <> [] ->
  exists p' r',
    exec U article_end p r g accept
    = Some (p', r', (1%nat, article_number U r) :: g).
Proof.
  unfold article_number, article_end. cbn [seq alt exec]. intros H.
  rewrite <- (take_while_same _ _ r roman_mem) in *.
  rewrite <- (take_while_same (cset_mem U [CDigit]) (isdecimal U) r) in *
    by (intros c; simpl; apply orb_false_r).
  destruct (take_while (cset_mem U LegalPatterns.roman) r) as [|x w] eqn:E.
  - rewrite plus_greedy_none by exact E.
    rewrite plus_greedy_max; trivial.
    + rewrite consumed_app. apply spaces_accept.
    + destruct (spaces_accept
                  ((1%nat,
                    consumed p
                      (rev (take_while (cset_mem U [CDigit]) r) ++ p)) :: g)
                  (rev (take_while (cset_mem U [CDigit]) r) ++ p)
                  (drop_while (cset_mem U [CDigit]) r)) as (p' & r' & ->).
      discriminate.
  - assert (S : forall q,
      star_greedy U [CSpace]
        (fun p0 r0 => accept p0 r0 ((1%nat, consumed p (rev (x :: w) ++ p)) :: g))
        (rev (x :: w) ++ p) q <> None).
    { intros q. destruct (spaces_accept
                  ((1%nat, consumed p (rev (x :: w) ++ p)) :: g)
                  (rev (x :: w) ++ p) q) as (p' & r' & ->). discriminate. }
    rewrite plus_greedy_max; rewrite E; [| discriminate | apply S].
    destruct (spaces_accept
                  ((1%nat, consumed p (rev (x :: w) ++ p)) :: g)
                  (rev (x :: w) ++ p)
                  (drop_while (cset_mem U LegalPatterns.roman) r))
      as (p' & r' & ->).
    rewrite consumed_app. now exists p', r'.
Qed.

Lemma article_end_none p r g :
  article_number U r = [] -> exec U article_end p r g accept = None.
Proof.
  unfold article_number, article_end. cbn [seq alt exec]. intros H.
  rewrite <- (take_while_same _ _ r roman_mem) in *.
  rewrite <- (take_while_same (cset_mem U [CDigit]) (isdecimal U) r) in *
    by (intros c; simpl; apply orb_false_r).
  destruct (take_while (cset_mem U LegalPatterns.roman) r) eqn:E;
    [|discriminate H].
  now rewrite !plus_greedy_none.
Qed.

Lemma article_number_sound line m :
  re_match U LegalPatterns.ARTICLE_NUMBER line = Some m ->
  exists tail,
    article_line U line tail /\ group m 1 = Ok (article_number U tail).
Proof.
  unfold re_match. rewrite match_at_exec.
  unfold LegalPatterns.ARTICLE_NUMBER. cbn [seq]. intros H.
  rewrite exec_seq in H.
  apply exec_sound in H as (p0 & r0 & g0 & (_ & -> & -> & ->) & H).
  rewrite exec_seq in H.
  apply exec_sound in H as (p1 & r1 & g1 & (ws & Hws & -> & -> & ->) & H).
  rewrite exec_seq in H.
  apply exec_sound in H as (p2 & r2 & g2 & D & H).
  apply den_itext in D as (w & Hw & -> & -> & ->); [|reflexivity].
  rewrite exec_seq in H.
  apply exec_sound
    in H as (p3 & r3 & g3 & (sp & Hsp & Fsp & -> & -> & ->) & H).
  fold (seq [RStar [CSpace]]) in H.
  fold (seq [RGroup 1 (RAlt (RPlus LegalPatterns.roman) (RPlus [CDigit]));
             RStar [CSpace]]) in H.
  change (exec U article_end (rev sp ++ rev w ++ rev ws ++ []) r3 []
               accept = Some m) in H.
  rewrite forallb_space in Hws, Fsp.
  destruct (list_eq_dec N.eq_dec (article_number U r3) []) as [E | E].
  - now rewrite article_end_none in H.
  - destruct (article_end_some (rev sp ++ rev w ++ rev ws ++ []) r3 [] E)
      as (p' & r' & H').
    rewrite H' in H. injection H as <-.
    exists r3. split; [|apply group_head].
    exists ws, w, sp. now repeat split.
Qed.

Lemma article_number_complete line tail :
  article_line U line tail ->
  re_match U LegalPatterns.ARTICLE_NUMBER line <> None.
Proof.
  intros (ws & w & sp & -> & Hws & Hw & [Hsp Fsp] & Hn).
  unfold re_match. rewrite match_at_exec.
  unfold LegalPatterns.ARTICLE_NUMBER. cbn [seq].
  rewrite exec_seq.
  apply (exec_complete U RBol _ _ _ _ [] (ws ++ w ++ sp ++ tail) []);
    [now repeat split|].
  rewrite exec_seq.
  apply (exec_complete U (RStar [CSpace]) _ _ _ _
           (rev ws ++ []) (w ++ sp ++ tail) []).
  { exists ws. unfold reads. now rewrite forallb_space. }
  rewrite exec_seq.
  apply (exec_complete U (itext (lit "Article")) _ _ _ _
           (rev w ++ rev ws ++ []) (sp ++ tail) []).
  { apply den_itext; [reflexivity|]. now exists w. }
  rewrite exec_seq.
  apply (exec_complete U (RPlus [CSpace]) _ _ _ _
           (rev sp ++ rev w ++ rev ws ++ []) tail []).
  { exists sp. unfold reads. rewrite forallb_space. now repeat split. }
  destruct (article_end_some (rev sp ++ rev w ++ rev ws ++ []) tail [] Hn)
    as (p' & r' & H').
  intros H.
  change (exec U article_end (rev sp ++ rev w ++ rev ws ++ []) tail []
               accept = None) in H.
  rewrite H' in H. discriminate H.
Qed.

(** X18. [ARTICLE_NUMBER] matches exactly the lines that start with
    optional whitespace, the word "article" in any letter case, whitespace
    and a Roman numeral letter or a digit; group 1 is the longest run of
    Roman numeral letters there, in either case, or, if there is none, the
    longest run of digits. *)
Theorem ARTICLE_NUMBER_matches (line : str) :
  (forall m, re_match U LegalPatterns.ARTICLE_NUMBER line = Some m ->
             exists tail, article_line U line tail /\
                          group m 1 = Ok (article_number U tail)) /\
  (forall tail, article_line U line tail ->
                re_match U LegalPatterns.ARTICLE_NUMBER line <> None).
Proof.
  split; [apply article_number_sound|apply article_number_complete].
Qed.

End Article.

Section Footnote.
Variable U : ucd.

Lemma dot_mem c : cset_mem U dot c = not_newline c.
Proof.
  unfold dot, not_newline, cset_mem. cbn [existsb citem_mem].
  unfold between. rewrite orb_false_r.
  destruct (N.leb_spec 0 c); [|lia].
  destruct (N.leb_spec c 9); destruct (N.leb_spec 11 c);
    destruct (N.leb_spec c 1114111); destruct (N.eqb_spec c 10);
    cbn; try reflexivity; lia.
Qed.

Lemma footnote_end_exec p r g :
  exec U footnote_end p r g accept =
  match take_while not_newline r with
  | [] => None
  | w => Some (rev w ++ p, drop_while not_newline r, (2%nat, w) :: g)
  end.
Proof.
  unfold footnote_end. cbn [seq exec].
  rewrite <- (take_while_same _ _ r dot_mem).
  destruct (take_while (cset_mem U dot) r) as [|x w] eqn:E.
  - now apply plus_greedy_none.
  - rewrite plus_greedy_max; rewrite E; try discriminate.
    unfold accept. rewrite consumed_app.
    do 3 f_equal. clear E. induction r as [|c t IH]; [reflexivity|].
    cbn [drop_while]. now rewrite dot_mem, IH.
Qed.

Lemma footnote_rest_finds sp tail p g :
  forallb isspace sp = true -> take_while not_newline tail <> [] ->
  exec U footnote_rest p (sp ++ tail) g accept <> None.
Proof.
  intros Hsp Ht. unfold footnote_rest. cbn [seq].
  rewrite exec_seq, exec_star.
  apply star_greedy_complete; [now rewrite forallb_space|].
  change (exec U footnote_end (rev sp ++ p) tail g accept <> None).
  rewrite footnote_end_exec. now destruct (take_while not_newline tail).
Qed.

Lemma footnote_text_groups line m :
  re_match U LegalPatterns.FOOTNOTE_TEXT line = Some m ->
  exists ds tail,
    footnote_groups U line ds tail /\
    group m 1 = Ok ds /\ group m 2 = Ok (take_while not_newline tail).
Proof.
  unfold re_match. rewrite match_at_exec.
  unfold LegalPatterns.FOOTNOTE_TEXT. cbn [seq]. intros H.
  rewrite exec_seq in H.
  apply exec_sound in H as (p0 & r0 & g0 & (_ & -> & -> & ->) & H).
  rewrite exec_seq in H.
  apply exec_sound in H as (p1 & r1 & g1 & (ws & Hws & -> & -> & ->) & H).
  rewrite exec_seq in H.
  apply exec_sound in H as (p2 & r2 & g2 & (-> & -> & ->) & H).
  rewrite forallb_space in Hws.
  rewrite exec_seq, exec_group_plus in H.
  apply plus_greedy_first
    in H as (ds & r3 & Hne & Hds & -> & H & Dmax).
  rewrite consumed_app in H.
  assert (Dmax' : forall w2 rest2,
            w2 <> [] -> forallb (isdecimal U) w2 = true ->
            r3 = w2 ++ rest2 ->
            exec U footnote_rest (rev (ds ++ w2) ++ ch "^" :: rev ws ++ [])
                 rest2 [(1%nat, ds ++ w2)] accept = None).
  { intros w2 rest2 Hn2 Hw2 E. rewrite <- (forallb_digit U) in Hw2.
    rewrite <- (Dmax w2 rest2 Hn2 Hw2 E). now rewrite consumed_app. }
  clear Dmax. rewrite forallb_digit in Hds.
  change (exec U footnote_rest (rev ds ++ ch "^" :: rev ws ++ []) r3
               [(1%nat, ds)] accept = Some m) in H.
  unfold footnote_rest in H. cbn [seq] in H.
  rewrite exec_seq, exec_star in H.
  apply star_greedy_first in H as (sp & tail & Hsp & -> & H & Smax).
  rewrite forallb_space in Hsp.
  change (exec U footnote_end
               (rev sp ++ rev ds ++ ch "^" :: rev ws ++ []) tail
               [(1%nat, ds)] accept = Some m) in H.
  assert (Smax' : forall w2 rest2,
            w2 <> [] -> forallb isspace w2 = true -> tail = w2 ++ rest2 ->
            take_while not_newline rest2 = []).
  { intros w2 rest2 Hn2 Hw2 E. rewrite <- (forallb_space U) in Hw2.
    pose proof (Smax w2 rest2 Hn2 Hw2 E) as N.
    change (exec U footnote_end
                 (rev (sp ++ w2) ++ rev ds ++ ch "^" :: rev ws ++ []) rest2
                 [(1%nat, ds)] accept = None) in N.
    rewrite footnote_end_exec in N.
    now destruct (take_while not_newline rest2). }
  clear Smax. rewrite footnote_end_exec in H.
  destruct (take_while not_newline tail) as [|x w] eqn:E; [discriminate H|].
  injection H as <-.
  assert (F : footnote_line U (ws ++ ch "^" :: ds ++ sp ++ tail) ds tail).
  { exists ws, sp. rewrite E. repeat split; trivial. discriminate. }
  exists ds, tail. split; [|split].
  - split; [exact F|]. split.
    + intros ds' tail' (ws' & sp' & E' & Hws' & Hne' & Hds' & Hsp' & Ht').
      apply Nat.nlt_ge. intros L.
      apply (prefix_unique isspace) in E' as [_ E']; trivial.
      destruct (shorter_prefix ds ds' (sp ++ tail) (sp' ++ tail') E' L)
        as (w2 & -> & Hn2 & E2).
      rewrite forallb_app in Hds'. apply andb_true_iff in Hds' as [_ Hw2].
      apply (footnote_rest_finds sp' tail'
               (rev (ds ++ w2) ++ ch "^" :: rev ws ++ [])
               [(1%nat, ds ++ w2)] Hsp' Ht').
      now apply Dmax'.
    + intros tail' (ws' & sp' & E' & Hws' & Hne' & Hds' & Hsp' & Ht').
      apply Nat.nlt_ge. intros L.
      apply (prefix_unique isspace) in E' as [_ E']; trivial.
      apply app_inv_head in E'.
      assert (L' : (length sp < length sp')%nat).
      { apply (f_equal (@length N)) in E'. rewrite !length_app in E'. lia. }
      destruct (shorter_prefix sp sp' tail tail' E' L')
        as (w2 & -> & Hn2 & E2).
      rewrite forallb_app in Hsp'. apply andb_true_iff in Hsp' as [_ Hw2].
      apply Ht'. now apply (Smax' w2 tail').
  - now apply group_second.
  - rewrite E. apply group_head.
Qed.

(** The captured reading is the only one of its kind. *)
Lemma footnote_groups_unique line ds tail ds' tail' :
  footnote_groups U line ds tail -> footnote_groups U line ds' tail' ->
  ds = ds' /\ tail = tail'.
Proof.
  intros (F & D & T) (F' & D' & T').
  pose proof (D _ _ F') as L1. pose proof (D' _ _ F) as L2.
  assert (L : length ds = length ds') by lia.
  pose proof F as (ws & sp & E & Hws & _).
  pose proof F' as (ws' & sp' & E' & Hws' & _).
  rewrite E in E'.
  apply (prefix_unique isspace) in E' as [_ E']; trivial.
  apply app_same_length in E' as [<- E']; [|exact L].
  split; [reflexivity|].
  pose proof (T _ F') as L3. pose proof (T' _ F) as L4.
  assert (Ls : length sp = length sp').
  { apply (f_equal (@length N)) in E'. rewrite !length_app in E'. lia. }
  now apply app_same_length in E' as [_ E'].
Qed.

Lemma footnote_text_complete line ds tail :
  footnote_line U line ds tail ->
  re_match U LegalPatterns.FOOTNOTE_TEXT line <> None.
Proof.
  intros (ws & sp & -> & Hws & Hne & Hds & Hsp & Ht).
  unfold re_match. rewrite match_at_exec.
  unfold LegalPatterns.FOOTNOTE_TEXT. cbn [seq].
  rewrite exec_seq.
  apply (exec_complete U RBol _ _ _ _
           [] (ws ++ ch "^" :: ds ++ sp ++ tail) []);
    [now repeat split|].
  rewrite exec_seq.
  apply (exec_complete U (RStar [CSpace]) _ _ _ _
           (rev ws ++ []) (ch "^" :: ds ++ sp ++ tail) []).
  { exists ws. unfold reads. now rewrite forallb_space. }
  rewrite exec_seq.
  apply (exec_complete U (RChar (ch "^")) _ _ _ _
           (ch "^" :: rev ws ++ []) (ds ++ sp ++ tail) []);
    [now repeat split|].
  rewrite exec_seq.
  apply (exec_complete U (RGroup 1 (RPlus [CDigit])) _ _ _ _
           (rev ds ++ ch "^" :: rev ws ++ []) (sp ++ tail)
           [(1%nat, consumed (ch "^" :: rev ws ++ [])
                             (rev ds ++ ch "^" :: rev ws ++ []))]).
  { eexists. split; [|reflexivity]. exists ds. unfold reads.
    now rewrite forallb_digit. }
  rewrite exec_seq.
  apply (exec_complete U (RStar [CSpace]) _ _ _ _
           (rev sp ++ rev ds ++ ch "^" :: rev ws ++ []) tail
           [(1%nat, consumed (ch "^" :: rev ws ++ [])
                             (rev ds ++ ch "^" :: rev ws ++ []))]).
  { exists sp. unfold reads. now rewrite forallb_space. }
  intros H.
  change (exec U footnote_end
               (rev sp ++ rev ds ++ ch "^" :: rev ws ++ []) tail
               [(1%nat, consumed (ch "^" :: rev ws ++ [])
                                 (rev ds ++ ch "^" :: rev ws ++ []))]
               accept = None) in H.
  rewrite footnote_end_exec in H.
  now destruct (take_while not_newline tail).
Qed.

(** X19. [FOOTNOTE_TEXT] matches exactly the lines that can be read as
    optional whitespace, a caret, a run of digits, optional whitespace and
    a text that starts with a character other than a newline. Of these
    readings the match takes the one with the most digits and, with them,
    the most whitespace; there is one such reading only. Group 1 is its
    digits and group 2 its text up to the end of the line. So "^12 x" has
    the groups "12" and "x", and "^12" the groups "1" and "2". *)
Theorem FOOTNOTE_TEXT_matches (line : str) :
  (forall m, re_match U LegalPatterns.FOOTNOTE_TEXT line = Some m ->
             exists ds tail,
               footnote_groups U line ds tail /\
               group m 1 = Ok ds /\
               group m 2 = Ok (take_while not_newline tail)) /\
  (forall ds tail ds' tail',
     footnote_groups U line ds tail -> footnote_groups U line ds' tail' ->
     ds = ds' /\ tail = tail') /\
  (forall ds tail, footnote_line U line ds tail ->
                   re_match U LegalPatterns.FOOTNOTE_TEXT line <> None) /\
  option_map (fun m => (group m 1, group m 2))
             (re_match U LegalPatterns.FOOTNOTE_TEXT (lit "^12 x"))
  = Some (Ok (lit "12"), Ok (lit "x")) /\
  option_map (fun m => (group m 1, group m 2))
             (re_match U LegalPatterns.FOOTNOTE_TEXT (lit "^12"))
  = Some (Ok (lit "1"), Ok (lit "2")) /\
  option_map (fun m => (group m 1, group m 2))
             (re_match U LegalPatterns.FOOTNOTE_TEXT
                       (lit " ^7  See id." ++ 10 :: lit "at 3"))
  = Some (Ok (lit "7"), Ok (lit "See id.")).
Proof.
  split; [apply footnote_text_groups|].
  split; [apply footnote_groups_unique|].
  split; [intros ds tail; apply footnote_text_complete|].
  repeat split; vm_compute; reflexivity.
Qed.

End Footnote.

(** One more part of a pattern, in a proof that the matcher finds a
    reading. *)
Ltac next_part :=
  rewrite exec_seq; eapply exec_complete.

Section PageRange.
Variable U : ucd.

Lemma boundary_after w x b :
  w <> [] -> boundary U (rev w ++ x) b = boundary U (rev w) b.
Proof.
  intros H. unfold boundary. f_equal.
  destruct (rev w) eqn:E; [|reflexivity].
  apply (f_equal (@rev N)) in E. now rewrite rev_involutive in E.
Qed.

Lemma boundary_before a c rest :
  isword U c = true ->
  boundary U (rev a ++ []) (c :: rest) = negb (head_word U (rev a)).
Proof.
  intros H. unfold boundary. rewrite app_nil_r. cbn [head_word].
  rewrite H. now destruct (head_word U (rev a)).
Qed.

Lemma page_range_sound a rest m :
  match_at U LegalPatterns.PAGE_RANGE false (rev a ++ []) rest = Some m ->
  exists ds, page_range_at U a rest ds /\ group m 1 = Ok ds.
Proof.
  rewrite match_at_exec. unfold LegalPatterns.PAGE_RANGE. cbn [seq].
  intros H.
  rewrite exec_seq in H.
  apply exec_sound in H as (p0 & r0 & g0 & (B0 & -> & -> & ->) & H).
  rewrite exec_seq in H.
  apply exec_sound in H as (p1 & r1 & g1 & (-> & -> & ->) & H).
  rewrite boundary_before in B0 by reflexivity.
  apply negb_true_iff in B0.
  rewrite exec_seq in H.
  apply exec_sound in H as (p2 & r2 & g2 & L & H).
  rewrite exec_seq in H.
  apply exec_sound in H as (p3 & r3 & g3 & (E3 & -> & ->) & H).
  assert (Lb : exists label, (label = lit "p." \/ label = lit "pp.") /\
                 ch "p" :: r1 = label ++ r3 /\
                 head_word U (ch "." :: p2) = false).
  { cbn [alt den] in L. unfold stay in L.
    destruct L as [(-> & -> & ->) | (-> & -> & ->)]; subst.
    - exists (lit "pp."). split; [now right|]. split; reflexivity.
    - exists (lit "p."). split; [now left|]. split; reflexivity. }
  destruct Lb as (label & Hl & -> & _). clear L E3.
  rewrite exec_seq in H.
  apply exec_sound in H as (p4 & r4 & g4 & (sp & Hsp & -> & -> & ->) & H).
  rewrite exec_seq in H.
  apply exec_sound
    in H as (p5 & r5 & g5 &
             (g5' & (ds & Hne & Hds & -> & -> & ->) & ->) & H).
  rewrite forallb_space in Hsp. rewrite forallb_digit in Hds.
  rewrite consumed_app in H.
  rewrite exec_seq in H.
  apply exec_sound in H as (p6 & r6 & g6 & M & H).
  rewrite exec_seq in H.
  apply exec_sound in H as (p7 & r7 & g7 & (B & -> & -> & ->) & H).
  cbn [exec] in H. unfold accept in H. injection H as <-.
  exists ds. cbn [alt seq den] in M. unfold stay, reads in M.
  destruct M as [(q1 & t1 & h1 & (s1 & Hs1 & -> & -> & ->) &
                  q2 & t2 & h2 & (-> & -> & ->) &
                  q3 & t3 & h3 & (s2 & Hs2 & -> & -> & ->) &
                  q4 & t4 & h4 &
                  (h4' & (ds2 & Hne2 & Hds2 & -> & -> & ->) & ->) &
                  (-> & -> & ->))
                | (-> & -> & ->)].
  - rewrite forallb_space in Hs1, Hs2. rewrite forallb_digit in Hds2.
    split; [|now apply group_second].
    exists label, sp, t4. repeat split; trivial.
    right. exists s1, s2, ds2. repeat split; trivial.
    now rewrite boundary_after in B.
  - split; [|apply group_head].
    exists label, sp, r5. repeat split; trivial.
    left. split; [reflexivity|]. now rewrite boundary_after in B.
Qed.

Lemma page_range_complete a rest ds :
  page_range_at U a rest ds ->
  match_at U LegalPatterns.PAGE_RANGE false (rev a ++ []) rest <> None.
Proof.
  intros (label & sp & b & Hl & Hsp & [Hne Hds] & B0 & M).
  rewrite match_at_exec. unfold LegalPatterns.PAGE_RANGE. cbn [seq].
  assert (R : exists more,
             rest = label ++ sp ++ ds ++ more /\
             exec U
               (RSeq
                  (alt [seq [RStar [CSpace]; RChar (ch "-"); RStar [CSpace];
                             RGroup 2 (RPlus [CDigit])]; REmpty])
                  (RSeq RWordB REmpty))
               (rev ds ++ rev sp ++ rev label ++ rev a ++ []) more
               [(1%nat, ds)] accept <> None).
  { destruct M as [[-> B] | (s1 & s2 & ds2 & -> & Hs1 & Hs2 & [Hne2 Hds2] & B)].
    - exists b. split; [reflexivity|].
      next_part; [right; repeat split|].
      next_part; [split; [|repeat split]|discriminate].
      now rewrite boundary_after.
    - exists (s1 ++ ch "-" :: s2 ++ ds2 ++ b). split; [reflexivity|].
      next_part.
      { left. cbn [seq den]. unfold reads, stay.
        eexists _, _, _. split.
        { exists s1. rewrite forallb_space. repeat split; trivial. }
        eexists _, _, _. split; [repeat split|].
        eexists _, _, _. split.
        { exists s2. rewrite forallb_space. repeat split; trivial. }
        eexists _, _, _. split.
        { eexists. split; [|reflexivity]. exists ds2.
          rewrite forallb_digit. repeat split; trivial. }
        repeat split. }
      next_part; [split; [|repeat split]|discriminate].
      now rewrite boundary_after. }
  destruct R as (more & -> & R).
  next_part.
  { split; [|repeat split].
    destruct Hl as [-> | ->]; simpl app;
      rewrite boundary_before by reflexivity; now rewrite B0. }
  destruct Hl as [-> | ->]; simpl app.
  - next_part; [repeat split|].
    next_part; [right; repeat split|].
    next_part; [repeat split|].
    next_part;
      [exists sp; unfold reads; rewrite forallb_space; repeat split; trivial|].
    next_part.
    { eexists. split; [|reflexivity]. exists ds. unfold reads.
      rewrite forallb_digit. repeat split; trivial. }
    rewrite consumed_app. exact R.
  - next_part; [repeat split|].
    next_part; [left; repeat split|].
    next_part; [repeat split|].
    next_part;
      [exists sp; unfold reads; rewrite forallb_space; repeat split; trivial|].
    next_part.
    { eexists. split; [|reflexivity]. exists ds. unfold reads.
      rewrite forallb_digit. repeat split; trivial. }
    rewrite consumed_app. exact R.
Qed.

(** X20. [PAGE_RANGE] is found in a text exactly where "p." or "pp.", not
    right after a word character, is followed by optional whitespace and a
    run of digits, then optionally by a hyphen, with optional whitespace
    around it, and a second run of digits, with a word boundary after the
    last digit. Group 1 of the match found is the first run of digits of
    such a place. *)
Theorem PAGE_RANGE_found (s : str) :
  (forall m, re_search U LegalPatterns.PAGE_RANGE s = Some m ->
             exists a rest ds,
               s = a ++ rest /\ page_range_at U a rest ds /\
               group m 1 = Ok ds) /\
  (forall a rest ds,
     s = a ++ rest -> page_range_at U a rest ds ->
     re_search U LegalPatterns.PAGE_RANGE s <> None).
Proof.
  unfold re_search. split.
  - intros m H. apply search_from_sound in H as (a & rest & -> & H).
    apply page_range_sound in H as (ds & P & G). now exists a, rest, ds.
  - intros a rest ds -> P. apply search_from_finds.
    now apply (page_range_complete a rest ds).
Qed.

End PageRange.

Section LegalDate.
Variable U : ucd.

Lemma den_alt rs : forall pre rest g p' r' g',
  den U (alt rs) pre rest g p' r' g' <->
  exists r, In r rs /\ den U r pre rest g p' r' g'.
Proof.
  induction rs as [|r rs IH]; intros pre rest g p' r' g'.
  - simpl. split; [intros (x & H & _); discriminate H|now intros (r & [] & _)].
  - destruct rs as [|r2 rs].
    + change (alt [r]) with r. split.
      * intros H. exists r. split; [now left|exact H].
      * now intros (r0 & [<- | []] & H).
    + change (alt (r :: r2 :: rs)) with (RAlt r (alt (r2 :: rs))).
      cbn [den]. rewrite IH. split.
      * intros [H | (r0 & Hin & H)].
        -- exists r. split; [now left|exact H].
        -- exists r0. split; [now right|exact H].
      * intros (r0 & [<- | Hin] & H); [now left|right; now exists r0].
Qed.

Lemma den_abbreviated m pre rest g p' r' g' :
  den U (LegalPatterns.abbreviated m) pre rest g p' r' g' <->
  exists w, (w = lit m ++ lit "." \/ w = lit m) /\
            rest = w ++ r' /\ p' = rev w ++ pre /\ g' = g.
Proof.
  unfold LegalPatterns.abbreviated. cbn [seq alt den]. unfold stay. split.
  - intros (p0 & r0 & g0 & D & p1 & r1 & g1 & L & -> & -> & ->).
    apply den_text in D as (-> & -> & ->).
    destruct L as [(-> & -> & ->) | (-> & -> & ->)].
    + exists (lit m ++ lit "."). rewrite rev_app_distr, <- !app_assoc.
      repeat split. now left.
    + exists (lit m). repeat split. now right.
  - intros (w & [-> | ->] & -> & -> & ->).
    + exists (rev (lit m) ++ pre), (lit "." ++ r'), g. split.
      * apply den_text. now rewrite <- app_assoc.
      * exists (rev (lit m ++ lit ".") ++ pre), r', g. split; [|easy].
        left. rewrite rev_app_distr, <- app_assoc. now repeat split.
    + exists (rev (lit m) ++ pre), r', g. split; [now apply den_text|].
      exists (rev (lit m) ++ pre), r', g. split; [|easy]. now right.
Qed.

Lemma den_month pre rest g p' r' g' :
  den U (alt (map (fun m => text (lit m)) LegalPatterns.MONTHS ++
              map LegalPatterns.abbreviated LegalPatterns.MONTH_ABBREVIATIONS))
      pre rest g p' r' g' <->
  exists mon, is_month mon /\
              rest = mon ++ r' /\ p' = rev mon ++ pre /\ g' = g.
Proof.
  rewrite den_alt. unfold is_month. split.
  - intros (r & Hin & D). apply in_app_or in Hin as [Hin | Hin];
      apply in_map_iff in Hin as (m & <- & Hin).
    + apply den_text in D as (-> & -> & ->). exists (lit m).
      repeat split. left. now apply in_map.
    + apply den_abbreviated in D as (w & Hw & -> & -> & ->). exists w.
      repeat split. right. now exists m.
  - intros (mon & [Hin | (ab & Hin & Hw)] & -> & -> & ->).
    + apply in_map_iff in Hin as (m & <- & Hin).
      exists (text (lit m)). split; [|now apply den_text].
      apply in_or_app. left.
      now apply (in_map (fun m => text (lit m))).
    + exists (LegalPatterns.abbreviated ab). split.
      * apply in_or_app. right. now apply in_map.
      * apply den_abbreviated. now exists mon.
Qed.

Lemma month_head mon :
  is_month mon -> exists c t, mon = c :: t /\ isword U c = true.
Proof.
  unfold is_month, LegalPatterns.MONTHS, LegalPatterns.MONTH_ABBREVIATIONS. cbn [map In].
  intros [H | (ab & H & Hw)].
  - repeat destruct H as [<- | H]; try (eexists _, _; split; reflexivity).
    destruct H.
  - repeat destruct H as [<- | H];
      try (destruct Hw as [-> | ->]; eexists _, _; split; reflexivity).
    destruct H.
Qed.

Lemma boundary_head c x b :
  boundary U (c :: x) b = xorb (isword U c) (head_word U b).
Proof. reflexivity. Qed.

Lemma legal_date_sound a rest m :
  match_at U LegalPatterns.LEGAL_DATE false (rev a ++ []) rest = Some m ->
  legal_date_at U a rest.
Proof.
  rewrite match_at_exec. unfold LegalPatterns.LEGAL_DATE. cbn [seq].
  intros H.
  rewrite exec_seq in H.
  apply exec_sound in H as (p0 & r0 & g0 & (B0 & -> & -> & ->) & H).
  rewrite exec_seq in H.
  apply exec_sound in H as (p1 & r1 & g1 & D & H).
  apply den_month in D as (mon & Hm & -> & -> & ->).
  destruct (month_head mon Hm) as (c & t & -> & Hc).
  simpl app in B0. rewrite boundary_before in B0 by exact Hc.
  apply negb_true_iff in B0.
  rewrite exec_seq in H.
  apply exec_sound
    in H as (p2 & r2 & g2 & (sp1 & Hsp1 & Fsp1 & -> & -> & ->) & H).
  rewrite exec_seq in H.
  apply exec_sound in H as (p3 & r3 & g3 & (d1 & Hd1 & -> & -> & ->) & H).
  rewrite exec_seq in H.
  apply exec_sound in H as (p4 & r4 & g4 & D2 & H).
  rewrite exec_seq in H.
  apply exec_sound in H as (p5 & r5 & g5 & C & H).
  rewrite exec_seq in H.
  apply exec_sound
    in H as (p6 & r6 & g6 & (sp2 & Hsp2 & Fsp2 & E6 & -> & ->) & H).
  rewrite exec_seq in H.
  apply exec_sound in H as (p7 & r7 & g7 & Y & H).
  rewrite exec_seq in H.
  apply exec_sound in H as (p8 & r8 & g8 & (B & E8 & E8' & _) & _).
  cbn [LegalPatterns.year seq den] in Y. unfold stay in Y.
  destruct Y as (q1 & t1 & h1 & (y1 & Hy1 & Y1 & -> & _) &
                 q2 & t2 & h2 & (y2 & Hy2 & Y2 & -> & _) &
                 q3 & t3 & h3 & (y3 & Hy3 & Y3 & -> & _) &
                 q4 & t4 & h4 & (y4 & Hy4 & Y4 & -> & _) &
                 Y5 & Y6 & _).
  subst p8 r8 p7. rewrite boundary_head in B.
  assert (Hd : forall x, cset_mem U [CDigit] x = isdecimal U x)
    by (intros x; simpl; apply orb_false_r).
  rewrite Hd in Hd1, Hy1, Hy2, Hy3, Hy4.
  rewrite forallb_space in Fsp1, Fsp2.
  assert (Day : exists day,
             d1 :: r3 = day ++ r4 /\
             forallb (isdecimal U) day = true /\
             (length day = 1 \/ length day = 2)%nat).
  { cbn [alt den] in D2. unfold stay in D2.
    destruct D2 as [(d2 & Hd2 & E & _) | (_ & E & _)].
    - rewrite Hd in Hd2. exists [d1; d2]. subst r3. simpl.
      rewrite Hd1, Hd2. auto.
    - exists [d1]. subst r4. simpl. rewrite Hd1. auto. }
  destruct Day as (day & Ed & Fd & Ld).
  assert (Com : exists comma, (comma = [] \/ comma = lit ",") /\
                              r4 = comma ++ r5).
  { cbn [alt den] in C. unfold stay in C.
    destruct C as [(E & _) | (_ & E & _)].
    - exists (lit ","). split; [now right|exact E].
    - exists []. split; [now left|now subst r5]. }
  destruct Com as (comma & Hcom & Ec).
  exists (c :: t), sp1, day, comma, sp2, [y1; y2; y3; y4], r7.
  repeat split; trivial.
  - rewrite Ed, Ec, E6, Y1, Y2, Y3, Y4, Y6. reflexivity.
  - simpl. now rewrite Hy1, Hy2, Hy3, Hy4.
Qed.

Lemma legal_date_complete a rest :
  legal_date_at U a rest ->
  match_at U LegalPatterns.LEGAL_DATE false (rev a ++ []) rest <> None.
Proof.
  intros (mon & sp1 & day & comma & sp2 & yr & b & -> & Hm & [Hsp1 Fsp1] &
          Fd & Ld & Hc & [Hsp2 Fsp2] & Fy & Ly & B0 & B).
  rewrite match_at_exec. unfold LegalPatterns.LEGAL_DATE. cbn [seq].
  assert (Hd : forall x, cset_mem U [CDigit] x = isdecimal U x)
    by (intros x; simpl; apply orb_false_r).
  destruct yr as [|y1 [|y2 [|y3 [|y4 [|y5 yr]]]]]; try discriminate Ly.
  cbn [forallb] in Fy. bool_to_prop.
  next_part.
  { split; [|repeat split].
    destruct (month_head mon Hm) as (c & t & -> & Hw). simpl app.
    rewrite boundary_before by exact Hw. now rewrite B0. }
  next_part; [apply den_month; exists mon; now repeat split|].
  next_part;
    [exists sp1; unfold reads; rewrite forallb_space; repeat split; trivial|].
  assert (T : forall p more,
    more = comma ++ sp2 ++ [y1; y2; y3; y4] ++ b ->
    exec U
      (RSeq (alt [RChar (ch ","); REmpty])
         (RSeq (RPlus [CSpace]) (RSeq LegalPatterns.year (RSeq RWordB REmpty))))
      p more [] accept <> None).
  { intros p more ->.
    assert (Y : forall q,
      exec U (RSeq (RPlus [CSpace])
                (RSeq LegalPatterns.year (RSeq RWordB REmpty)))
           q (sp2 ++ [y1; y2; y3; y4] ++ b) [] accept <> None).
    { intros q.
      next_part;
        [exists sp2; unfold reads; rewrite forallb_space;
         repeat split; trivial|].
      next_part.
      { cbn [LegalPatterns.year seq den]. unfold stay.
        eexists _, _, _. split; [exists y1; rewrite Hd; repeat split; trivial|].
        eexists _, _, _. split; [exists y2; rewrite Hd; repeat split; trivial|].
        eexists _, _, _. split; [exists y3; rewrite Hd; repeat split; trivial|].
        eexists _, _, _. split; [exists y4; rewrite Hd; repeat split; trivial|].
        repeat split. }
      next_part; [split; [|repeat split]|discriminate].
      rewrite boundary_head. exact B. }
    destruct Hc as [-> | ->].
    - next_part; [right; repeat split|]. apply Y.
    - next_part; [left; repeat split|]. apply Y. }
  destruct day as [|d1 [|d2 [|d3 day]]]; simpl in Ld; try lia;
    cbn [forallb] in Fd; bool_to_prop.
  - next_part; [exists d1; rewrite Hd; repeat split; trivial|].
    next_part; [right; repeat split|]. now apply T.
  - next_part; [exists d1; rewrite Hd; repeat split; trivial|].
    next_part; [left; exists d2; rewrite Hd; repeat split; trivial|].
    now apply T.
Qed.

(** X21. [LEGAL_DATE] is found in a text exactly where a month (a full
    English name, or an abbreviation with or without a period), not right
    after a word character, is followed by whitespace, one or two digits,
    an optional comma, whitespace and four digits, with a word boundary
    after the last digit. Neither the day nor the year is checked
    further. *)
Theorem LEGAL_DATE_found (s : str) :
  re_search U LegalPatterns.LEGAL_DATE s <> None <->
  exists a rest, s = a ++ rest /\ legal_date_at U a rest.
Proof.
  unfold re_search. split.
  - intros H.
    destruct (search_from U LegalPatterns.LEGAL_DATE [] s) as [m|] eqn:E;
      [clear H|easy].
    apply search_from_sound in E as (a & rest & -> & E).
    exists a, rest. split; [reflexivity|].
    now apply (legal_date_sound a rest m).
  - intros (a & rest & -> & D). apply search_from_finds.
    now apply legal_date_complete.
Qed.

End LegalDate.

(** * Instances

    The theorems above hold for every Unicode database. Here they are
    applied to texts below U+0100. *)

Lemma clean_legal_text_idempotent_witness :
  contains triple (lit "too   much   space .") = false /\
  (clean_legal_text latin1_only
     (clean_legal_text latin1_only (lit "too   much   space ."))
   = clean_legal_text latin1_only (lit "too   much   space .") /\
   clean_legal_text latin1_only [sect; sect; sect; sect] = [sect; sect] /\
   clean_legal_text latin1_only [sect; sect] = [sect]).
Proof.
  split; [reflexivity|].
  apply (clean_legal_text_idempotent latin1_only). reflexivity.
Defined.

Lemma is_legal_entity_needs_word_after_period_witness :
  existsb (fun tok => followed_by_word latin1_only tok (lit "Acme Inc."))
          dotted_suffixes = false /\
  existsb (fun tok => contains tok (lit "Acme Inc.")) undotted_suffixes
    = false /\
  (is_legal_entity latin1_only (lit "Acme Inc.") = false /\
   is_legal_entity latin1_only (lit "Acme Inc.") = false /\
   is_legal_entity latin1_only (lit "Acme LLC") = true /\
   is_legal_entity latin1_only (lit "Acme Inc.x") = true).
Proof.
  split; [reflexivity|]. split; [reflexivity|].
  apply (is_legal_entity_needs_word_after_period latin1_only);
    reflexivity.
Defined.

Lemma extract_document_type_spec_witness :
  forallb (fun c => c <? 256) (lit "MOTION to dismiss") = true /\
  extract_document_type latin1_only (lower latin1_only (lit "MOTION to dismiss"))
  = extract_document_type latin1_only (lit "MOTION to dismiss").
Proof.
  split; [reflexivity|].
  apply (proj1 (proj2 (proj2
           (extract_document_type_spec latin1_only (lit "MOTION to dismiss"))))).
  reflexivity.
Defined.

(** The case name "Smith v. Jones 123" is not matched by the pattern (a
    digit follows the second name), and the split on " v. " gives the
    parties. *)
Lemma extract_party_names_tiers_witness :
  ~ (exists g1 g2, party_shape (lit "Smith v. Jones 123") g1 g2) /\
  first_at (lit " v. ") (lit "Smith v. Jones 123")
           (lit "Smith") (lit "Jones 123") /\
  extract_party_names latin1_only (lit "Smith v. Jones 123")
  = Ok (strip (lit "Smith"), strip (lit "Jones 123")).
Proof.
  assert (N : ~ (exists g1 g2,
                   party_shape (lit "Smith v. Jones 123") g1 g2)).
  { intros (g1 & g2 & S).
    now apply (party_match_complete latin1_only) in S. }
  assert (F : first_at (lit " v. ") (lit "Smith v. Jones 123")
                       (lit "Smith") (lit "Jones 123")).
  { split; [reflexivity|]. intros a' b' E.
    destruct a' as [|c1 [|c2 [|c3 [|c4 [|c5 a']]]]];
      try (simpl; lia); discriminate E. }
  split; [exact N|]. split; [exact F|].
  exact (proj1 (proj2 (extract_party_names_tiers
                         latin1_only (lit "Smith v. Jones 123")))
           N _ _ F).
Defined.

(** C4 as stated, refuted. In "Smith<TAB>v.<TAB>Jones" the text " v. "
    does not occur, so neither the case-name pattern with a literal " v. "
    nor the split on " v. " applies and the claim gives the whole text and
    an empty defendant; the code returns the two parties. *)
Lemma extract_party_names_tab_separator :
  contains (lit " v. ") (lit "Smith" ++ 9 :: lit "v." ++ 9 :: lit "Jones")
    = false /\
  extract_party_names latin1_only
    (lit "Smith" ++ 9 :: lit "v." ++ 9 :: lit "Jones")
    = Ok (lit "Smith", lit "Jones") /\
  extract_party_names latin1_only
    (lit "Smith" ++ 9 :: lit "v." ++ 9 :: lit "Jones")
    <> Ok (lit "Smith" ++ 9 :: lit "v." ++ 9 :: lit "Jones", []).
Proof.
  split; [reflexivity|]. split; [reflexivity|].
  vm_compute. discriminate.
Qed.

(** Two lines whose bracketed runs fit the limit of [int]: the numbers of
    "[12] a" are collected, the line "x [3]" gives nothing. *)
Lemma extract_paragraph_numbers_spec_witness :
  (forall line,
     In line (split_char 10 [] (lit "[12] a" ++ 10 :: lit "x [3]")) ->
     ~ oversized latin1_only line) /\
  exists ns,
    extract_paragraph_numbers latin1_only (lit "[12] a" ++ 10 :: lit "x [3]")
    = Ok ns /\
    collected latin1_only
      (split_char 10 [] (lit "[12] a" ++ 10 :: lit "x [3]")) ns.
Proof.
  assert (F : forall line,
     In line (split_char 10 [] (lit "[12] a" ++ 10 :: lit "x [3]")) ->
     ~ oversized latin1_only line).
  { intros line [<- | [<- | []]]; apply short_line_fits;
      apply Nat.leb_le; vm_compute; reflexivity. }
  split; [exact F|].
  exact (proj1 (extract_paragraph_numbers_spec latin1_only
                  (lit "[12] a" ++ 10 :: lit "x [3]")) F).
Defined.

(** C8 as stated, refuted. The second line is "[", 4301 times the digit
    2, "] Second": it matches [PARAGRAPH_NUMBER], so the claim appends its
    number after 1; [int] refuses a run of more than 4300 digits and the
    call raises [ValueError], returning no list at all. *)
Lemma extract_paragraph_numbers_long_run :
  re_match latin1_only LegalPatterns.PARAGRAPH_NUMBER
    (ch "[" :: repeat (ch "2") 4301 ++ lit "] Second") <> None /\
  extract_paragraph_numbers latin1_only
    (lit "[1] First" ++ 10 ::
     ch "[" :: repeat (ch "2") 4301 ++ lit "] Second")
  = Raise ValueError /\
  (forall ns,
     extract_paragraph_numbers latin1_only
       (lit "[1] First" ++ 10 ::
        ch "[" :: repeat (ch "2") 4301 ++ lit "] Second")
     <> Ok ns).
Proof.
  assert (E : extract_paragraph_numbers latin1_only
                (lit "[1] First" ++ 10 ::
                 ch "[" :: repeat (ch "2") 4301 ++ lit "] Second")
              = Raise ValueError) by (vm_compute; reflexivity).
  split; [vm_compute; discriminate|].
  split; [exact E|]. intros ns H. rewrite E in H. discriminate H.
Qed.

(** A one-line text whose bracketed run fits the limit of [int]:
    [extract_paragraph_numbers] returns. *)
Lemma functions_return_witness :
  (forall line,
     In line (split_char 10 [] (lit "[4] Fourth")) ->
     ~ oversized latin1_only line) /\
  returns (extract_paragraph_numbers latin1_only (lit "[4] Fourth")).
Proof.
  assert (F : forall line,
     In line (split_char 10 [] (lit "[4] Fourth")) ->
     ~ oversized latin1_only line).
  { intros line [<- | []]; apply short_line_fits;
      apply Nat.leb_le; vm_compute; reflexivity. }
  split; [exact F|].
  exact (proj1 (proj2 (proj2 (functions_return latin1_only
                                (lit "[4] Fourth")))) F).
Defined.

(** C9 as stated, refuted. On "[", 4301 times the digit 1, "]" the call
    of [extract_paragraph_numbers] raises [ValueError]: [int] refuses a
    run of more than 4300 digits, and nothing catches the exception. *)
Lemma extract_paragraph_numbers_raises :
  extract_paragraph_numbers latin1_only
    (ch "[" :: repeat (ch "1") 4301 ++ [ch "]"])
  = Raise ValueError /\
  ~ returns (extract_paragraph_numbers latin1_only
               (ch "[" :: repeat (ch "1") 4301 ++ [ch "]"])).
Proof.
  assert (E : extract_paragraph_numbers latin1_only
                (ch "[" :: repeat (ch "1") 4301 ++ [ch "]"])
              = Raise ValueError) by (vm_compute; reflexivity).
  split; [exact E|]. rewrite E. intros (ns & H). discriminate H.
Qed.

Lemma format_legal_date_ignores_padding_witness :
  forallb isspace (lit "  ") = true /\ forallb isspace [9; 10] = true /\
  format_legal_date (lit "  " ++ lit "May 5, 2024" ++ [9; 10])
  = format_legal_date (lit "May 5, 2024").
Proof.
  split; [reflexivity|]. split; [reflexivity|].
  apply format_legal_date_ignores_padding; reflexivity.
Defined.

Lemma is_legal_entity_case_sensitive_witness :
  existsb (between (ch "A") (ch "Z")) (lit "acme llc, a company") = false /\
  is_legal_entity latin1_only (lit "acme llc, a company") = false.
Proof.
  split; [reflexivity|].
  apply (is_legal_entity_case_sensitive latin1_only). reflexivity.
Defined.

Lemma normalize_court_name_normal_form_witness :
  normalize_court_name (9 :: lit "S.D.  New   York ")
  = Ok (lit "Southern District New York") /\
  join (lit " ") (split (lit "Southern District New York"))
  = lit "Southern District New York".
Proof.
  split; [reflexivity|].
  apply (normalize_court_name_normal_form (9 :: lit "S.D.  New   York ")).
  reflexivity.
Defined.

Lemma normalize_court_name_stable_witness :
  normalize_court_name (lit "9th  Cir.") = Ok (lit "9th Cir.") /\
  normalize_court_name (lit "9th Cir.") = Ok (lit "Ninth Circuit") /\
  normalize_court_name (lit "Ninth Circuit") = Ok (lit "Ninth Circuit").
Proof.
  split; [reflexivity|]. split; [reflexivity|].
  apply (normalize_court_name_stable (lit "9th  Cir.") (lit "9th Cir."));
    reflexivity.
Defined.

Lemma extract_party_names_round_trip_witness :
  stripped (lit "J. Smith") = true /\ stripped (lit "Acme Inc. 2") = true /\
  contains (lit "v.") (lit "J. Smith") = false /\
  contains (lit "v.") (lit "Acme Inc. 2") = false /\
  existsb (N.eqb (ch ",")) (lit "Acme Inc. 2") = false /\
  extract_party_names latin1_only (lit "J. Smith" ++ lit " v. " ++ lit "Acme Inc. 2")
  = Ok (lit "J. Smith", lit "Acme Inc. 2").
Proof.
  repeat (split; [reflexivity|]).
  apply (extract_party_names_round_trip latin1_only); reflexivity.
Defined.

Lemma extract_party_names_stripped_witness :
  extract_party_names latin1_only (lit "Smith  v.  Jones , et al.")
  = Ok (lit "Smith", lit "Jones") /\
  ((stripped (lit "Smith") = true /\ stripped (lit "Jones") = true) \/
   (lit "Smith" = lit "Smith  v.  Jones , et al." /\ lit "Jones" = [] /\
    contains (lit " v. ") (lit "Smith  v.  Jones , et al.") = false)).
Proof.
  split; [reflexivity|].
  apply (extract_party_names_stripped latin1_only
           (lit "Smith  v.  Jones , et al.")).
  reflexivity.
Defined.

Lemma extract_paragraph_numbers_newline_witness :
  extract_paragraph_numbers latin1_only (lit "[1] One" ++ 10 :: lit "text")
  = Ok [1] /\
  extract_paragraph_numbers latin1_only (lit " [12] Two") = Ok [12] /\
  extract_paragraph_numbers latin1_only
    ((lit "[1] One" ++ 10 :: lit "text") ++ 10 :: lit " [12] Two")
  = Ok ([1] ++ [12]).
Proof.
  split; [reflexivity|]. split; [reflexivity|].
  apply (extract_paragraph_numbers_newline latin1_only); reflexivity.
Defined.
